(** * Verification of the non-periodic parallel tridiagonal solver

    Source: code/lanl-implementation/npts.c

    The file embeds the two entry points of npts.c,
    [precompute_beta_gam] and [nonperiodic_tridiagonal_solver], and the
    worker group that runs them, and proves the properties the
    specification states about them: the local sweeps and the reduced
    systems index by index, the coefficient pipeline against the global
    recurrence, and the whole computation against sequential Thomas
    elimination.

    Modelling choices.
    - [double] values are exact rationals ([Qc], with Leibniz equality):
      the specification states its equalities "in exact arithmetic".  The
      only divisions of the code are those of the pipeline, whose divisors
      are positive (C10 for the group, X9 for one rank), so the convention
      [1/0 = 0] of [Qc] plays no part.
    - Integers are [Z].  Both functions store the [size_t] quotient
      [system_size/nprocs] in an [int]: [to_int] is that conversion (the
      value modulo 2^32, read in two's complement, as the compilers of the
      platforms MPI runs on define it), so that a block size beyond
      [INT_MAX] gives the code the wrapped [local_size] it really computes
      with.  Ranks and loop counters stay below [nprocs] and [local_size],
      which are [int] already.
    - A [double*] buffer is a list; every read and write is bounds checked
      and an access outside the buffer makes the computation fail ([None]),
      which stands for the undefined behaviour of the C program.
    - Uninitialised storage holds arbitrary values, a different one in
      every cell of every block of every rank: [uninit : fresh] gives them,
      and every result is quantified over it.
    - The program is SPMD over [nprocs] ranks.  A collective call
      (all-gather, broadcast, barrier) is a synchronisation point, so the
      group is run phase by phase: each phase applies the code between two
      collectives to every rank, and the collective itself is a function of
      the values the ranks contribute.  The pipeline's blocking receives
      order the ranks, which take their turns over a shared network state.

    Layout: the model of the code, the specification-side definitions, the
    loop and buffer rules, the sweeps and the reduced systems, the pipeline,
    the sequential reference with its correctness and the bounds on the
    coefficients, the group invariants, the solver on arbitrary coefficient
    arrays, the statements of the specification, C1 to C10, and last
    further properties of the two functions, X1 to X15. *)

From Stdlib Require Import ZArith QArith Qcanon Lia Field Reals Lra Qreals Psatz.
From stdpp Require Import base option list numbers.

Local Open Scope Z_scope.

(** ** Scalars *)

(** The literal [(1./3)] of the source. *)
Definition third : Qc := (1 / Q2Qc 3)%Qc.

(** ** Buffers *)

(** [a[i]] as an rvalue. *)
Definition rd (a : list Qc) (i : Z) : option Qc :=
  if bool_decide (0 ≤ i) then a !! Z.to_nat i else None.

(** [a[i] = v]. *)
Definition wr (a : list Qc) (i : Z) (v : Qc) : option (list Qc) :=
  if bool_decide (0 ≤ i < Z.of_nat (length a))
  then Some (<[Z.to_nat i := v]> a) else None.

(** Total selector, used in statements only. *)
Definition sel (a : list Qc) (i : Z) : Qc := default 0%Qc (rd a i).

(** ** Machine integers *)

Definition INT_MAX : Z := 2147483647.

(** The conversion of a [size_t] value to [int]: the value modulo 2^32,
    read as a two's-complement number. *)
Definition to_int (z : Z) : Z := (z + 2147483648) `mod` 4294967296 - 2147483648.

(** ** Uninitialised storage *)

(** The objects that are created without a value: the three heap blocks
    and the two coupling scalars of the solver, and the three buffers the
    caller allocates for a rank. *)
Inductive object : Type :=
| u_local_block | phi_local_block | psi_local_block
| u_tilda_var | x_tilda_var
| beta_buffer | gam_buffer | x_buffer.

(** What uninitialised storage holds: [uninit rank o i] is the content of
    cell [i] of object [o] on rank [rank]. *)
Definition fresh : Type := Z → object → Z → Qc.

(** [malloc(n*sizeof(double))] for an [int n]: [n] cells of unspecified
    content, [junk i] in cell [i].  For a negative [n] the product wraps to
    a size no allocation can have and the block has no cell. *)
Definition malloc (junk : Z → Qc) (n : Z) : list Qc :=
  (λ i : nat, junk (Z.of_nat i)) <$> seq 0 (Z.to_nat n).

(** ** Loops *)

(** [for (i = lo; i < hi; i++) body], the body changing neither [i] nor
    [hi]; [for_loop] unrolls the remaining [n] iterations. *)
Fixpoint for_loop {S : Type} (n : nat) (i : Z) (body : Z → S → option S) (s : S)
  : option S :=
  match n with
  | O => Some s
  | S n' => s' ← body i s; for_loop n' (i + 1) body s'
  end.

Definition for_range {S : Type} (lo hi : Z) (body : Z → S → option S) (s : S)
  : option S :=
  for_loop (Z.to_nat (hi - lo)) lo body s.

(** Modelled from the spec: [initZeros] is declared in npts.h, which is not
    among the sources, and the specification counts it with the buffer
    management it leaves to collaborators.  It is taken to do what its name
    says: store [0.0] in the first [n] cells.  The solver overwrites every
    cell of [u_local] in the combine loop before the right-to-left sweep
    reads it. *)
Definition initZeros (a : list Qc) (n : Z) : option (list Qc) :=
  for_range 0 n (λ i a, wr a i 0%Qc) a.

(** ** Point-to-point messages *)

(** A message in flight: source rank, destination rank, payload.  All
    messages of the program carry tag 10 and one [double]. *)
Definition msg : Type := Z * Z * Qc.

Definition MPI_Send (net : list msg) (src dst : Z) (v : Qc) : list msg :=
  net ++ [(src, dst, v)].

(** The oldest message from [src] to [dst]; [None] when there is none, in
    which case the receiver cannot proceed. *)
Fixpoint MPI_Recv (net : list msg) (src dst : Z) : option (Qc * list msg) :=
  match net with
  | [] => None
  | (s, d, v) :: net' =>
      if bool_decide (s = src ∧ d = dst) then Some (v, net')
      else '(v', net'') ← MPI_Recv net' src dst; Some (v', (s, d, v) :: net'')
  end.

(** ** precompute_beta_gam (npts.c, lines 176-210) *)

Definition precompute_beta_gam (rank nprocs : Z) (system_size : Z)
    (net : list msg) (beta_local gam_local : list Qc)
  : option (list Qc * list Qc * list msg) :=
  let local_size := to_int (system_size `quot` nprocs) in
  for_range 0 nprocs (λ r '(beta_local, gam_local, net),
    if bool_decide (rank = r) then
      '(beta_local, gam_local, net) ←
        (if bool_decide (rank = 0) then
           beta_local ← wr beta_local 0 1%Qc;
           gam_local ← wr gam_local 0 0%Qc;
           Some (beta_local, gam_local, net)
         else
           '(last_beta, net) ← MPI_Recv net (rank - 1) rank;
           beta_local ← wr beta_local 0 (1 / (1 - third * last_beta * third))%Qc;
           gam_local ← wr gam_local 0 (last_beta * third)%Qc;
           Some (beta_local, gam_local, net));
      '(beta_local, gam_local) ←
        for_range 1 local_size (λ i '(beta_local, gam_local),
          b ← rd beta_local (i - 1);
          beta_local ← wr beta_local i (1 / (1 - third * b * third))%Qc;
          b ← rd beta_local (i - 1);
          gam_local ← wr gam_local i (b * third)%Qc;
          Some (beta_local, gam_local)) (beta_local, gam_local);
      if bool_decide (rank ≠ nprocs - 1) then
        b ← rd beta_local (local_size - 1);
        Some (beta_local, gam_local, MPI_Send net rank (rank + 1) b)
      else Some (beta_local, gam_local, net)
    else Some (beta_local, gam_local, net)) (beta_local, gam_local, net).

(** The group: rank [r] cannot pass its receive before rank [r-1] has sent,
    so the ranks take their turns in increasing order; the network is the
    state they share. *)
Fixpoint precompute_ranks (nprocs system_size : Z) (rank : Z)
    (bufs : list (list Qc * list Qc)) (net : list msg)
  : option (list (list Qc * list Qc) * list msg) :=
  match bufs with
  | [] => Some ([], net)
  | (beta_local, gam_local) :: rest =>
      '(beta_local, gam_local, net) ←
        precompute_beta_gam rank nprocs system_size net beta_local gam_local;
      '(rest, net) ← precompute_ranks nprocs system_size (rank + 1) rest net;
      Some ((beta_local, gam_local) :: rest, net)
  end.

Definition precompute_group (system_size : Z) (bufs : list (list Qc * list Qc))
  : option (list (list Qc * list Qc) * list msg) :=
  precompute_ranks (Z.of_nat (length bufs)) system_size 0 bufs [].


(** ** nonperiodic_tridiagonal_solver (npts.c, lines 8-173)

    The function body is cut at its collective calls.  Each piece below is
    the code of one rank between two collectives, over the variables it
    reads and writes. *)

(** Lines 47-60, the local left-to-right sweep. *)
Definition forward_local (rank local_size : Z)
    (beta_local r_local phi_local psi_local : list Qc)
  : option (list Qc * list Qc) :=
  '(phi_local, psi_local) ←
    (if bool_decide (rank = 0) then
       phi_local ← wr phi_local 0 0%Qc;
       psi_local ← wr psi_local 0 1%Qc;
       Some (phi_local, psi_local)
     else
       b ← rd beta_local 0; r ← rd r_local 0;
       phi_local ← wr phi_local 0 (b * r)%Qc;
       b ← rd beta_local 0;
       psi_local ← wr psi_local 0 (- third * b)%Qc;
       Some (phi_local, psi_local));
  for_range 1 local_size (λ i '(phi_local, psi_local),
    b ← rd beta_local i; r ← rd r_local i; p ← rd phi_local (i - 1);
    phi_local ← wr phi_local i (b * (r - third * p))%Qc;
    b ← rd beta_local i; q ← rd psi_local (i - 1);
    psi_local ← wr psi_local i (- third * b * q)%Qc;
    Some (phi_local, psi_local)) (phi_local, psi_local).

(** Lines 70-75: rank 0 computes its first unknown; the result carries
    [u_local], [u_tilda] and the rank's own [u_first] before the broadcast. *)
Definition forward_anchor (rank : Z) (beta_local r_local u_local : list Qc)
    (u_tilda : Qc) : option (list Qc * Qc * Qc) :=
  let u_first := 0%Qc in
  if bool_decide (rank = 0) then
    b ← rd beta_local 0; r ← rd r_local 0;
    u_local ← wr u_local 0 (b * r)%Qc;
    u_tilda ← rd u_local 0;
    u_first ← rd u_local 0;
    Some (u_local, u_tilda, u_first)
  else Some (u_local, u_tilda, u_first).

(** Lines 79-91: the coupling scalar of the left-to-right sweep. *)
Definition forward_resolve (rank : Z) (phi_lasts psi_lasts : list Qc)
    (u_first u_tilda : Qc) : option Qc :=
  if bool_decide (rank ≠ 0) then
    '(u_tilda, product_2) ←
      for_range 0 rank (λ i '(u_tilda, product_2),
        product_1 ←
          for_range (i + 1) rank (λ j product_1,
            p ← rd psi_lasts j; Some (product_1 * p)%Qc) 1%Qc;
        f ← rd phi_lasts i;
        let u_tilda := (u_tilda + f * product_1)%Qc in
        p ← rd psi_lasts i;
        Some (u_tilda, (product_2 * p)%Qc)) (0%Qc, 1%Qc);
    Some (u_tilda + u_first * product_2)%Qc
  else Some u_tilda.

(** Lines 95-97. *)
Definition forward_combine (local_size : Z) (phi_local psi_local : list Qc)
    (u_tilda : Qc) (u_local : list Qc) : option (list Qc) :=
  for_range 0 local_size (λ i u_local,
    p ← rd phi_local i; q ← rd psi_local i;
    wr u_local i (p + u_tilda * q)%Qc) u_local.

(** Lines 108-122, the local right-to-left sweep. *)
Definition backward_local (rank nprocs local_size : Z)
    (u_local gam_local gam_firsts phi_local psi_local : list Qc)
  : option (list Qc * list Qc) :=
  '(phi_local, psi_local) ←
    (if bool_decide (rank = nprocs - 1) then
       phi_local ← wr phi_local (local_size - 1) 0%Qc;
       psi_local ← wr psi_local (local_size - 1) 1%Qc;
       Some (phi_local, psi_local)
     else
       u ← rd u_local (local_size - 1);
       phi_local ← wr phi_local (local_size - 1) u;
       g ← rd gam_firsts (rank + 1);
       psi_local ← wr psi_local (local_size - 1) (- g)%Qc;
       Some (phi_local, psi_local));
  for_range 1 local_size (λ i '(phi_local, psi_local),
    u ← rd u_local (local_size - 1 - i);
    g ← rd gam_local (local_size - 1 - i + 1);
    p ← rd phi_local (local_size - 1 - i + 1);
    phi_local ← wr phi_local (local_size - 1 - i) (u - g * p)%Qc;
    g ← rd gam_local (local_size - 1 - i + 1);
    q ← rd psi_local (local_size - 1 - i + 1);
    psi_local ← wr psi_local (local_size - 1 - i) (- g * q)%Qc;
    Some (phi_local, psi_local)) (phi_local, psi_local).

(** Lines 129-134: the last rank computes its last unknown; the result
    carries [x_local], [x_tilda] and the rank's own [x_last] before the
    broadcast. *)
Definition backward_anchor (rank nprocs local_size : Z) (u_local x_local : list Qc)
    (x_tilda : Qc) : option (list Qc * Qc * Qc) :=
  let x_last := 0%Qc in
  if bool_decide (rank = nprocs - 1) then
    u ← rd u_local (local_size - 1);
    x_local ← wr x_local (local_size - 1) u;
    x_tilda ← rd x_local (local_size - 1);
    let x_last := x_tilda in
    Some (x_local, x_tilda, x_last)
  else Some (x_local, x_tilda, x_last).

(** Lines 138-154: the coupling scalar of the right-to-left sweep. *)
Definition backward_resolve (rank nprocs : Z) (phi_firsts psi_firsts : list Qc)
    (x_last x_tilda : Qc) : option Qc :=
  if bool_decide (rank ≠ nprocs - 1) then
    x_tilda ←
      for_range (rank + 2) nprocs (λ i x_tilda,
        product_1 ←
          for_range (rank + 1) i (λ j product_1,
            p ← rd psi_firsts j; Some (product_1 * p)%Qc) 1%Qc;
        f ← rd phi_firsts i;
        Some (x_tilda + f * product_1)%Qc) 0%Qc;
    product_2 ←
      for_range (rank + 1) nprocs (λ i product_2,
        p ← rd psi_firsts i; Some (product_2 * p)%Qc) 1%Qc;
    f ← rd phi_firsts (rank + 1);
    Some (x_tilda + (f + x_last * product_2))%Qc
  else Some x_tilda.

(** Lines 158-161. *)
Definition backward_combine (local_size : Z) (phi_local psi_local : list Qc)
    (x_tilda : Qc) (x_local : list Qc) : option (list Qc) :=
  for_range 0 local_size (λ i x_local,
    p ← rd phi_local (local_size - 1 - i);
    q ← rd psi_local (local_size - 1 - i);
    wr x_local (local_size - 1 - i) (p + x_tilda * q)%Qc) x_local.

(** ** The worker group *)

(** The arguments one rank passes to the solver. *)
Record args : Type := Args {
  beta_local : list Qc;
  gam_local : list Qc;
  r_local : list Qc;
  x_local : list Qc
}.

(** The variables of one rank inside the solver: its arguments, the three
    heap buffers of [local_size] cells and the two coupling scalars. *)
Record worker : Type := Worker {
  w_args : args;
  w_u : list Qc;
  w_phi : list Qc;
  w_psi : list Qc;
  w_u_tilda : Qc;
  w_x_tilda : Qc
}.

(** What a rank leaves behind: the diagnostic it printed (its two printed
    numbers) with the output buffer as it is at the early return, or the
    output buffer at the end of the function. *)
Inductive outcome : Type :=
| Rejected (system_size nprocs : Z) (x : list Qc)
| Solved (x : list Qc).

(** Apply the code of one phase to every rank, lowest rank first. *)
Fixpoint each_rank_from {A B : Type} (rank : Z) (f : Z → A → option B)
    (ws : list A) : option (list B) :=
  match ws with
  | [] => Some []
  | w :: ws' =>
      w' ← f rank w; rest ← each_rank_from (rank + 1) f ws'; Some (w' :: rest)
  end.

Definition each_rank {A B : Type} (f : Z → A → option B) (ws : list A)
  : option (list B) := each_rank_from 0 f ws.

(** [MPI_Allgather] of one [double] per rank: the receive buffer holds the
    contributions in rank order. *)
Definition MPI_Allgather {A : Type} (send : A → option Qc) (ws : list A)
  : option (list Qc) := mapM send ws.

(** [MPI_Bcast] of one [double]: every rank ends with the root's value. *)
Definition MPI_Bcast (root : Z) (vals : list Qc) : option Qc := rd vals root.

(** Lines 20-60 on one rank, after the size check. *)
Definition solver_phase1 (uninit : fresh) (local_size : Z) (rank : Z) (a : args)
  : option worker :=
  let u_local := malloc (uninit rank u_local_block) local_size in
  let phi_local := malloc (uninit rank phi_local_block) local_size in
  let psi_local := malloc (uninit rank psi_local_block) local_size in
  u_local ← initZeros u_local local_size;
  '(phi_local, psi_local) ←
    forward_local rank local_size (beta_local a) (r_local a) phi_local psi_local;
  Some (Worker a u_local phi_local psi_local
          (uninit rank u_tilda_var 0) (uninit rank x_tilda_var 0)).

(** Lines 70-75. *)
Definition solver_phase2 (rank : Z) (w : worker) : option (worker * Qc) :=
  '(u_local, u_tilda, u_first) ←
    forward_anchor rank (beta_local (w_args w)) (r_local (w_args w)) (w_u w)
      (w_u_tilda w);
  Some (Worker (w_args w) u_local (w_phi w) (w_psi w) u_tilda (w_x_tilda w),
        u_first).

(** Lines 79-97. *)
Definition solver_phase3 (local_size : Z) (phi_lasts psi_lasts : list Qc)
    (u_first : Qc) (rank : Z) (w : worker) : option worker :=
  u_tilda ← forward_resolve rank phi_lasts psi_lasts u_first (w_u_tilda w);
  u_local ← forward_combine local_size (w_phi w) (w_psi w) u_tilda (w_u w);
  Some (Worker (w_args w) u_local (w_phi w) (w_psi w) u_tilda (w_x_tilda w)).

(** Lines 108-122. *)
Definition solver_phase4 (nprocs local_size : Z) (gam_firsts : list Qc)
    (rank : Z) (w : worker) : option worker :=
  '(phi_local, psi_local) ←
    backward_local rank nprocs local_size (w_u w) (gam_local (w_args w))
      gam_firsts (w_phi w) (w_psi w);
  Some (Worker (w_args w) (w_u w) phi_local psi_local (w_u_tilda w) (w_x_tilda w)).

(** Lines 129-134. *)
Definition solver_phase5 (nprocs local_size : Z) (rank : Z) (w : worker)
  : option (worker * Qc) :=
  let a := w_args w in
  '(x, x_tilda, x_last) ←
    backward_anchor rank nprocs local_size (w_u w) (x_local a) (w_x_tilda w);
  Some (Worker (Args (beta_local a) (gam_local a) (r_local a) x)
          (w_u w) (w_phi w) (w_psi w) (w_u_tilda w) x_tilda,
        x_last).

(** Lines 138-161. *)
Definition solver_phase6 (nprocs local_size : Z) (phi_firsts psi_firsts : list Qc)
    (x_last : Qc) (rank : Z) (w : worker) : option worker :=
  let a := w_args w in
  x_tilda ← backward_resolve rank nprocs phi_firsts psi_firsts x_last (w_x_tilda w);
  x ← backward_combine local_size (w_phi w) (w_psi w) x_tilda (x_local a);
  Some (Worker (Args (beta_local a) (gam_local a) (r_local a) x)
          (w_u w) (w_phi w) (w_psi w) (w_u_tilda w) x_tilda).

(** After an anchor phase every rank holds its variables and its own copy
    of the scalar to broadcast. *)
Definition workers_of (l : list (worker * Qc)) : list worker := fst <$> l.
Definition scalars_of (l : list (worker * Qc)) : list Qc := snd <$> l.

(** Lines 47-97 on the group: the left-to-right sweep with its two
    all-gathers and its broadcast from rank 0. *)
Definition sweep_LR (uninit : fresh) (local_size : Z) (group : list args)
  : option (list worker) :=
  ws ← each_rank (solver_phase1 uninit local_size) group;
  phi_lasts ← MPI_Allgather (λ w, rd (w_phi w) (local_size - 1)) ws;
  psi_lasts ← MPI_Allgather (λ w, rd (w_psi w) (local_size - 1)) ws;
  ws ← each_rank solver_phase2 ws;
  u_first ← MPI_Bcast 0 (scalars_of ws);
  each_rank (solver_phase3 local_size phi_lasts psi_lasts u_first) (workers_of ws).

(** Lines 105-161 on the group: the right-to-left sweep with its three
    all-gathers and its broadcast from the last rank. *)
Definition sweep_RL (nprocs local_size : Z) (ws : list worker)
  : option (list worker) :=
  gam_firsts ← MPI_Allgather (λ w, rd (gam_local (w_args w)) 0) ws;
  ws ← each_rank (solver_phase4 nprocs local_size gam_firsts) ws;
  phi_firsts ← MPI_Allgather (λ w, rd (w_phi w) 0) ws;
  psi_firsts ← MPI_Allgather (λ w, rd (w_psi w) 0) ws;
  ws ← each_rank (solver_phase5 nprocs local_size) ws;
  x_last ← MPI_Bcast (nprocs - 1) (scalars_of ws);
  each_rank (solver_phase6 nprocs local_size phi_firsts psi_firsts x_last)
    (workers_of ws).

(** The solver called by every rank of a group with the same [system_size];
    [nprocs] is the size of the group.  The receive buffers of the
    all-gathers ([phi_lasts], [psi_lasts], [gam_firsts], [phi_firsts],
    [psi_firsts]) have [nprocs] cells, all of which the all-gather
    overwrites; barriers, timers and [free] leave no trace in the result. *)
Definition nonperiodic_tridiagonal_solver (uninit : fresh) (system_size : Z)
    (group : list args) : option (list outcome) :=
  let nprocs := Z.of_nat (length group) in
  let local_size := to_int (system_size `quot` nprocs) in
  if bool_decide (system_size `rem` nprocs ≠ 0) then
    Some (fmap (M:=list) (λ a, Rejected system_size nprocs (x_local a)) group)
  else
    ws ← sweep_LR uninit local_size group;
    ws ← sweep_RL nprocs local_size ws;
    Some (fmap (M:=list) (λ w, Solved (x_local (w_args w))) ws).

(** * Specification-side definitions *)

(** The global coefficient recurrence of the pipeline, by global index. *)
Fixpoint beta_seq (i : nat) : Qc :=
  match i with
  | O => 1%Qc
  | S j => (1 / (1 - third * beta_seq j * third))%Qc
  end.

Definition gam_seq (i : nat) : Qc :=
  match i with
  | O => 0%Qc
  | S j => (beta_seq j * third)%Qc
  end.

(** What the left-to-right local sweep leaves in [phi_local], [psi_local]. *)
Definition forward_swept (rank local_size : Z)
    (beta_local r_local phi_local psi_local : list Qc) : Prop :=
  Z.of_nat (length phi_local) = local_size ∧
  Z.of_nat (length psi_local) = local_size ∧
  (rank = 0 → sel phi_local 0 = 0%Qc ∧ sel psi_local 0 = 1%Qc) ∧
  (rank ≠ 0 →
     sel phi_local 0 = (sel beta_local 0 * sel r_local 0)%Qc ∧
     sel psi_local 0 = (- third * sel beta_local 0)%Qc) ∧
  ∀ i, 1 ≤ i < local_size →
    sel phi_local i
      = (sel beta_local i * (sel r_local i - third * sel phi_local (i - 1)))%Qc ∧
    sel psi_local i = (- third * sel beta_local i * sel psi_local (i - 1))%Qc.

(** What the right-to-left local sweep leaves in [phi_local], [psi_local]. *)
Definition backward_swept (rank nprocs local_size : Z)
    (u_local gam_local gam_firsts phi_local psi_local : list Qc) : Prop :=
  Z.of_nat (length phi_local) = local_size ∧
  Z.of_nat (length psi_local) = local_size ∧
  (rank = nprocs - 1 →
     sel phi_local (local_size - 1) = 0%Qc ∧
     sel psi_local (local_size - 1) = 1%Qc) ∧
  (rank ≠ nprocs - 1 →
     sel phi_local (local_size - 1) = sel u_local (local_size - 1) ∧
     sel psi_local (local_size - 1) = (- sel gam_firsts (rank + 1))%Qc) ∧
  ∀ i, 0 ≤ i < local_size - 1 →
    sel phi_local i
      = (sel u_local i - sel gam_local (i + 1) * sel phi_local (i + 1))%Qc ∧
    sel psi_local i = (- sel gam_local (i + 1) * sel psi_local (i + 1))%Qc.

(** What a combine loop leaves in its output: [out[i] = phi[i] + t*psi[i]]. *)
Definition combined (local_size : Z) (phi_local psi_local : list Qc) (t : Qc)
    (out : list Qc) : Prop :=
  Z.of_nat (length out) = local_size ∧
  ∀ i, 0 ≤ i < local_size →
    sel out i = (sel phi_local i + t * sel psi_local i)%Qc.

(** Sums and products over the index range [lo, hi). *)
Fixpoint prod_from (a : list Qc) (lo : Z) (n : nat) : Qc :=
  match n with
  | O => 1%Qc
  | S m => (prod_from a lo m * sel a (lo + Z.of_nat m))%Qc
  end.

Definition prod_range (a : list Qc) (lo hi : Z) : Qc :=
  prod_from a lo (Z.to_nat (hi - lo)).

Fixpoint sum_from (f : Z → Qc) (lo : Z) (n : nat) : Qc :=
  match n with
  | O => 0%Qc
  | S m => (sum_from f lo m + f (lo + Z.of_nat m)%Z)%Qc
  end.

Definition sum_range (f : Z → Qc) (lo hi : Z) : Qc :=
  sum_from f lo (Z.to_nat (hi - lo)).

(** The coupling scalar of rank [k > 0] as the specification words it: the
    sum over [i < k] of [phi_lasts[i]] times the product of [psi_lasts[j]]
    for [j] in (i, k), plus [u_first] times the product of [psi_lasts[i]]
    for [i] in [0, k). *)
Definition u_tilda_closed (k : Z) (phi_lasts psi_lasts : list Qc) (u_first : Qc)
  : Qc :=
  (sum_range (λ i, sel phi_lasts i * prod_range psi_lasts (i + 1) k) 0 k
   + u_first * prod_range psi_lasts 0 k)%Qc.

(** The reduced recurrence [u_k = phi_lasts[k-1] + psi_lasts[k-1] * u_(k-1)],
    [u_0 = u_first]. *)
Fixpoint u_rec (phi_lasts psi_lasts : list Qc) (u_first : Qc) (k : nat) : Qc :=
  match k with
  | O => u_first
  | S j =>
      (sel phi_lasts (Z.of_nat j)
       + sel psi_lasts (Z.of_nat j) * u_rec phi_lasts psi_lasts u_first j)%Qc
  end.

(** The coupling scalar of rank [k < P-1] as the specification words it: the
    sum over [i] from [k+2] to [P-1] of [phi_firsts[i]] times the product of
    [psi_firsts[j]] for [j] in [k+1, i), plus [phi_firsts[k+1]], plus
    [x_last] times the product of [psi_firsts[i]] for [i] in [k+1, P). *)
Definition x_tilda_closed (k nprocs : Z) (phi_firsts psi_firsts : list Qc)
    (x_last : Qc) : Qc :=
  (sum_range (λ i, sel phi_firsts i * prod_range psi_firsts (k + 1) i)
     (k + 2) nprocs
   + sel phi_firsts (k + 1)
   + x_last * prod_range psi_firsts (k + 1) nprocs)%Qc.

(** The mirrored reduced recurrence, walked from the right edge: [m] counts
    the ranks to the right, so the value is that of rank [nprocs - 1 - m]. *)
Fixpoint x_rec (nprocs : Z) (phi_firsts psi_firsts : list Qc) (x_last : Qc)
    (m : nat) : Qc :=
  match m with
  | O => x_last
  | S m' =>
      (sel phi_firsts (nprocs - 1 - Z.of_nat m')
       + sel psi_firsts (nprocs - 1 - Z.of_nat m')
         * x_rec nprocs phi_firsts psi_firsts x_last m')%Qc
  end.

(** What one rank of the pipeline leaves in its two buffers, [last_beta]
    being the value it received (unused on rank 0). *)
Definition pipelined (rank : Z) (last_beta : Qc) (local_size : Z)
    (beta_local gam_local : list Qc) : Prop :=
  Z.of_nat (length beta_local) = local_size ∧
  Z.of_nat (length gam_local) = local_size ∧
  (rank = 0 → sel beta_local 0 = 1%Qc ∧ sel gam_local 0 = 0%Qc) ∧
  (rank ≠ 0 →
     sel beta_local 0 = (1 / (1 - third * last_beta * third))%Qc ∧
     sel gam_local 0 = (last_beta * third)%Qc) ∧
  ∀ i, 1 ≤ i < local_size →
    sel beta_local i = (1 / (1 - third * sel beta_local (i - 1) * third))%Qc ∧
    sel gam_local i = (sel beta_local (i - 1) * third)%Qc.

(** The block of a global sequence that rank [k] owns. *)
Definition owns (local_size : Z) (k : Z) (f : nat → Qc) (a : list Qc) : Prop :=
  Z.of_nat (length a) = local_size ∧
  ∀ i, 0 ≤ i < local_size → sel a i = f (Z.to_nat (k * local_size + i)).

(** ** The sequential reference

    Direct Thomas elimination of a tridiagonal system, as in the textbooks.
    A row is [(a, b, c, d)]: sub-diagonal, diagonal and super-diagonal
    entries and right-hand side.  The forward pass turns row [i] into the
    pair [(c'_i, d'_i)], the backward pass substitutes from the last row. *)
Definition row : Type := Qc * Qc * Qc * Qc.

Fixpoint thomas_forward (cp dp : Qc) (rows : list row) : list (Qc * Qc) :=
  match rows with
  | [] => []
  | (a, b, c, d) :: rest =>
      let m := (b - a * cp)%Qc in
      let cp' := (c / m)%Qc in
      let dp' := ((d - a * dp) / m)%Qc in
      (cp', dp') :: thomas_forward cp' dp' rest
  end.

Fixpoint thomas_backward (cd : list (Qc * Qc)) : list Qc :=
  match cd with
  | [] => []
  | (cp, dp) :: rest =>
      match thomas_backward rest with
      | [] => [dp]
      | x :: xs => (dp - cp * x)%Qc :: x :: xs
      end
  end.

Definition thomas (rows : list row) : list Qc :=
  thomas_backward (thomas_forward 0%Qc 0%Qc rows).

(** The system of this solver: unit diagonal, weight 1/3 off the diagonal. *)
Definition system_rows (r : list Qc) : list row :=
  (λ d, (third, 1%Qc, third, d)) <$> r.

Definition thomas_solution (r : list Qc) : list Qc := thomas (system_rows r).

(** The product of a tridiagonal matrix, given by its rows, with a vector.
    [prev] is the unknown left of the first row; the top-level product
    takes it as 0, and the unknown right of the last row is 0 as well: the
    entries left of the first and right of the last column are absent. *)
Fixpoint tridiag_from (prev : Qc) (rows : list row) (x : list Qc) : list Qc :=
  match rows, x with
  | (a, b, c, _) :: rest, x0 :: xs =>
      (a * prev + b * x0 + c * hd 0%Qc xs)%Qc :: tridiag_from x0 rest xs
  | _, _ => []
  end.

Definition tridiag_apply (rows : list row) (x : list Qc) : list Qc :=
  tridiag_from 0%Qc rows x.

Definition rhs (rw : row) : Qc := rw.2.

(** The pivots the forward pass divides by. *)
Fixpoint pivots (cp : Qc) (rows : list row) : list Qc :=
  match rows with
  | [] => []
  | (a, b, c, _) :: rest =>
      let m := (b - a * cp)%Qc in m :: pivots (c / m)%Qc rest
  end.

(** A dense matrix, by rows, times a vector. *)
Fixpoint dot (u v : list Qc) : Qc :=
  match u, v with
  | a :: u', b :: v' => (a * b + dot u' v')%Qc
  | _, _ => 0%Qc
  end.

Definition mat_vec (A : list (list Qc)) (x : list Qc) : list Qc :=
  (λ row, dot row x) <$> A.

(** Rationals as reals, to compare with an irrational bound. *)
Definition Qc2R (x : Qc) : R := Q2R (this x).

(** The lower fixed point of [b ↦ 1/(1 - b/9)]. *)
Definition beta_limit : R := ((9 - 3 * sqrt 5) / 2)%R.

(** The right-hand side after forward elimination, by global index. *)
Fixpoint u_seq (r : list Qc) (i : nat) : Qc :=
  match i with
  | O => (beta_seq 0 * sel r 0)%Qc
  | S j => (beta_seq (S j) * (sel r (Z.of_nat (S j)) - third * u_seq r j))%Qc
  end.

(** ** The two entry points in sequence *)

(** Modelled from the spec: the caller is not among the sources.  Rank [k]
    owns the [k]-th block of [local_size] contiguous unknowns. *)
Definition blocks (nprocs : nat) (local_size : Z) (r : list Qc) : list (list Qc) :=
  (λ k, take (Z.to_nat local_size) (drop (k * Z.to_nat local_size) r))
    <$> seq 0 nprocs.

(** Modelled from the spec: the caller is not among the sources.  The
    coefficient buffers and the output buffers the ranks allocate, of
    [local_size] cells each, with whatever fresh memory holds. *)
Definition caller_buffers (uninit : fresh) (nprocs : nat) (local_size : Z)
  : list (list Qc * list Qc) :=
  (λ k : nat, (malloc (uninit (Z.of_nat k) beta_buffer) local_size,
               malloc (uninit (Z.of_nat k) gam_buffer) local_size))
    <$> seq 0 nprocs.

Definition caller_outputs (uninit : fresh) (nprocs : nat) (local_size : Z)
  : list (list Qc) :=
  (λ k : nat, malloc (uninit (Z.of_nat k) x_buffer) local_size) <$> seq 0 nprocs.

(** Modelled from the spec: the caller is not among the sources.  Every
    rank allocates its buffers of [system_size / nprocs] cells, holds its
    block of the right-hand side, calls [precompute_beta_gam] and then
    [nonperiodic_tridiagonal_solver]. *)
Definition pipeline_then_solver (uninit : fresh) (nprocs : nat) (system_size : Z)
    (r : list Qc) : option (list outcome) :=
  let local_size := system_size `quot` Z.of_nat nprocs in
  '(coeffs, _) ←
    precompute_group system_size (caller_buffers uninit nprocs local_size);
  nonperiodic_tridiagonal_solver uninit system_size
    (zip_with (λ '(b, g) '(r_local, x), Args b g r_local x)
       coeffs
       (zip (blocks nprocs local_size r) (caller_outputs uninit nprocs local_size))).

(** The solution the group holds: the output blocks in rank order, when
    every rank has solved. *)
Definition solved_block (o : outcome) : option (list Qc) :=
  match o with
  | Solved x => Some x
  | Rejected _ _ _ => None
  end.

Definition gathered (outs : list outcome) : option (list Qc) :=
  mjoin <$> mapM solved_block outs.

Definition solve_distributed (uninit : fresh) (nprocs : nat) (system_size : Z)
    (r : list Qc) : option (list Qc) :=
  pipeline_then_solver uninit nprocs system_size r ≫= gathered.

(** A property of every rank of a group, indexed by the rank. *)
Definition ranked {A : Type} (Q : Z → A → Prop) (ws : list A) : Prop :=
  ∀ (k : nat) w, ws !! k = Some w → Q (Z.of_nat k) w.

(** The arguments of rank [k] in a group that solves the system with
    right-hand side [r]: its blocks of the coefficients and of [r], and an
    output buffer of [local_size] cells. *)
Definition args_ok (local_size : Z) (r : list Qc) (k : Z) (a : args) : Prop :=
  owns local_size k beta_seq (beta_local a) ∧
  owns local_size k gam_seq (gam_local a) ∧
  owns local_size k (λ g, sel r (Z.of_nat g)) (r_local a) ∧
  Z.of_nat (length (x_local a)) = local_size.

(** The two global sequences by integer index: the forward-eliminated
    right-hand side and the reference solution. *)
Definition u_at (r : list Qc) (g : Z) : Qc := u_seq r (Z.to_nat g).
Definition x_at (r : list Qc) (g : Z) : Qc := sel (thomas_solution r) g.

(** The scalar the left-to-right sweep of rank [k] is coupled to: the first
    unknown of the system on rank 0, the last unknown of the left neighbour
    elsewhere. *)
Definition u_coupling (local_size : Z) (r : list Qc) (k : Z) : Qc :=
  if bool_decide (k = 0) then u_at r 0 else u_at r (k * local_size - 1).

(** The scalar the right-to-left sweep of rank [k] is coupled to: the last
    unknown of the system on the last rank, the first unknown of the right
    neighbour elsewhere. *)
Definition x_coupling (nprocs local_size : Z) (r : list Qc) (k : Z) : Qc :=
  if bool_decide (k = nprocs - 1) then x_at r (nprocs * local_size - 1)
  else x_at r ((k + 1) * local_size).

(** ** The state of the group between the phases of the solver *)

Definition after_forward_local (local_size : Z) (r : list Qc) (k : Z)
    (w : worker) : Prop :=
  args_ok local_size r k (w_args w) ∧
  Z.of_nat (length (w_u w)) = local_size ∧
  Z.of_nat (length (w_phi w)) = local_size ∧
  Z.of_nat (length (w_psi w)) = local_size ∧
  ∀ i, 0 ≤ i < local_size →
    (sel (w_phi w) i + u_coupling local_size r k * sel (w_psi w) i)%Qc
    = u_at r (k * local_size + i).

Definition after_forward_anchor (local_size : Z) (r : list Qc) (k : Z)
    (wu : worker * Qc) : Prop :=
  after_forward_local local_size r k wu.1 ∧
  (k = 0 → w_u_tilda wu.1 = u_at r 0 ∧ wu.2 = u_at r 0).

Definition after_forward_combine (local_size : Z) (r : list Qc) (k : Z)
    (w : worker) : Prop :=
  args_ok local_size r k (w_args w) ∧
  owns local_size k (λ g, u_at r (Z.of_nat g)) (w_u w) ∧
  Z.of_nat (length (w_phi w)) = local_size ∧
  Z.of_nat (length (w_psi w)) = local_size.

Definition after_backward_local (nprocs local_size : Z) (r : list Qc) (k : Z)
    (w : worker) : Prop :=
  args_ok local_size r k (w_args w) ∧
  owns local_size k (λ g, u_at r (Z.of_nat g)) (w_u w) ∧
  Z.of_nat (length (w_phi w)) = local_size ∧
  Z.of_nat (length (w_psi w)) = local_size ∧
  ∀ i, 0 ≤ i < local_size →
    (sel (w_phi w) i + x_coupling nprocs local_size r k * sel (w_psi w) i)%Qc
    = x_at r (k * local_size + i).

Definition after_backward_anchor (nprocs local_size : Z) (r : list Qc) (k : Z)
    (wx : worker * Qc) : Prop :=
  after_backward_local nprocs local_size r k wx.1 ∧
  (k = nprocs - 1 →
     w_x_tilda wx.1 = x_at r (nprocs * local_size - 1) ∧
     wx.2 = x_at r (nprocs * local_size - 1)).

Definition after_backward_combine (local_size : Z) (r : list Qc) (k : Z)
    (w : worker) : Prop :=
  owns local_size k (λ g, x_at r (Z.of_nat g)) (x_local (w_args w)).

(** ** The example of the specification: N = 4, r = [1,1,1,1] *)

Definition example_matrix : list (list Qc) :=
  [ [1%Qc; third; 0%Qc; 0%Qc];
    [third; 1%Qc; third; 0%Qc];
    [0%Qc; third; 1%Qc; third];
    [0%Qc; 0%Qc; third; 1%Qc] ].

Definition example_rhs : list Qc := [1%Qc; 1%Qc; 1%Qc; 1%Qc].

Definition example_solution : list Qc :=
  Q2Qc <$> [9 # 11; 6 # 11; 6 # 11; 9 # 11]%Q.

(** Two contents of uninitialised storage: zero everywhere, and a
    different value in every cell of every object of every rank. *)
Definition zeroed : fresh := λ _ _ _, 0%Qc.

Definition object_number (o : object) : Z :=
  match o with
  | u_local_block => 1 | phi_local_block => 2 | psi_local_block => 3
  | u_tilda_var => 4 | x_tilda_var => 5
  | beta_buffer => 6 | gam_buffer => 7 | x_buffer => 8
  end.

Definition numbered : fresh :=
  λ rank o i, Q2Qc (inject_Z (100 * rank + 10 * object_number o + i + 1)).

(** A one-rank group on the system of size 2 with right-hand side [1, 1]:
    the coefficients are those the pipeline computes. *)
Definition single_rank_group : list args :=
  [ Args [1%Qc; Q2Qc (9 # 8)] [0%Qc; Q2Qc (1 # 3)] [1%Qc; 1%Qc] [0%Qc; 0%Qc] ].

(** A two-rank group whose output buffers hold a sentinel. *)
Definition two_rank_group : list args :=
  [ Args [1%Qc] [0%Qc] [1%Qc] [Q2Qc 7];
    Args [Q2Qc (9 # 8)] [Q2Qc (1 # 3)] [1%Qc] [Q2Qc 7] ].



(** ** The two sweeps as sequential recurrences

    What the solver computes from coefficient and right-hand-side arrays
    that span the whole system, whatever they hold: the recurrences of its
    two sweeps, run over the global index by one process. *)

(** [u[0] = beta[0]*r[0]] and [u[g] = beta[g]*(r[g] - (1/3)*u[g-1])]. *)
Fixpoint forward_pass (beta r : list Qc) (g : nat) : Qc :=
  match g with
  | O => (sel beta 0 * sel r 0)%Qc
  | S g' =>
      (sel beta (Z.of_nat (S g'))
       * (sel r (Z.of_nat (S g')) - third * forward_pass beta r g'))%Qc
  end.

(** [x[last] = u[last]] and [x[g] = u[g] - gam[g+1]*x[g+1]]; the value at
    index [last - m]. *)
Fixpoint backward_pass (gam : list Qc) (u : nat → Qc) (last m : nat) : Qc :=
  match m with
  | O => u last
  | S m' =>
      (u (last - S m')%nat
       - sel gam (Z.of_nat (last - m')) * backward_pass gam u last m')%Qc
  end.

Definition two_sweeps (beta gam r : list Qc) : list Qc :=
  let last := (length r - 1)%nat in
  (λ g, backward_pass gam (forward_pass beta r) last (last - g))
    <$> seq 0 (length r).

(** The two passes by integer index. *)
Definition fwd_at (B R : list Qc) (g : Z) : Qc := forward_pass B R (Z.to_nat g).
Definition sol_at (B G R : list Qc) (g : Z) : Qc := sel (two_sweeps B G R) g.

(** The arguments of rank [k] in a group whose buffers are the blocks of
    the arrays [B], [G] and [R]. *)
Definition args_hold (local_size : Z) (B G R : list Qc) (k : Z) (a : args)
  : Prop :=
  owns local_size k (λ g, sel B (Z.of_nat g)) (beta_local a) ∧
  owns local_size k (λ g, sel G (Z.of_nat g)) (gam_local a) ∧
  owns local_size k (λ g, sel R (Z.of_nat g)) (r_local a) ∧
  Z.of_nat (length (x_local a)) = local_size.

(** The value each sweep of rank [k] is coupled to: the first cell of the
    pass on the rank where it starts, the neighbour's nearest cell on the
    others. *)
Definition fwd_coupling (local_size : Z) (B R : list Qc) (k : Z) : Qc :=
  if bool_decide (k = 0) then fwd_at B R 0 else fwd_at B R (k * local_size - 1).

Definition sol_coupling (nprocs local_size : Z) (B G R : list Qc) (k : Z) : Qc :=
  if bool_decide (k = nprocs - 1) then sol_at B G R (nprocs * local_size - 1)
  else sol_at B G R ((k + 1) * local_size).

(** The state of rank [k] between the phases, for arbitrary arrays. *)
Definition lr_local (local_size : Z) (B G R : list Qc) (k : Z) (w : worker)
  : Prop :=
  args_hold local_size B G R k (w_args w) ∧
  Z.of_nat (length (w_u w)) = local_size ∧
  Z.of_nat (length (w_phi w)) = local_size ∧
  Z.of_nat (length (w_psi w)) = local_size ∧
  ∀ i, 0 ≤ i < local_size →
    (sel (w_phi w) i + fwd_coupling local_size B R k * sel (w_psi w) i)%Qc
    = fwd_at B R (k * local_size + i).

Definition lr_anchor (local_size : Z) (B G R : list Qc) (k : Z)
    (wu : worker * Qc) : Prop :=
  lr_local local_size B G R k wu.1 ∧
  (k = 0 → w_u_tilda wu.1 = fwd_at B R 0 ∧ wu.2 = fwd_at B R 0).

Definition lr_done (local_size : Z) (B G R : list Qc) (k : Z) (w : worker)
  : Prop :=
  args_hold local_size B G R k (w_args w) ∧
  owns local_size k (λ g, fwd_at B R (Z.of_nat g)) (w_u w) ∧
  Z.of_nat (length (w_phi w)) = local_size ∧
  Z.of_nat (length (w_psi w)) = local_size ∧
  w_u_tilda w = fwd_coupling local_size B R k.

Definition rl_local (nprocs local_size : Z) (B G R : list Qc) (k : Z)
    (w : worker) : Prop :=
  args_hold local_size B G R k (w_args w) ∧
  owns local_size k (λ g, fwd_at B R (Z.of_nat g)) (w_u w) ∧
  Z.of_nat (length (w_phi w)) = local_size ∧
  Z.of_nat (length (w_psi w)) = local_size ∧
  ∀ i, 0 ≤ i < local_size →
    (sel (w_phi w) i + sol_coupling nprocs local_size B G R k * sel (w_psi w) i)%Qc
    = sol_at B G R (k * local_size + i).

Definition rl_anchor (nprocs local_size : Z) (B G R : list Qc) (k : Z)
    (wx : worker * Qc) : Prop :=
  rl_local nprocs local_size B G R k wx.1 ∧
  (k = nprocs - 1 →
     w_x_tilda wx.1 = sol_at B G R (nprocs * local_size - 1) ∧
     wx.2 = sol_at B G R (nprocs * local_size - 1)).

Definition rl_done (nprocs local_size : Z) (B G R : list Qc) (k : Z)
    (w : worker) : Prop :=
  owns local_size k (λ g, sol_at B G R (Z.of_nat g)) (x_local (w_args w)) ∧
  w_x_tilda w = sol_coupling nprocs local_size B G R k.

(** The buffers of a group have [local_size] cells each. *)
Definition args_shape (local_size : Z) (a : args) : Prop :=
  Z.of_nat (length (beta_local a)) = local_size ∧
  Z.of_nat (length (gam_local a)) = local_size ∧
  Z.of_nat (length (r_local a)) = local_size ∧
  Z.of_nat (length (x_local a)) = local_size.

(** [c*a + b], cell by cell. *)
Definition axpy (c : Qc) (a b : list Qc) : list Qc :=
  zip_with (λ x y, c * x + y)%Qc a b.
(** * Reasoning about buffers and loops *)

Section buffers.
Implicit Types (a : list Qc) (i j : Z) (v : Qc).

Lemma rd_Some a i :
  0 ≤ i < Z.of_nat (length a) → rd a i = Some (sel a i).
Proof.
  intros Hi. unfold sel, rd. rewrite bool_decide_eq_true_2 by lia.
  destruct (lookup_lt_is_Some_2 a (Z.to_nat i)) as [v Hv]; [lia|].
  by rewrite Hv.
Qed.

Lemma wr_Some a i v :
  0 ≤ i < Z.of_nat (length a) → wr a i v = Some (<[Z.to_nat i := v]> a).
Proof. intros Hi. unfold wr. by rewrite bool_decide_eq_true_2. Qed.

Lemma length_upd a i v : length (<[Z.to_nat i := v]> a) = length a.
Proof. apply length_insert. Qed.

Lemma sel_upd_eq a i v :
  0 ≤ i < Z.of_nat (length a) → sel (<[Z.to_nat i := v]> a) i = v.
Proof.
  intros Hi. unfold sel, rd. rewrite bool_decide_eq_true_2 by lia.
  rewrite list_lookup_insert_eq by lia. done.
Qed.

Lemma sel_upd_ne a i j v :
  0 ≤ i → i ≠ j → sel (<[Z.to_nat i := v]> a) j = sel a j.
Proof.
  intros Hi Hne. unfold sel, rd. case_bool_decide; [|done].
  rewrite list_lookup_insert_ne by lia. done.
Qed.

Lemma sel_lookup a (k : nat) v : a !! k = Some v → sel a (Z.of_nat k) = v.
Proof.
  intros Hk. unfold sel, rd. rewrite bool_decide_eq_true_2 by lia.
  rewrite Nat2Z.id, Hk. done.
Qed.

Lemma lookup_sel a (k : nat) :
  (k < length a)%nat → a !! k = Some (sel a (Z.of_nat k)).
Proof.
  intros Hk. destruct (lookup_lt_is_Some_2 a k Hk) as [v Hv].
  by rewrite (sel_lookup _ _ _ Hv).
Qed.

Lemma length_malloc (junk : Z → Qc) (n : Z) :
  0 ≤ n → Z.of_nat (length (malloc junk n)) = n.
Proof. intros Hn. unfold malloc. rewrite length_fmap, length_seq. lia. Qed.

Lemma to_int_fits (z : Z) : - INT_MAX - 1 ≤ z ≤ INT_MAX → to_int z = z.
Proof.
  unfold INT_MAX, to_int. intros Hz.
  rewrite Z.mod_small by lia. lia.
Qed.

End buffers.

Section loops.
Context {S : Type}.
Implicit Types (body : Z → S → option S) (I : Z → S → Prop).

Lemma for_loop_inv I body (n : nat) (i : Z) (s : S) :
  I i s →
  (∀ j t, i ≤ j < i + Z.of_nat n → I j t →
          ∃ t', body j t = Some t' ∧ I (j + 1) t') →
  ∃ s', for_loop n i body s = Some s' ∧ I (i + Z.of_nat n) s'.
Proof.
  revert i s. induction n as [|n IH]; intros i s Hi Hstep.
  - exists s. split; [done|]. by replace (i + Z.of_nat 0) with i by lia.
  - destruct (Hstep i s) as (t & Hbody & Ht); [lia|done|].
    destruct (IH (i + 1) t) as (s' & Hloop & Hs'); [done| |].
    + intros j u Hj. apply Hstep. lia.
    + exists s'. simpl. rewrite Hbody. simpl. split; [done|].
      by replace (i + Z.of_nat (Datatypes.S n)) with (i + 1 + Z.of_nat n) by lia.
Qed.

(** The invariant rule of a [for] loop: the loop terminates normally and
    establishes [I hi]. *)
Lemma for_range_inv I body (lo hi : Z) (s : S) :
  lo ≤ hi →
  I lo s →
  (∀ j t, lo ≤ j < hi → I j t → ∃ t', body j t = Some t' ∧ I (j + 1) t') →
  ∃ s', for_range lo hi body s = Some s' ∧ I hi s'.
Proof.
  intros Hle Hlo Hstep. unfold for_range.
  destruct (for_loop_inv I body (Z.to_nat (hi - lo)) lo s) as (s' & ? & Hs');
    [done| |].
  - intros j t Hj. apply Hstep. lia.
  - exists s'. split; [done|].
    by replace (lo + Z.of_nat (Z.to_nat (hi - lo))) with hi in Hs' by lia.
Qed.

End loops.

(** * The local sweeps *)

(** Unfold one bounds-checked access that is in range. *)
Ltac access :=
  repeat (first
    [ rewrite rd_Some by (rewrite ?length_upd; lia)
    | rewrite wr_Some by (rewrite ?length_upd; lia) ];
    cbn [mbind option_bind]).

Lemma forward_local_spec (rank local_size : Z)
    (beta_local r_local phi0 psi0 : list Qc) :
  1 ≤ local_size →
  Z.of_nat (length beta_local) = local_size →
  Z.of_nat (length r_local) = local_size →
  Z.of_nat (length phi0) = local_size →
  Z.of_nat (length psi0) = local_size →
  ∃ phi_local psi_local,
    forward_local rank local_size beta_local r_local phi0 psi0
      = Some (phi_local, psi_local) ∧
    forward_swept rank local_size beta_local r_local phi_local psi_local.
Proof.
  intros Hn Hb Hr Hphi Hpsi. unfold forward_local.
  set (seed := if bool_decide (rank = 0) then _ else _).
  assert (∃ phi1 psi1, seed = Some (phi1, psi1) ∧
            Z.of_nat (length phi1) = local_size ∧
            Z.of_nat (length psi1) = local_size ∧
            (rank = 0 → sel phi1 0 = 0%Qc ∧ sel psi1 0 = 1%Qc) ∧
            (rank ≠ 0 →
               sel phi1 0 = (sel beta_local 0 * sel r_local 0)%Qc ∧
               sel psi1 0 = (- third * sel beta_local 0)%Qc))
    as (phi1 & psi1 & -> & Hphi1 & Hpsi1 & Hz & Hnz).
  { subst seed. case_bool_decide; access; eexists _, _; (split; [reflexivity|]);
      rewrite !length_upd, !sel_upd_eq by lia; done. }
  cbn [mbind option_bind].
  destruct (for_range_inv
    (λ i '(phi, psi),
       Z.of_nat (length phi) = local_size ∧ Z.of_nat (length psi) = local_size ∧
       sel phi 0 = sel phi1 0 ∧ sel psi 0 = sel psi1 0 ∧
       ∀ j, 1 ≤ j < i →
         sel phi j = (sel beta_local j * (sel r_local j - third * sel phi (j - 1)))%Qc ∧
         sel psi j = (- third * sel beta_local j * sel psi (j - 1))%Qc)
    (λ i '(phi_local, psi_local),
       b ← rd beta_local i; r ← rd r_local i; p ← rd phi_local (i - 1);
       phi_local ← wr phi_local i (b * (r - third * p))%Qc;
       b ← rd beta_local i; q ← rd psi_local (i - 1);
       psi_local ← wr psi_local i (- third * b * q)%Qc;
       Some (phi_local, psi_local))
    1 local_size (phi1, psi1)) as ([phi psi] & Hrun & Hlphi & Hlpsi & H0 & H0' & Hrec).
  - done.
  - repeat split; try done; lia.
  - intros i [phi psi] Hi (Hlphi & Hlpsi & H0 & H0' & Hrec). access.
    eexists (_, _). split; [reflexivity|]. rewrite !length_upd.
    repeat split; try done.
    + rewrite sel_upd_ne by lia. done.
    + rewrite sel_upd_ne by lia. done.
    + destruct (decide (j = i)) as [->|Hne].
      * rewrite sel_upd_eq by lia. rewrite sel_upd_ne by lia. done.
      * rewrite !sel_upd_ne by lia. apply Hrec. lia.
    + destruct (decide (j = i)) as [->|Hne].
      * rewrite sel_upd_eq by lia. rewrite sel_upd_ne by lia. done.
      * rewrite !sel_upd_ne by lia. apply Hrec. lia.
  - exists phi, psi. split; [done|]. unfold forward_swept.
    rewrite H0, H0'. done.
Qed.

Lemma backward_local_spec (rank nprocs local_size : Z)
    (u_local gam_local gam_firsts phi0 psi0 : list Qc) :
  1 ≤ local_size →
  Z.of_nat (length u_local) = local_size →
  Z.of_nat (length gam_local) = local_size →
  Z.of_nat (length phi0) = local_size →
  Z.of_nat (length psi0) = local_size →
  (rank ≠ nprocs - 1 → 0 ≤ rank + 1 < Z.of_nat (length gam_firsts)) →
  ∃ phi_local psi_local,
    backward_local rank nprocs local_size u_local gam_local gam_firsts phi0 psi0
      = Some (phi_local, psi_local) ∧
    backward_swept rank nprocs local_size u_local gam_local gam_firsts
      phi_local psi_local.
Proof.
  intros Hn Hu Hg Hphi Hpsi Hgf. unfold backward_local.
  set (seed := if bool_decide (rank = nprocs - 1) then _ else _).
  assert (∃ phi1 psi1, seed = Some (phi1, psi1) ∧
            Z.of_nat (length phi1) = local_size ∧
            Z.of_nat (length psi1) = local_size ∧
            (rank = nprocs - 1 →
               sel phi1 (local_size - 1) = 0%Qc ∧
               sel psi1 (local_size - 1) = 1%Qc) ∧
            (rank ≠ nprocs - 1 →
               sel phi1 (local_size - 1) = sel u_local (local_size - 1) ∧
               sel psi1 (local_size - 1) = (- sel gam_firsts (rank + 1))%Qc))
    as (phi1 & psi1 & -> & Hphi1 & Hpsi1 & Hz & Hnz).
  { subst seed. case_bool_decide as Hrank.
    - access. eexists _, _; (split; [reflexivity|]).
      rewrite !length_upd, !sel_upd_eq by lia. done.
    - specialize (Hgf Hrank). access. eexists _, _; (split; [reflexivity|]).
      rewrite !length_upd, !sel_upd_eq by lia. done. }
  cbn [mbind option_bind].
  destruct (for_range_inv
    (λ i '(phi, psi),
       Z.of_nat (length phi) = local_size ∧ Z.of_nat (length psi) = local_size ∧
       sel phi (local_size - 1) = sel phi1 (local_size - 1) ∧
       sel psi (local_size - 1) = sel psi1 (local_size - 1) ∧
       ∀ j, local_size - i ≤ j < local_size - 1 →
         sel phi j = (sel u_local j - sel gam_local (j + 1) * sel phi (j + 1))%Qc ∧
         sel psi j = (- sel gam_local (j + 1) * sel psi (j + 1))%Qc)
    (λ i '(phi_local, psi_local),
       u ← rd u_local (local_size - 1 - i);
       g ← rd gam_local (local_size - 1 - i + 1);
       p ← rd phi_local (local_size - 1 - i + 1);
       phi_local ← wr phi_local (local_size - 1 - i) (u - g * p)%Qc;
       g ← rd gam_local (local_size - 1 - i + 1);
       q ← rd psi_local (local_size - 1 - i + 1);
       psi_local ← wr psi_local (local_size - 1 - i) (- g * q)%Qc;
       Some (phi_local, psi_local))
    1 local_size (phi1, psi1)) as ([phi psi] & Hrun & Hlphi & Hlpsi & H0 & H0' & Hrec).
  - done.
  - repeat split; try done; lia.
  - intros i [phi psi] Hi (Hlphi & Hlpsi & H0 & H0' & Hrec). access.
    eexists (_, _). split; [reflexivity|]. rewrite !length_upd.
    repeat split; try done.
    + rewrite sel_upd_ne by lia. done.
    + rewrite sel_upd_ne by lia. done.
    + destruct (decide (j = local_size - 1 - i)) as [->|Hne].
      * rewrite sel_upd_eq by lia. rewrite sel_upd_ne by lia. done.
      * rewrite !sel_upd_ne by lia. apply Hrec. lia.
    + destruct (decide (j = local_size - 1 - i)) as [->|Hne].
      * rewrite sel_upd_eq by lia. rewrite sel_upd_ne by lia. done.
      * rewrite !sel_upd_ne by lia. apply Hrec. lia.
  - exists phi, psi. split; [done|]. unfold backward_swept.
    rewrite H0, H0'. split_and!; try done. intros i Hi. apply Hrec. lia.
Qed.

Lemma forward_combine_spec (local_size : Z) (phi_local psi_local : list Qc)
    (u_tilda : Qc) (u0 : list Qc) :
  0 ≤ local_size →
  Z.of_nat (length phi_local) = local_size →
  Z.of_nat (length psi_local) = local_size →
  Z.of_nat (length u0) = local_size →
  ∃ u_local,
    forward_combine local_size phi_local psi_local u_tilda u0 = Some u_local ∧
    combined local_size phi_local psi_local u_tilda u_local.
Proof.
  intros Hn Hphi Hpsi Hu. unfold forward_combine.
  destruct (for_range_inv
    (λ i u, Z.of_nat (length u) = local_size ∧
            ∀ j, 0 ≤ j < i → sel u j = (sel phi_local j + u_tilda * sel psi_local j)%Qc)
    (λ i u_local, p ← rd phi_local i; q ← rd psi_local i;
                  wr u_local i (p + u_tilda * q)%Qc)
    0 local_size u0) as (u & Hrun & Hlen & Hall).
  - done.
  - split; [done|]. intros; lia.
  - intros i u Hi [Hlen Hall]. access. eexists. split; [reflexivity|].
    rewrite length_upd. split; [done|]. intros j Hj.
    destruct (decide (j = i)) as [->|Hne].
    + by rewrite sel_upd_eq by lia.
    + rewrite sel_upd_ne by lia. apply Hall. lia.
  - by exists u.
Qed.

Lemma backward_combine_spec (local_size : Z) (phi_local psi_local : list Qc)
    (x_tilda : Qc) (x0 : list Qc) :
  0 ≤ local_size →
  Z.of_nat (length phi_local) = local_size →
  Z.of_nat (length psi_local) = local_size →
  Z.of_nat (length x0) = local_size →
  ∃ x,
    backward_combine local_size phi_local psi_local x_tilda x0 = Some x ∧
    combined local_size phi_local psi_local x_tilda x.
Proof.
  intros Hn Hphi Hpsi Hx. unfold backward_combine.
  destruct (for_range_inv
    (λ i x, Z.of_nat (length x) = local_size ∧
            ∀ j, local_size - i ≤ j < local_size →
                 sel x j = (sel phi_local j + x_tilda * sel psi_local j)%Qc)
    (λ i x_local, p ← rd phi_local (local_size - 1 - i);
                  q ← rd psi_local (local_size - 1 - i);
                  wr x_local (local_size - 1 - i) (p + x_tilda * q)%Qc)
    0 local_size x0) as (x & Hrun & Hlen & Hall).
  - done.
  - split; [done|]. intros; lia.
  - intros i x Hi [Hlen Hall]. access. eexists. split; [reflexivity|].
    rewrite length_upd. split; [done|]. intros j Hj.
    destruct (decide (j = local_size - 1 - i)) as [->|Hne].
    + by rewrite sel_upd_eq by lia.
    + rewrite sel_upd_ne by lia. apply Hall. lia.
  - exists x. split; [done|]. split; [done|]. intros i Hi. apply Hall. lia.
Qed.

(** * The reduced systems *)

Section ranges.
Implicit Types (a : list Qc) (f g : Z → Qc) (lo hi : Z).

Lemma prod_range_empty a lo hi : hi ≤ lo → prod_range a lo hi = 1%Qc.
Proof. intros H. unfold prod_range. by replace (Z.to_nat (hi - lo)) with O by lia. Qed.

Lemma prod_range_snoc a lo hi :
  lo ≤ hi → prod_range a lo (hi + 1) = (prod_range a lo hi * sel a hi)%Qc.
Proof.
  intros H. unfold prod_range.
  replace (Z.to_nat (hi + 1 - lo)) with (S (Z.to_nat (hi - lo))) by lia.
  simpl. do 2 f_equal. lia.
Qed.

Lemma prod_from_cons a lo (n : nat) :
  prod_from a lo (S n) = (sel a lo * prod_from a (lo + 1) n)%Qc.
Proof.
  induction n as [|n IH].
  - simpl. replace (lo + Z.of_nat 0) with lo by lia. ring.
  - change (prod_from a lo (S (S n)))
      with (prod_from a lo (S n) * sel a (lo + Z.of_nat (S n)))%Qc.
    rewrite IH. simpl.
    replace (lo + 1 + Z.of_nat n) with (lo + Z.of_nat (S n)) by lia. ring.
Qed.

Lemma prod_range_cons a lo hi :
  lo < hi → prod_range a lo hi = (sel a lo * prod_range a (lo + 1) hi)%Qc.
Proof.
  intros H. unfold prod_range.
  replace (Z.to_nat (hi - lo)) with (S (Z.to_nat (hi - (lo + 1)))) by lia.
  apply prod_from_cons.
Qed.

Lemma sum_range_empty f lo hi : hi ≤ lo → sum_range f lo hi = 0%Qc.
Proof. intros H. unfold sum_range. by replace (Z.to_nat (hi - lo)) with O by lia. Qed.

Lemma sum_range_snoc f lo hi :
  lo ≤ hi → sum_range f lo (hi + 1) = (sum_range f lo hi + f hi)%Qc.
Proof.
  intros H. unfold sum_range.
  replace (Z.to_nat (hi + 1 - lo)) with (S (Z.to_nat (hi - lo))) by lia.
  simpl. do 2 f_equal. lia.
Qed.

Lemma sum_from_cons f lo (n : nat) :
  sum_from f lo (S n) = (f lo + sum_from f (lo + 1) n)%Qc.
Proof.
  induction n as [|n IH].
  - simpl. replace (lo + Z.of_nat 0) with lo by lia. ring.
  - change (sum_from f lo (S (S n)))
      with (sum_from f lo (S n) + f (lo + Z.of_nat (S n))%Z)%Qc.
    rewrite IH. simpl.
    replace (lo + 1 + Z.of_nat n) with (lo + Z.of_nat (S n)) by lia. ring.
Qed.

Lemma sum_range_cons f lo hi :
  lo < hi → sum_range f lo hi = (f lo + sum_range f (lo + 1) hi)%Qc.
Proof.
  intros H. unfold sum_range.
  replace (Z.to_nat (hi - lo)) with (S (Z.to_nat (hi - (lo + 1)))) by lia.
  apply sum_from_cons.
Qed.

Lemma sum_from_scale f g (c : Qc) lo (n : nat) :
  (∀ i, lo ≤ i < lo + Z.of_nat n → f i = (c * g i)%Qc) →
  sum_from f lo n = (c * sum_from g lo n)%Qc.
Proof.
  induction n as [|n IH]; intros Hfg; simpl.
  - ring.
  - rewrite IH by (intros i Hi; apply Hfg; lia).
    rewrite Hfg by lia. ring.
Qed.

Lemma sum_range_scale f g (c : Qc) lo hi :
  (∀ i, lo ≤ i < hi → f i = (c * g i)%Qc) →
  sum_range f lo hi = (c * sum_range g lo hi)%Qc.
Proof.
  intros Hfg. apply sum_from_scale. intros i Hi. apply Hfg. lia.
Qed.

(** The inner loops of the two resolve steps. *)
Lemma product_loop a lo hi :
  0 ≤ lo → lo ≤ hi → hi ≤ Z.of_nat (length a) →
  for_range lo hi (λ j product, p ← rd a j; Some (product * p)%Qc) 1%Qc
    = Some (prod_range a lo hi).
Proof.
  intros Hlo Hle Hhi.
  destruct (for_range_inv (λ j p, p = prod_range a lo j)
    (λ j product, p ← rd a j; Some (product * p)%Qc) lo hi 1%Qc)
    as (p & -> & ->); [done| | |done].
  - by rewrite prod_range_empty.
  - intros j t Hj ->. rewrite rd_Some by lia. eexists. split; [reflexivity|].
    by rewrite prod_range_snoc by lia.
Qed.
End ranges.

(** Apply the invariant rule to the loop of the goal that starts at [lo]. *)
Ltac loop_inv lo Inv H :=
  match goal with
  | |- context [for_range lo ?hi ?body ?s] =>
      pose proof (for_range_inv Inv body lo hi s) as H
  end.

Lemma forward_resolve_spec (rank : Z) (phi_lasts psi_lasts : list Qc)
    (u_first u_tilda0 : Qc) :
  0 < rank →
  rank ≤ Z.of_nat (length phi_lasts) →
  rank ≤ Z.of_nat (length psi_lasts) →
  forward_resolve rank phi_lasts psi_lasts u_first u_tilda0
    = Some (u_tilda_closed rank phi_lasts psi_lasts u_first).
Proof.
  intros Hrank Hphi Hpsi. unfold forward_resolve.
  rewrite bool_decide_eq_true_2 by lia.
  loop_inv 0
    (λ (i : Z) '((u_tilda, product_2) : Qc * Qc),
       u_tilda = sum_range (λ i, sel phi_lasts i * prod_range psi_lasts (i + 1) rank)%Qc 0 i ∧
       product_2 = prod_range psi_lasts 0 i) Hloop.
  destruct Hloop as ([ut p2] & -> & -> & ->).
  - lia.
  - by rewrite sum_range_empty, prod_range_empty.
  - intros i [ut p2] Hi [-> ->]. rewrite product_loop by lia.
    cbn [mbind option_bind]. access. eexists (_, _). split; [reflexivity|].
    by rewrite sum_range_snoc, prod_range_snoc by lia.
  - done.
Qed.

(** The closed form satisfies the reduced recurrence. *)
Lemma u_tilda_closed_0 (phi_lasts psi_lasts : list Qc) (u_first : Qc) :
  u_tilda_closed 0 phi_lasts psi_lasts u_first = u_first.
Proof.
  unfold u_tilda_closed. rewrite sum_range_empty, prod_range_empty by lia. ring.
Qed.

Lemma u_tilda_closed_succ (k : Z) (phi_lasts psi_lasts : list Qc) (u_first : Qc) :
  0 ≤ k →
  u_tilda_closed (k + 1) phi_lasts psi_lasts u_first
  = (sel phi_lasts k + sel psi_lasts k * u_tilda_closed k phi_lasts psi_lasts u_first)%Qc.
Proof.
  intros Hk. unfold u_tilda_closed.
  rewrite sum_range_snoc, (prod_range_snoc _ 0 k) by lia.
  rewrite (prod_range_empty _ (k + 1) (k + 1)) by lia.
  rewrite (sum_range_scale _
             (λ i, sel phi_lasts i * prod_range psi_lasts (i + 1) k)%Qc
             (sel psi_lasts k) 0 k).
  - ring.
  - intros i Hi. cbv beta. rewrite prod_range_snoc by lia. ring.
Qed.

Lemma u_tilda_closed_rec (k : nat) (phi_lasts psi_lasts : list Qc) (u_first : Qc) :
  u_tilda_closed (Z.of_nat k) phi_lasts psi_lasts u_first
  = u_rec phi_lasts psi_lasts u_first k.
Proof.
  induction k as [|k IH].
  - apply u_tilda_closed_0.
  - replace (Z.of_nat (S k)) with (Z.of_nat k + 1) by lia.
    rewrite u_tilda_closed_succ by lia. simpl. by rewrite IH.
Qed.

Lemma backward_resolve_spec (rank nprocs : Z) (phi_firsts psi_firsts : list Qc)
    (x_last x_tilda0 : Qc) :
  0 ≤ rank → rank < nprocs - 1 →
  nprocs ≤ Z.of_nat (length phi_firsts) →
  nprocs ≤ Z.of_nat (length psi_firsts) →
  backward_resolve rank nprocs phi_firsts psi_firsts x_last x_tilda0
    = Some (x_tilda_closed rank nprocs phi_firsts psi_firsts x_last).
Proof.
  intros Hrank Hlt Hphi Hpsi. unfold backward_resolve.
  rewrite bool_decide_eq_true_2 by lia.
  loop_inv (rank + 2)
    (λ (i : Z) (x_tilda : Qc),
       x_tilda = sum_range (λ i, sel phi_firsts i * prod_range psi_firsts (rank + 1) i)%Qc
                   (rank + 2) i) Hloop.
  destruct Hloop as (xt & -> & ->).
  - lia.
  - by rewrite sum_range_empty.
  - intros i xt Hi ->. rewrite product_loop by lia.
    cbn [mbind option_bind]. access. eexists. split; [reflexivity|].
    by rewrite sum_range_snoc by lia.
  - cbn [mbind option_bind]. rewrite product_loop by lia.
    cbn [mbind option_bind]. access. f_equal. unfold x_tilda_closed. ring.
Qed.

Lemma x_tilda_closed_last (nprocs : Z) (phi_firsts psi_firsts : list Qc)
    (x_last : Qc) :
  x_tilda_closed (nprocs - 2) nprocs phi_firsts psi_firsts x_last
  = (sel phi_firsts (nprocs - 1) + sel psi_firsts (nprocs - 1) * x_last)%Qc.
Proof.
  unfold x_tilda_closed. rewrite sum_range_empty by lia.
  replace (nprocs - 2 + 1) with (nprocs - 1) by lia.
  rewrite prod_range_cons, prod_range_empty by lia. ring.
Qed.

Lemma x_tilda_closed_pred (k nprocs : Z) (phi_firsts psi_firsts : list Qc)
    (x_last : Qc) :
  k + 2 < nprocs →
  x_tilda_closed k nprocs phi_firsts psi_firsts x_last
  = (sel phi_firsts (k + 1)
     + sel psi_firsts (k + 1)
       * x_tilda_closed (k + 1) nprocs phi_firsts psi_firsts x_last)%Qc.
Proof.
  intros Hk. unfold x_tilda_closed.
  rewrite (sum_range_scale _
             (λ i, sel phi_firsts i * prod_range psi_firsts (k + 2) i)%Qc
             (sel psi_firsts (k + 1)) (k + 2) nprocs).
  - rewrite (sum_range_cons _ (k + 2)) by lia.
    rewrite (prod_range_empty _ (k + 2) (k + 2)) by lia.
    rewrite (prod_range_cons _ (k + 1) nprocs) by lia.
    replace (k + 1 + 1) with (k + 2) by lia.
    replace (k + 1 + 2) with (k + 2 + 1) by lia. ring.
  - intros i Hi. cbv beta. rewrite (prod_range_cons _ (k + 1)) by lia.
    replace (k + 1 + 1) with (k + 2) by lia. ring.
Qed.

Lemma x_tilda_closed_rec (m : nat) (nprocs : Z) (phi_firsts psi_firsts : list Qc)
    (x_last : Qc) :
  x_tilda_closed (nprocs - 2 - Z.of_nat m) nprocs phi_firsts psi_firsts x_last
  = x_rec nprocs phi_firsts psi_firsts x_last (S m).
Proof.
  induction m as [|m IH].
  - replace (nprocs - 2 - Z.of_nat 0) with (nprocs - 2) by lia.
    rewrite x_tilda_closed_last. cbn [x_rec].
    by replace (nprocs - 1 - Z.of_nat 0) with (nprocs - 1) by lia.
  - rewrite x_tilda_closed_pred by lia.
    replace (nprocs - 2 - Z.of_nat (S m) + 1) with (nprocs - 2 - Z.of_nat m) by lia.
    rewrite IH. cbn [x_rec].
    by replace (nprocs - 1 - Z.of_nat (S m)) with (nprocs - 2 - Z.of_nat m) by lia.
Qed.

(** * The coefficient pipeline *)

Section loops_more.
Context {S : Type}.
Implicit Types (body : Z → S → option S).

Lemma for_loop_skip body (n : nat) (i : Z) (s : S) :
  (∀ r t, i ≤ r < i + Z.of_nat n → body r t = Some t) →
  for_loop n i body s = Some s.
Proof.
  revert i. induction n as [|n IH]; intros i Hskip; [done|].
  simpl. rewrite Hskip by lia. simpl. apply IH. intros r t Hr. apply Hskip. lia.
Qed.

Lemma for_loop_single body (n : nat) (i r0 : Z) (s : S) :
  i ≤ r0 < i + Z.of_nat n →
  (∀ r t, r ≠ r0 → body r t = Some t) →
  for_loop n i body s = body r0 s.
Proof.
  revert i. induction n as [|n IH]; intros i Hr0 Hskip; [lia|].
  simpl. destruct (decide (i = r0)) as [->|Hne].
  - destruct (body r0 s) as [t|]; [|done]. simpl.
    apply for_loop_skip. intros r u Hr. apply Hskip. lia.
  - rewrite Hskip by done. simpl. apply IH; [lia|done].
Qed.

(** A loop whose body acts at one index of its range only. *)
Lemma for_range_single body (lo hi r0 : Z) (s : S) :
  lo ≤ r0 < hi →
  (∀ r t, r ≠ r0 → body r t = Some t) →
  for_range lo hi body s = body r0 s.
Proof. intros Hr0 Hskip. apply for_loop_single; [lia|done]. Qed.
End loops_more.

Lemma Z_ind_from (P : Z → Prop) (lo : Z) :
  P lo → (∀ i, lo ≤ i → P i → P (i + 1)) → ∀ i, lo ≤ i → P i.
Proof.
  intros Hlo Hstep i Hi.
  replace i with (lo + Z.of_nat (Z.to_nat (i - lo))) by lia.
  induction (Z.to_nat (i - lo)) as [|m IH].
  - by replace (lo + Z.of_nat 0) with lo by lia.
  - replace (lo + Z.of_nat (S m)) with (lo + Z.of_nat m + 1) by lia.
    apply Hstep; [lia|done].
Qed.

Lemma precompute_beta_gam_spec (rank nprocs system_size : Z) (net net' : list msg)
    (last_beta : Qc) (beta0 gam0 : list Qc) :
  let local_size := to_int (system_size `quot` nprocs) in
  0 ≤ rank < nprocs →
  1 ≤ local_size →
  Z.of_nat (length beta0) = local_size →
  Z.of_nat (length gam0) = local_size →
  (rank = 0 → net' = net) →
  (rank ≠ 0 → MPI_Recv net (rank - 1) rank = Some (last_beta, net')) →
  ∃ beta_local gam_local,
    precompute_beta_gam rank nprocs system_size net beta0 gam0
      = Some (beta_local, gam_local,
              if bool_decide (rank ≠ nprocs - 1)
              then MPI_Send net' rank (rank + 1) (sel beta_local (local_size - 1))
              else net') ∧
    pipelined rank last_beta local_size beta_local gam_local.
Proof.
  intros local_size Hrank Hn Hb Hg Hnet0 Hnet. unfold precompute_beta_gam.
  fold local_size.
  rewrite for_range_single with (r0 := rank); [|done|].
  2: { intros r [[b g] nt] Hr. by rewrite bool_decide_eq_false_2. }
  rewrite bool_decide_eq_true_2 by done.
  set (seed := if bool_decide (rank = 0) then _ else _).
  assert (∃ b1 g1, seed = Some (b1, g1, net') ∧
            Z.of_nat (length b1) = local_size ∧
            Z.of_nat (length g1) = local_size ∧
            (rank = 0 → sel b1 0 = 1%Qc ∧ sel g1 0 = 0%Qc) ∧
            (rank ≠ 0 →
               sel b1 0 = (1 / (1 - third * last_beta * third))%Qc ∧
               sel g1 0 = (last_beta * third)%Qc))
    as (b1 & g1 & -> & Hb1 & Hg1 & Hz & Hnz).
  { subst seed. case_bool_decide as Hr0.
    - rewrite <- (Hnet0 Hr0). access. eexists _, _; (split; [reflexivity|]).
      rewrite !length_upd, !sel_upd_eq by lia. done.
    - rewrite (Hnet Hr0). cbn [mbind option_bind]. access.
      eexists _, _; (split; [reflexivity|]).
      rewrite !length_upd, !sel_upd_eq by lia. done. }
  cbn [mbind option_bind].
  loop_inv 1
    (λ (i : Z) '((b, g) : list Qc * list Qc),
       Z.of_nat (length b) = local_size ∧ Z.of_nat (length g) = local_size ∧
       sel b 0 = sel b1 0 ∧ sel g 0 = sel g1 0 ∧
       ∀ j, 1 ≤ j < i →
         sel b j = (1 / (1 - third * sel b (j - 1) * third))%Qc ∧
         sel g j = (sel b (j - 1) * third)%Qc) Hloop.
  destruct Hloop as ([b g] & -> & Hlb & Hlg & H0 & H0' & Hrec).
  - done.
  - repeat split; try done; lia.
  - intros i [b g] Hi (Hlb & Hlg & H0 & H0' & Hrec). access.
    eexists (_, _). split; [reflexivity|]. rewrite !length_upd.
    repeat split; try done.
    + rewrite sel_upd_ne by lia. done.
    + rewrite sel_upd_ne by lia. done.
    + destruct (decide (j = i)) as [->|Hne].
      * rewrite sel_upd_eq by lia. rewrite sel_upd_ne by lia. done.
      * rewrite !sel_upd_ne by lia. apply Hrec. lia.
    + destruct (decide (j = i)) as [->|Hne].
      * rewrite sel_upd_eq by lia. rewrite sel_upd_ne by lia. done.
      * rewrite !sel_upd_ne by lia. apply Hrec. lia.
  - cbn [mbind option_bind]. exists b, g. split.
    + case_bool_decide; [|done]. access. done.
    + unfold pipelined. rewrite H0, H0'. done.
Qed.

Lemma beta_seq_succ (g : Z) :
  0 ≤ g →
  beta_seq (Z.to_nat (g + 1))
  = (1 / (1 - third * beta_seq (Z.to_nat g) * third))%Qc.
Proof. intros Hg. by replace (Z.to_nat (g + 1)) with (S (Z.to_nat g)) by lia. Qed.

Lemma gam_seq_succ (g : Z) :
  0 ≤ g → gam_seq (Z.to_nat (g + 1)) = (beta_seq (Z.to_nat g) * third)%Qc.
Proof. intros Hg. by replace (Z.to_nat (g + 1)) with (S (Z.to_nat g)) by lia. Qed.

(** A rank that receives the last coefficient of its left neighbour owns
    its block of the global recurrence. *)
Lemma pipelined_owns (k local_size : Z) (last_beta : Qc) (b g : list Qc) :
  1 ≤ local_size → 0 ≤ k →
  (k ≠ 0 → last_beta = beta_seq (Z.to_nat (k * local_size - 1))) →
  pipelined k last_beta local_size b g →
  owns local_size k beta_seq b ∧ owns local_size k gam_seq g.
Proof.
  intros Hn Hk Hlast (Hlb & Hlg & Hz & Hnz & Hrec).
  assert (∀ i, 0 ≤ i → i < local_size →
            sel b i = beta_seq (Z.to_nat (k * local_size + i)) ∧
            sel g i = gam_seq (Z.to_nat (k * local_size + i))) as Hall.
  { apply (Z_ind_from (λ i, i < local_size → _)).
    - intros _. replace (k * local_size + 0) with (k * local_size) by lia.
      destruct (decide (k = 0)) as [->|Hne].
      + destruct (Hz eq_refl) as [-> ->]. done.
      + destruct (Hnz Hne) as [-> ->]. rewrite (Hlast Hne).
        pose proof (beta_seq_succ (k * local_size - 1)) as Eb.
        pose proof (gam_seq_succ (k * local_size - 1)) as Eg.
        replace (k * local_size - 1 + 1) with (k * local_size) in Eb, Eg by lia.
        rewrite Eb, Eg by nia. done.
    - intros i Hi IH Hlt. destruct IH as [IHb IHg]; [lia|].
      destruct (Hrec (i + 1)) as [-> ->]; [lia|].
      replace (i + 1 - 1) with i by lia. rewrite IHb.
      replace (k * local_size + (i + 1)) with (k * local_size + i + 1) by lia.
      rewrite beta_seq_succ, gam_seq_succ by nia. done. }
  split; (split; [done|]); intros i Hi; apply Hall; lia.
Qed.

Lemma MPI_Recv_single (src dst : Z) (v : Qc) :
  MPI_Recv [(src, dst, v)] src dst = Some (v, []).
Proof. simpl. by rewrite bool_decide_eq_true_2. Qed.

Lemma precompute_ranks_spec (nprocs system_size : Z)
    (bufs : list (list Qc * list Qc)) (k0 : Z) (net : list msg) :
  let local_size := to_int (system_size `quot` nprocs) in
  1 ≤ local_size → 0 ≤ k0 →
  k0 + Z.of_nat (length bufs) = nprocs →
  (∀ (k : nat) b g, bufs !! k = Some (b, g) →
     Z.of_nat (length b) = local_size ∧ Z.of_nat (length g) = local_size) →
  net = (if bool_decide (k0 = 0 ∨ k0 = nprocs) then []
         else [(k0 - 1, k0, beta_seq (Z.to_nat (k0 * local_size - 1)))]) →
  ∃ out,
    precompute_ranks nprocs system_size k0 bufs net = Some (out, []) ∧
    length out = length bufs ∧
    ∀ (k : nat) b g, out !! k = Some (b, g) →
      owns local_size (k0 + Z.of_nat k) beta_seq b ∧
      owns local_size (k0 + Z.of_nat k) gam_seq g.
Proof.
  intros local_size Hn. revert k0 net.
  induction bufs as [|[b0 g0] bufs IH]; intros k0 net Hk0 Hlen Hshape Hnet.
  - exists []. simpl in *. rewrite Hnet, bool_decide_eq_true_2 by lia.
    split_and!; [done..|]. intros k b g Hk. by rewrite lookup_nil in Hk.
  - simpl in Hlen. destruct (Hshape O b0 g0 eq_refl) as [Hb0 Hg0].
    set (last_beta := beta_seq (Z.to_nat (k0 * local_size - 1))).
    destruct (precompute_beta_gam_spec k0 nprocs system_size net [] last_beta b0 g0)
      as (b & g & Hrun & Hpipe); [lia|done..| | |].
    { intros ->. rewrite Hnet. by rewrite bool_decide_eq_true_2 by lia. }
    { intros Hne. rewrite Hnet, bool_decide_eq_false_2 by lia.
      apply MPI_Recv_single. }
    destruct (pipelined_owns k0 local_size last_beta b g) as [Hob Hog];
      [done..|].
    fold local_size in Hrun. simpl. rewrite Hrun. cbn [mbind option_bind].
    destruct (IH (k0 + 1)
                (if bool_decide (k0 ≠ nprocs - 1)
                 then MPI_Send [] k0 (k0 + 1) (sel b (local_size - 1)) else []))
      as (out & Hrest & Hlout & Hout); [lia|lia| | |].
    { intros k b' g' Hk. apply (Hshape (S k)). done. }
    { destruct Hob as [_ Hob]. rewrite Hob by lia.
      destruct (decide (k0 = nprocs - 1)) as [Hlast|Hlast].
      - rewrite bool_decide_eq_false_2 by lia.
        by rewrite bool_decide_eq_true_2 by lia.
      - rewrite bool_decide_eq_true_2 by lia.
        rewrite bool_decide_eq_false_2 by lia.
        unfold MPI_Send. simpl. do 3 f_equal; lia. }
    rewrite Hrest. cbn [mbind option_bind]. exists ((b, g) :: out).
    split_and!; [done|simpl; lia|].
    intros [|k] b' g' Hk; simpl in Hk.
    + injection Hk as <- <-. by replace (k0 + Z.of_nat 0) with k0 by lia.
    + replace (k0 + Z.of_nat (S k)) with (k0 + 1 + Z.of_nat k) by lia.
      by apply Hout.
Qed.

(** * The sequential reference *)

Lemma thomas_forward_length (cp dp : Qc) (rows : list row) :
  length (thomas_forward cp dp rows) = length rows.
Proof.
  revert cp dp. induction rows as [|[[[a b] c] d] rows IH]; intros cp dp; [done|].
  simpl. by rewrite IH.
Qed.

Lemma thomas_backward_length (cd : list (Qc * Qc)) :
  length (thomas_backward cd) = length cd.
Proof.
  induction cd as [|[cp dp] cd IH]; [done|]. simpl.
  destruct (thomas_backward cd); simpl in *; lia.
Qed.

(** Back substitution, index by index. *)
Lemma thomas_backward_lookup (cd : list (Qc * Qc)) (i : nat) (cp dp : Qc) :
  cd !! i = Some (cp, dp) →
  thomas_backward cd !! i
  = Some (match thomas_backward cd !! S i with
          | Some x => (dp - cp * x)%Qc
          | None => dp
          end).
Proof.
  revert i. induction cd as [|[cp0 dp0] cd IH]; intros i Hi; [done|].
  simpl. destruct i as [|i]; simpl in Hi.
  - injection Hi as -> ->. by destruct (thomas_backward cd).
  - specialize (IH i Hi). by destruct (thomas_backward cd).
Qed.

(** Forward elimination of the system of this solver yields the
    coefficients of the pipeline and the sequence [u_seq]. *)
Lemma thomas_forward_system (r : list Qc) (m k : nat) (cp dp : Qc) :
  (k + m = length r)%nat →
  (k = O → cp = 0%Qc ∧ dp = 0%Qc) →
  (∀ j, k = S j → cp = (third * beta_seq j)%Qc ∧ dp = u_seq r j) →
  thomas_forward cp dp (system_rows (drop k r))
  = (λ i, ((third * beta_seq i)%Qc, u_seq r i)) <$> seq k m.
Proof.
  revert k cp dp. induction m as [|m IH]; intros k cp dp Hlen H0 HS.
  - rewrite drop_ge by lia. done.
  - destruct (lookup_lt_is_Some_2 r k) as [d Hd]; [lia|].
    rewrite (drop_S _ _ _ Hd). cbn [system_rows fmap list_fmap thomas_forward seq].
    assert ((third / (1 - third * cp))%Qc = (third * beta_seq k)%Qc
            ∧ ((d - third * dp) / (1 - third * cp))%Qc = u_seq r k) as [Ec Ed].
    { destruct k as [|j].
      - destruct (H0 eq_refl) as [-> ->]. cbn [beta_seq u_seq].
        pose proof (sel_lookup _ O _ Hd) as Hs.
        change (Z.of_nat 0) with 0 in Hs. rewrite Hs.
        split; field; done.
      - destruct (HS j eq_refl) as [-> ->]. cbn [beta_seq u_seq].
        rewrite (sel_lookup _ _ _ Hd).
        replace (1 - third * (third * beta_seq j))%Qc
          with (1 - third * beta_seq j * third)%Qc by ring.
        unfold Qcdiv. split; ring. }
    rewrite Ec, Ed. f_equal. apply IH; [lia|lia|].
    intros j [= <-]. done.
Qed.

Section reference.
Context (r : list Qc).
Local Abbreviation N := (Z.of_nat (length r)).

Lemma thomas_solution_length : Z.of_nat (length (thomas_solution r)) = N.
Proof.
  unfold thomas_solution, thomas, system_rows.
  by rewrite thomas_backward_length, thomas_forward_length, length_fmap.
Qed.

Lemma thomas_forward_lookup (i : nat) :
  (i < length r)%nat →
  thomas_forward 0%Qc 0%Qc (system_rows r) !! i
  = Some ((third * beta_seq i)%Qc, u_seq r i).
Proof.
  intros Hi.
  rewrite <- (drop_0 r) at 1.
  rewrite (thomas_forward_system r (length r) O) by (done || lia).
  rewrite list_lookup_fmap, lookup_seq_lt by done. done.
Qed.

(** The two equations of back substitution, in the solver's coefficients. *)
Lemma thomas_solution_last :
  1 ≤ N → sel (thomas_solution r) (N - 1) = u_seq r (Z.to_nat (N - 1)).
Proof.
  intros HN. pose proof thomas_solution_length as Hlen.
  replace (Z.of_nat (length r) - 1) with (Z.of_nat (length r - 1)) by lia.
  apply sel_lookup. unfold thomas_solution, thomas.
  erewrite thomas_backward_lookup by (apply thomas_forward_lookup; lia).
  rewrite (lookup_ge_None_2 _ (S _)).
  - do 2 f_equal. lia.
  - rewrite thomas_backward_length, thomas_forward_length.
    unfold system_rows. rewrite length_fmap. lia.
Qed.

Lemma thomas_solution_step (i : Z) :
  0 ≤ i < N - 1 →
  sel (thomas_solution r) i
  = (u_seq r (Z.to_nat i)
     - gam_seq (Z.to_nat (i + 1)) * sel (thomas_solution r) (i + 1))%Qc.
Proof.
  intros Hi. pose proof thomas_solution_length as Hlen.
  rewrite gam_seq_succ by lia.
  replace i with (Z.of_nat (Z.to_nat i)) at 1 by lia.
  apply sel_lookup. unfold thomas_solution, thomas in *.
  erewrite thomas_backward_lookup by (apply thomas_forward_lookup; lia).
  rewrite (lookup_sel _ (S _)) by lia.
  do 2 f_equal. replace (Z.of_nat (S (Z.to_nat i))) with (i + 1) by lia. ring.
Qed.
End reference.

(** ** The reference solves the system, and nothing else does *)

Lemma thomas_backward_cons (cp dp : Qc) (cd : list (Qc * Qc)) :
  thomas_backward ((cp, dp) :: cd)
  = (dp - cp * hd 0%Qc (thomas_backward cd))%Qc :: thomas_backward cd.
Proof.
  simpl. destruct (thomas_backward cd) as [|x xs]; [|done].
  simpl. f_equal. ring.
Qed.

Lemma thomas_sound (rows : list row) (cp dp : Qc) :
  Forall (λ m, m ≠ 0%Qc) (pivots cp rows) →
  let xs := thomas_backward (thomas_forward cp dp rows) in
  tridiag_from (dp - cp * hd 0%Qc xs)%Qc rows xs = rhs <$> rows.
Proof.
  revert cp dp. induction rows as [|[[[a b] c] d] rows IH]; intros cp dp Hpiv; [done|].
  cbn [pivots] in Hpiv. cbv zeta in Hpiv.
  apply Forall_cons_1 in Hpiv as [Hm Hpiv].
  cbn [thomas_forward]. cbv zeta. rewrite thomas_backward_cons.
  set (m := (b - a * cp)%Qc) in *.
  specialize (IH (c / m)%Qc ((d - a * dp) / m)%Qc Hpiv). cbv zeta in IH.
  set (xs' := thomas_backward _) in *.
  cbn [tridiag_from hd fmap list_fmap]. rewrite IH. f_equal.
  unfold rhs. cbn [snd]. subst m. field. done.
Qed.

Lemma thomas_complete (rows : list row) (cp dp : Qc) (ys : list Qc) :
  Forall (λ m, m ≠ 0%Qc) (pivots cp rows) →
  length ys = length rows →
  tridiag_from (dp - cp * hd 0%Qc ys)%Qc rows ys = rhs <$> rows →
  ys = thomas_backward (thomas_forward cp dp rows).
Proof.
  revert cp dp ys.
  induction rows as [|[[[a b] c] d] rows IH]; intros cp dp ys Hpiv Hlen Hsys.
  { by destruct ys. }
  destruct ys as [|y0 ys]; [done|].
  cbn [pivots] in Hpiv. cbv zeta in Hpiv.
  apply Forall_cons_1 in Hpiv as [Hm Hpiv].
  cbn [tridiag_from hd fmap list_fmap] in Hsys.
  injection Hsys as Hrow Hrest. unfold rhs in Hrow. cbn [snd] in Hrow.
  cbn [thomas_forward]. cbv zeta. rewrite thomas_backward_cons.
  set (m := (b - a * cp)%Qc) in *.
  assert (y0 = ((d - a * dp) / m - c / m * hd 0%Qc ys)%Qc) as Hy0.
  { rewrite <- Hrow. subst m. field. done. }
  rewrite <- (IH (c / m)%Qc ((d - a * dp) / m)%Qc ys); [by f_equal|done| |].
  - simpl in Hlen. lia.
  - by rewrite <- Hy0.
Qed.

(** * Bounds on the coefficients *)

Section rationals_as_reals.
Implicit Types (x y : Qc).

Lemma Qc2R_Q2Qc (q : Q) : Qc2R (Q2Qc q) = Q2R q.
Proof. unfold Qc2R. apply Qeq_eqR. simpl. apply Qred_correct. Qed.

Lemma Qc2R_plus x y : Qc2R (x + y) = (Qc2R x + Qc2R y)%R.
Proof. unfold Qc2R. rewrite <- Q2R_plus. apply Qeq_eqR. simpl. apply Qred_correct. Qed.

Lemma Qc2R_mult x y : Qc2R (x * y) = (Qc2R x * Qc2R y)%R.
Proof. unfold Qc2R. rewrite <- Q2R_mult. apply Qeq_eqR. simpl. apply Qred_correct. Qed.

Lemma Qc2R_opp x : Qc2R (- x) = (- Qc2R x)%R.
Proof. unfold Qc2R. rewrite <- Q2R_opp. apply Qeq_eqR. simpl. apply Qred_correct. Qed.

Lemma Qc2R_minus x y : Qc2R (x - y) = (Qc2R x - Qc2R y)%R.
Proof. unfold Qcminus. by rewrite Qc2R_plus, Qc2R_opp. Qed.

Lemma Qc2R_0 : Qc2R 0 = 0%R.
Proof. rewrite Qc2R_Q2Qc. unfold Q2R. simpl. lra. Qed.

Lemma Qc2R_1 : Qc2R 1 = 1%R.
Proof. rewrite Qc2R_Q2Qc. unfold Q2R. simpl. lra. Qed.

Lemma Qc2R_inv x : Qc2R x ≠ 0%R → Qc2R (/ x) = (/ Qc2R x)%R.
Proof.
  intros Hx. unfold Qc2R in *. rewrite <- Q2R_inv.
  - apply Qeq_eqR. simpl. apply Qred_correct.
  - intros E. apply Hx. rewrite (Qeq_eqR _ _ E). unfold Q2R. simpl. lra.
Qed.

Lemma Qc2R_lt x y : (x < y)%Qc ↔ (Qc2R x < Qc2R y)%R.
Proof. split; [apply Qlt_Rlt | apply Rlt_Qlt]. Qed.

Lemma Qc2R_le x y : (x ≤ y)%Qc ↔ (Qc2R x <= Qc2R y)%R.
Proof. split; [apply Qle_Rle | apply Rle_Qle]. Qed.

Lemma Qc2R_third : Qc2R third = (1 / 3)%R.
Proof.
  unfold third, Qcdiv. rewrite Qc2R_mult, Qc2R_1, Qc2R_inv, Qc2R_Q2Qc.
  - unfold Q2R. simpl. lra.
  - rewrite Qc2R_Q2Qc. unfold Q2R. simpl. lra.
Qed.
End rationals_as_reals.

Lemma sqrt5_bounds : (2 < sqrt 5 < 7 / 3)%R.
Proof.
  split.
  - replace 2%R with (sqrt 4); [apply sqrt_lt_1; lra|].
    replace 4%R with (2 * 2)%R by lra. apply sqrt_square. lra.
  - replace (7 / 3)%R with (sqrt (49 / 9)); [apply sqrt_lt_1; lra|].
    replace (49 / 9)%R with ((7 / 3) * (7 / 3))%R by lra. apply sqrt_square. lra.
Qed.

Lemma beta_limit_root : (beta_limit * beta_limit - 9 * beta_limit + 9 = 0)%R.
Proof. unfold beta_limit. pose proof (sqrt_sqrt 5 ltac:(lra)). nra. Qed.

Lemma beta_limit_bounds : (1 < beta_limit < 3 / 2)%R.
Proof. pose proof sqrt5_bounds. unfold beta_limit. lra. Qed.

(** One step of the recurrence stays below the fixed point and moves up. *)
Lemma beta_step_R (b : R) :
  (1 <= b < beta_limit)%R →
  (0 < 1 - 1 / 3 * b * (1 / 3))%R ∧
  (b < 1 / (1 - 1 / 3 * b * (1 / 3)))%R ∧
  (1 / (1 - 1 / 3 * b * (1 / 3)) < beta_limit)%R.
Proof.
  intros [H1 H2]. pose proof beta_limit_bounds as [Hl1 Hl2].
  pose proof beta_limit_root as Hroot.
  assert (0 < 1 - 1 / 3 * b * (1 / 3))%R as Hd by lra.
  split; [done|].
  replace (1 / (1 - 1 / 3 * b * (1 / 3)))%R with (9 / (9 - b))%R by (field; lra).
  split.
  - apply (Rmult_lt_reg_r (9 - b)); [lra|].
    replace (9 / (9 - b) * (9 - b))%R with 9%R by (field; lra). nra.
  - apply (Rmult_lt_reg_r (9 - b)); [lra|].
    replace (9 / (9 - b) * (9 - b))%R with 9%R by (field; lra). nra.
Qed.

Lemma Qc2R_beta_succ (i : nat) :
  (0 < 1 - 1 / 3 * Qc2R (beta_seq i) * (1 / 3))%R →
  Qc2R (beta_seq (S i)) = (1 / (1 - 1 / 3 * Qc2R (beta_seq i) * (1 / 3)))%R.
Proof.
  intros Hd. cbn [beta_seq]. unfold Qcdiv.
  rewrite Qc2R_mult, Qc2R_1, Qc2R_inv;
    rewrite Qc2R_minus, !Qc2R_mult, Qc2R_1, Qc2R_third; lra.
Qed.

Lemma beta_seq_R (i : nat) : (1 <= Qc2R (beta_seq i) < beta_limit)%R.
Proof.
  induction i as [|i IH].
  - simpl. rewrite Qc2R_1. pose proof beta_limit_bounds. lra.
  - destruct (beta_step_R _ IH) as (Hd & Hlt & Hlim).
    rewrite Qc2R_beta_succ by done. lra.
Qed.

(** The bounds on every coefficient of the global recurrence. *)
Lemma beta_seq_bounds (i : nat) :
  (1 ≤ beta_seq i)%Qc ∧ (beta_seq i < 2)%Qc ∧
  (Qc2R (beta_seq i) < beta_limit)%R ∧
  (0 < 1 - third * beta_seq i * third)%Qc ∧
  (beta_seq i < beta_seq (S i))%Qc.
Proof.
  pose proof (beta_seq_R i) as HR. pose proof beta_limit_bounds as Hl.
  destruct (beta_step_R _ HR) as (Hd & Hlt & Hlim).
  split_and!.
  - apply Qc2R_le. rewrite Qc2R_1. lra.
  - apply Qc2R_lt. rewrite Qc2R_plus, Qc2R_1. lra.
  - lra.
  - apply Qc2R_lt.
    rewrite Qc2R_0, Qc2R_minus, !Qc2R_mult, Qc2R_1, Qc2R_third. lra.
  - apply Qc2R_lt. rewrite Qc2R_beta_succ by done. lra.
Qed.


(** ** The system of the solver is regular *)

Lemma system_pivots (l : list Qc) (cp : Qc) :
  cp = 0%Qc ∨ (∃ i, cp = (third * beta_seq i)%Qc) →
  Forall (λ m, m ≠ 0%Qc) (pivots cp (system_rows l)).
Proof.
  revert cp. induction l as [|d l IH]; intros cp Hcp; [constructor|].
  cbn [system_rows fmap list_fmap pivots]. cbv zeta.
  destruct Hcp as [->|[i ->]].
  - replace (1 - third * 0)%Qc with 1%Qc by ring. constructor; [done|].
    apply IH. right. exists O. simpl. field. done.
  - pose proof (beta_seq_bounds i) as (_ & _ & _ & Hd & _).
    replace (1 - third * (third * beta_seq i))%Qc
      with (1 - third * beta_seq i * third)%Qc by ring.
    constructor.
    + intros E. apply Qclt_not_eq in Hd. by rewrite E in Hd.
    + apply IH. right. exists (S i). cbn [beta_seq]. unfold Qcdiv. ring.
Qed.

Lemma rhs_system_rows (r : list Qc) : rhs <$> system_rows r = r.
Proof.
  unfold system_rows. rewrite <- list_fmap_compose.
  induction r as [|d r IH]; [done|]. cbn [fmap list_fmap]. by rewrite IH.
Qed.

(** The reference solution solves the system. *)
Lemma thomas_solution_solves (r : list Qc) :
  tridiag_apply (system_rows r) (thomas_solution r) = r.
Proof.
  pose proof (thomas_sound (system_rows r) 0%Qc 0%Qc) as Hs.
  cbv zeta in Hs. rewrite rhs_system_rows in Hs.
  replace (0 - 0 * hd 0 (thomas_backward (thomas_forward 0 0 (system_rows r))))%Qc
    with 0%Qc in Hs by ring.
  apply Hs, system_pivots. by left.
Qed.

(** Every solution of the system is the reference solution. *)
Lemma thomas_solution_unique (r y : list Qc) :
  length y = length r →
  tridiag_apply (system_rows r) y = r →
  y = thomas_solution r.
Proof.
  intros Hlen Hy. apply thomas_complete.
  - apply system_pivots. by left.
  - unfold system_rows. by rewrite length_fmap.
  - rewrite rhs_system_rows. replace (0 - 0 * hd 0 y)%Qc with 0%Qc by ring. done.
Qed.

(** * The worker group *)

Section group.
Context {A B : Type}.

Lemma each_rank_from_spec (f : Z → A → option B) (Post : Z → B → Prop)
    (ws : list A) (k0 : Z) :
  (∀ (k : nat) w, ws !! k = Some w →
     ∃ w', f (k0 + Z.of_nat k) w = Some w' ∧ Post (k0 + Z.of_nat k) w') →
  ∃ ws', each_rank_from k0 f ws = Some ws' ∧ length ws' = length ws ∧
         ∀ (k : nat) w', ws' !! k = Some w' → Post (k0 + Z.of_nat k) w'.
Proof.
  revert k0. induction ws as [|w ws IH]; intros k0 Hstep.
  - exists []. split_and!; [done..|]. intros k w'. by rewrite lookup_nil.
  - destruct (Hstep O w eq_refl) as (w' & Hw' & Hpost).
    replace (k0 + Z.of_nat 0) with k0 in * by lia.
    destruct (IH (k0 + 1)) as (ws' & Hrest & Hlen & Hall).
    { intros k v Hk. replace (k0 + 1 + Z.of_nat k) with (k0 + Z.of_nat (S k)) by lia.
      by apply Hstep. }
    exists (w' :: ws'). simpl. rewrite Hw'. simpl. rewrite Hrest. simpl.
    split_and!; [done|lia|]. intros [|k] v Hk; simpl in Hk.
    + injection Hk as <-. by replace (k0 + Z.of_nat 0) with k0 by lia.
    + replace (k0 + Z.of_nat (S k)) with (k0 + 1 + Z.of_nat k) by lia.
      by apply Hall.
Qed.

(** The rule of a phase: when the code of the phase succeeds on every rank
    and establishes [Post] there, the phase succeeds on the group. *)
Lemma each_rank_spec (f : Z → A → option B) (Post : Z → B → Prop) (ws : list A) :
  (∀ (k : nat) w, ws !! k = Some w →
     ∃ w', f (Z.of_nat k) w = Some w' ∧ Post (Z.of_nat k) w') →
  ∃ ws', each_rank f ws = Some ws' ∧ length ws' = length ws ∧ ranked Post ws'.
Proof.
  intros Hstep. destruct (each_rank_from_spec f Post ws 0) as (ws' & ? & ? & Hall).
  - intros k w Hk. rewrite Z.add_0_l. by apply Hstep.
  - exists ws'. split_and!; [done..|]. intros k w' Hk.
    specialize (Hall k w' Hk). by rewrite Z.add_0_l in Hall.
Qed.
End group.

Lemma MPI_Allgather_spec {A : Type} (send : A → option Qc) (val : A → Qc)
    (ws : list A) :
  (∀ (k : nat) w, ws !! k = Some w → send w = Some (val w)) →
  MPI_Allgather send ws = Some (val <$> ws).
Proof.
  unfold MPI_Allgather. induction ws as [|w ws IH]; intros Hsend; [done|].
  cbn [mapM]. rewrite (Hsend O w eq_refl). cbn [mbind option_bind].
  rewrite IH by (intros k v Hk; apply (Hsend (S k) v Hk)). done.
Qed.

Lemma sel_fmap {A : Type} (val : A → Qc) (ws : list A) (k : nat) (w : A) :
  ws !! k = Some w → sel (val <$> ws) (Z.of_nat k) = val w.
Proof. intros Hk. apply sel_lookup. by rewrite list_lookup_fmap, Hk. Qed.

Lemma initZeros_spec (a : list Qc) (n : Z) :
  0 ≤ n → Z.of_nat (length a) = n →
  ∃ a', initZeros a n = Some a' ∧ Z.of_nat (length a') = n.
Proof.
  intros Hn Hlen. unfold initZeros.
  destruct (for_range_inv (λ _ b, Z.of_nat (length b) = n)
              (λ i a, wr a i 0%Qc) 0 n a) as (a' & ? & ?); [done..| |by exists a'].
  intros i b Hi Hb. access. eexists. split; [reflexivity|]. by rewrite length_upd.
Qed.

(** ** The sweeps against the global sequences *)

Lemma u_at_succ (r : list Qc) (g : Z) :
  0 ≤ g →
  u_at r (g + 1)
  = (beta_seq (Z.to_nat (g + 1)) * (sel r (g + 1) - third * u_at r g))%Qc.
Proof.
  intros Hg. unfold u_at.
  replace (Z.to_nat (g + 1)) with (S (Z.to_nat g)) by lia. cbn [u_seq].
  by replace (Z.of_nat (S (Z.to_nat g))) with (g + 1) by lia.
Qed.

Lemma x_at_last (r : list Qc) :
  1 ≤ Z.of_nat (length r) →
  x_at r (Z.of_nat (length r) - 1) = u_at r (Z.of_nat (length r) - 1).
Proof. apply thomas_solution_last. Qed.

Lemma x_at_step (r : list Qc) (g : Z) :
  0 ≤ g < Z.of_nat (length r) - 1 →
  x_at r g = (u_at r g - gam_seq (Z.to_nat (g + 1)) * x_at r (g + 1))%Qc.
Proof. apply thomas_solution_step. Qed.

Section sweeps.
Context (nprocs local_size : Z) (r : list Qc).
Context (Hn : 1 ≤ local_size) (HP : 1 ≤ nprocs).
Context (Hr : Z.of_nat (length r) = nprocs * local_size).

Lemma owns_r (k i : Z) (a : list Qc) :
  0 ≤ k → 0 ≤ i < local_size →
  owns local_size k (λ g, sel r (Z.of_nat g)) a →
  sel a i = sel r (k * local_size + i).
Proof. intros Hk Hi [_ Ha]. rewrite Ha by done. f_equal. nia. Qed.

(** Every cell of the left-to-right sweep is affine in the coupling scalar,
    and evaluates to the forward-eliminated right-hand side there. *)
Lemma forward_affine (k : Z) (a : args) (phi psi : list Qc) :
  0 ≤ k →
  args_ok local_size r k a →
  forward_swept k local_size (beta_local a) (r_local a) phi psi →
  ∀ i, 0 ≤ i < local_size →
    (sel phi i + u_coupling local_size r k * sel psi i)%Qc
    = u_at r (k * local_size + i).
Proof.
  intros Hk (Hbeta & _ & Hrl & _) (_ & _ & Hz & Hnz & Hrec).
  assert (∀ i, 0 ≤ i → i < local_size →
            (sel phi i + u_coupling local_size r k * sel psi i)%Qc
            = u_at r (k * local_size + i)) as Hall; [|intros; apply Hall; lia].
  apply (Z_ind_from (λ i, i < local_size → _)).
  - intros _. unfold u_coupling. case_bool_decide as Hk0.
    + subst k. destruct (Hz eq_refl) as [-> ->].
      replace (0 * local_size + 0) with 0 by lia. ring.
    + destruct (Hnz Hk0) as [-> ->].
      replace (k * local_size + 0) with (k * local_size - 1 + 1) by lia.
      rewrite u_at_succ by nia.
      rewrite (owns_r k 0 (r_local a)) by (done || lia). destruct Hbeta as [_ ->]; [|lia].
      replace (k * local_size - 1 + 1) with (k * local_size + 0) by lia. ring.
  - intros i Hi IH Hlt. specialize (IH ltac:(lia)).
    destruct (Hrec (i + 1)) as [-> ->]; [lia|].
    replace (i + 1 - 1) with i by lia.
    replace (k * local_size + (i + 1)) with (k * local_size + i + 1) by lia.
    rewrite u_at_succ by nia. rewrite <- IH.
    rewrite (owns_r k (i + 1) (r_local a)) by (done || lia). destruct Hbeta as [_ ->]; [|lia].
    replace (k * local_size + (i + 1)) with (k * local_size + i + 1) by lia. ring.
Qed.

(** Every cell of the right-to-left sweep is affine in the coupling scalar,
    and evaluates to the reference solution there. *)
Lemma backward_affine (k : Z) (u gam gam_firsts phi psi : list Qc) :
  0 ≤ k < nprocs →
  owns local_size k (λ g, u_at r (Z.of_nat g)) u →
  owns local_size k gam_seq gam →
  (k ≠ nprocs - 1 →
     sel gam_firsts (k + 1) = gam_seq (Z.to_nat ((k + 1) * local_size))) →
  backward_swept k nprocs local_size u gam gam_firsts phi psi →
  ∀ i, 0 ≤ i < local_size →
    (sel phi i + x_coupling nprocs local_size r k * sel psi i)%Qc
    = x_at r (k * local_size + i).
Proof.
  intros Hk [_ Hu] [_ Hgam] Hgf (_ & _ & Hz & Hnz & Hrec).
  assert (∀ j, 0 ≤ j → j < local_size →
            (sel phi (local_size - 1 - j)
             + x_coupling nprocs local_size r k * sel psi (local_size - 1 - j))%Qc
            = x_at r (k * local_size + (local_size - 1 - j))) as Hall.
  { apply (Z_ind_from (λ j, j < local_size → _)).
    - intros _. replace (local_size - 1 - 0) with (local_size - 1) by lia.
      unfold x_coupling. case_bool_decide as Hlast.
      + subst k. destruct (Hz eq_refl) as [-> ->].
        replace ((nprocs - 1) * local_size + (local_size - 1))
          with (nprocs * local_size - 1) by lia. ring.
      + destruct (Hnz Hlast) as [-> ->]. rewrite (Hgf Hlast), Hu by lia.
        rewrite (x_at_step r (k * local_size + (local_size - 1))) by nia.
        replace (Z.of_nat (Z.to_nat (k * local_size + (local_size - 1))))
          with (k * local_size + (local_size - 1)) by nia.
        replace (k * local_size + (local_size - 1) + 1)
          with ((k + 1) * local_size) by lia. ring.
    - intros j Hj IH Hlt. specialize (IH ltac:(lia)).
      destruct (Hrec (local_size - 1 - (j + 1))) as [-> ->]; [lia|].
      replace (local_size - 1 - (j + 1) + 1) with (local_size - 1 - j) by lia.
      rewrite (x_at_step r (k * local_size + (local_size - 1 - (j + 1)))) by nia.
      replace (k * local_size + (local_size - 1 - (j + 1)) + 1)
        with (k * local_size + (local_size - 1 - j)) by lia.
      rewrite <- IH, Hu, Hgam by lia.
      replace (Z.of_nat (Z.to_nat (k * local_size + (local_size - 1 - (j + 1)))))
        with (k * local_size + (local_size - 1 - (j + 1))) by nia.
      ring. }
  intros i Hi. specialize (Hall (local_size - 1 - i) ltac:(lia) ltac:(lia)).
  by replace (local_size - 1 - (local_size - 1 - i)) with i in Hall by lia.
Qed.
End sweeps.

(** ** The phases of the solver on one rank *)

(** Project the fields of a rebuilt worker. *)
Ltac wsimpl :=
  cbn [fst snd w_args w_u w_phi w_psi w_u_tilda w_x_tilda
       beta_local gam_local r_local x_local].

Section phases.
Context (nprocs local_size : Z) (r : list Qc).
Context (Hn : 1 ≤ local_size) (HP : 1 ≤ nprocs).
Context (Hr : Z.of_nat (length r) = nprocs * local_size).

Lemma solver_phase1_spec (uninit : fresh) (k : Z) (a : args) :
  0 ≤ k →
  args_ok local_size r k a →
  ∃ w, solver_phase1 uninit local_size k a = Some w ∧
       after_forward_local local_size r k w.
Proof.
  intros Hk Ha. pose proof Ha as ([Hlb _] & _ & [Hlr _] & _).
  unfold solver_phase1.
  destruct (initZeros_spec (malloc (uninit k u_local_block) local_size) local_size)
    as (u & -> & Hu); [lia|by apply length_malloc; lia|].
  cbn [mbind option_bind].
  destruct (forward_local_spec k local_size (beta_local a) (r_local a)
              (malloc (uninit k phi_local_block) local_size)
              (malloc (uninit k psi_local_block) local_size))
    as (phi & psi & -> & Hswept); [done..|by apply length_malloc; lia
                                   |by apply length_malloc; lia|].
  cbn [mbind option_bind]. eexists. split; [reflexivity|].
  pose proof Hswept as (Hlphi & Hlpsi & _).
  unfold after_forward_local. wsimpl. split_and!; [done..|].
  by eapply forward_affine.
Qed.

Lemma solver_phase2_spec (k : Z) (w : worker) :
  0 ≤ k →
  after_forward_local local_size r k w →
  ∃ wu, solver_phase2 k w = Some wu ∧ after_forward_anchor local_size r k wu.
Proof.
  intros Hk (Ha & Hu & Hphi & Hpsi & Haff).
  pose proof Ha as ([Hlb Hbeta] & _ & [Hlr Hrl] & _).
  unfold solver_phase2, forward_anchor. case_bool_decide as Hk0.
  - subst k. access. eexists (_, _). split; [reflexivity|].
    split.
    + unfold after_forward_local. wsimpl. rewrite length_upd.
      by split_and!.
    + intros _. wsimpl. rewrite sel_upd_eq by lia.
      rewrite Hbeta, Hrl by lia. done.
  - cbn [mbind option_bind]. eexists (_, _). split; [reflexivity|].
    split; [by split_and!|done].
Qed.

(** The reduced recurrence carries the coupling scalars from rank to rank. *)
Lemma u_rec_coupling (phi_lasts psi_lasts : list Qc) (k : nat) :
  (∀ j : nat, Z.of_nat j < nprocs →
     (sel phi_lasts (Z.of_nat j)
      + u_coupling local_size r (Z.of_nat j) * sel psi_lasts (Z.of_nat j))%Qc
     = u_at r (Z.of_nat j * local_size + (local_size - 1))) →
  Z.of_nat k < nprocs →
  u_rec phi_lasts psi_lasts (u_at r 0) k = u_coupling local_size r (Z.of_nat k).
Proof.
  intros Hlasts. induction k as [|k IH]; intros Hk.
  - done.
  - cbn [u_rec]. rewrite IH by lia.
    rewrite (Qcmult_comm (sel psi_lasts _)), Hlasts by lia.
    unfold u_coupling. rewrite bool_decide_eq_false_2 by lia. f_equal. lia.
Qed.

Lemma solver_phase3_spec (phi_lasts psi_lasts : list Qc) (u_first : Qc)
    (k : Z) (w : worker) :
  0 ≤ k < nprocs →
  Z.of_nat (length phi_lasts) = nprocs →
  Z.of_nat (length psi_lasts) = nprocs →
  (∀ j : nat, Z.of_nat j < nprocs →
     (sel phi_lasts (Z.of_nat j)
      + u_coupling local_size r (Z.of_nat j) * sel psi_lasts (Z.of_nat j))%Qc
     = u_at r (Z.of_nat j * local_size + (local_size - 1))) →
  u_first = u_at r 0 →
  after_forward_anchor local_size r k (w, u_first) →
  ∃ w', solver_phase3 local_size phi_lasts psi_lasts u_first k w = Some w' ∧
        after_forward_combine local_size r k w'.
Proof.
  intros Hk Hlphi Hlpsi Hlasts -> [(Ha & Hu & Hphi & Hpsi & Haff) Hanchor].
  cbn [fst snd] in *. unfold solver_phase3.
  assert (forward_resolve k phi_lasts psi_lasts (u_at r 0) (w_u_tilda w)
          = Some (u_coupling local_size r k)) as ->.
  { destruct (decide (k = 0)) as [->|Hk0].
    - unfold forward_resolve. rewrite bool_decide_eq_false_2 by (intros Hne; by apply Hne).
      destruct (Hanchor eq_refl) as [-> _]. done.
    - rewrite forward_resolve_spec by lia. f_equal.
      replace k with (Z.of_nat (Z.to_nat k)) by lia.
      rewrite u_tilda_closed_rec. apply u_rec_coupling; [done|lia]. }
  cbn [mbind option_bind].
  destruct (forward_combine_spec local_size (w_phi w) (w_psi w)
              (u_coupling local_size r k) (w_u w))
    as (u & -> & Hlu & Hcomb); [lia|done..|].
  cbn [mbind option_bind]. eexists. split; [reflexivity|].
  unfold after_forward_combine. wsimpl. split_and!; try done.
  split; [done|]. intros i Hi.
  rewrite Hcomb, Haff by done. f_equal. nia.
Qed.
Lemma solver_phase4_spec (gam_firsts : list Qc) (k : Z) (w : worker) :
  0 ≤ k < nprocs →
  Z.of_nat (length gam_firsts) = nprocs →
  (∀ j : nat, Z.of_nat j < nprocs →
     sel gam_firsts (Z.of_nat j) = gam_seq (Z.to_nat (Z.of_nat j * local_size))) →
  after_forward_combine local_size r k w →
  ∃ w', solver_phase4 nprocs local_size gam_firsts k w = Some w' ∧
        after_backward_local nprocs local_size r k w'.
Proof.
  intros Hk Hlgf Hgf (Ha & Hu & Hphi & Hpsi).
  pose proof Ha as (_ & Hgam & _). unfold solver_phase4.
  destruct (backward_local_spec k nprocs local_size (w_u w)
              (gam_local (w_args w)) gam_firsts (w_phi w) (w_psi w))
    as (phi & psi & -> & Hswept);
    [done|by destruct Hu|by destruct Hgam|done|done|lia|].
  cbn [mbind option_bind]. eexists. split; [reflexivity|].
  pose proof Hswept as (Hlphi & Hlpsi & _).
  unfold after_backward_local. wsimpl. split_and!; [done..|].
  eapply backward_affine; try done.
  intros Hlast. replace (k + 1) with (Z.of_nat (Z.to_nat (k + 1))) by lia.
  apply Hgf. lia.
Qed.

Lemma solver_phase5_spec (k : Z) (w : worker) :
  0 ≤ k < nprocs →
  after_backward_local nprocs local_size r k w →
  ∃ wx, solver_phase5 nprocs local_size k w = Some wx ∧
        after_backward_anchor nprocs local_size r k wx.
Proof.
  intros Hk (Ha & Hu & Hphi & Hpsi & Haff).
  pose proof Ha as (Hbeta & Hgam & Hrl & Hx). pose proof Hu as [Hlu Hsel].
  unfold solver_phase5, backward_anchor. case_bool_decide as Hlast.
  - access. eexists (_, _). split; [reflexivity|]. split.
    + unfold after_backward_local, args_ok. wsimpl. rewrite length_upd.
      by split_and!.
    + intros _. wsimpl. rewrite sel_upd_eq by lia. rewrite Hsel by lia.
      replace (Z.of_nat (Z.to_nat (k * local_size + (local_size - 1))))
        with (Z.of_nat (length r) - 1) by nia.
      rewrite <- x_at_last by nia. by rewrite Hr.
  - cbn [mbind option_bind]. eexists (_, _). split; [reflexivity|].
    split; [|done]. unfold after_backward_local, args_ok. wsimpl.
    by split_and!.
Qed.

(** The mirrored recurrence carries the coupling scalars from rank to rank,
    right to left. *)
Lemma x_rec_coupling (phi_firsts psi_firsts : list Qc) (m : nat) :
  (∀ j : nat, Z.of_nat j < nprocs →
     (sel phi_firsts (Z.of_nat j)
      + x_coupling nprocs local_size r (Z.of_nat j) * sel psi_firsts (Z.of_nat j))%Qc
     = x_at r (Z.of_nat j * local_size)) →
  Z.of_nat m < nprocs →
  x_rec nprocs phi_firsts psi_firsts (x_at r (nprocs * local_size - 1)) m
  = x_coupling nprocs local_size r (nprocs - 1 - Z.of_nat m).
Proof.
  intros Hfirsts. induction m as [|m IH]; intros Hm.
  - cbn [x_rec]. unfold x_coupling. by rewrite bool_decide_eq_true_2 by lia.
  - cbn [x_rec]. rewrite IH by lia.
    rewrite (Qcmult_comm (sel psi_firsts _)).
    replace (nprocs - 1 - Z.of_nat m)
      with (Z.of_nat (Z.to_nat (nprocs - 1 - Z.of_nat m))) by lia.
    rewrite Hfirsts by lia.
    unfold x_coupling. rewrite bool_decide_eq_false_2 by lia. f_equal. lia.
Qed.

Lemma solver_phase6_spec (phi_firsts psi_firsts : list Qc) (x_last : Qc)
    (k : Z) (w : worker) :
  0 ≤ k < nprocs →
  Z.of_nat (length phi_firsts) = nprocs →
  Z.of_nat (length psi_firsts) = nprocs →
  (∀ j : nat, Z.of_nat j < nprocs →
     (sel phi_firsts (Z.of_nat j)
      + x_coupling nprocs local_size r (Z.of_nat j) * sel psi_firsts (Z.of_nat j))%Qc
     = x_at r (Z.of_nat j * local_size)) →
  x_last = x_at r (nprocs * local_size - 1) →
  after_backward_anchor nprocs local_size r k (w, x_last) →
  ∃ w', solver_phase6 nprocs local_size phi_firsts psi_firsts x_last k w
          = Some w' ∧
        after_backward_combine local_size r k w'.
Proof.
  intros Hk Hlphi Hlpsi Hfirsts -> [(Ha & Hu & Hphi & Hpsi & Haff) Hanchor].
  cbn [fst snd] in *. pose proof Ha as (_ & _ & _ & Hx). unfold solver_phase6.
  assert (backward_resolve k nprocs phi_firsts psi_firsts
            (x_at r (nprocs * local_size - 1)) (w_x_tilda w)
          = Some (x_coupling nprocs local_size r k)) as ->.
  { destruct (decide (k = nprocs - 1)) as [->|Hlast].
    - unfold backward_resolve.
      rewrite bool_decide_eq_false_2 by (intros Hne; by apply Hne).
      destruct (Hanchor eq_refl) as [-> _]. unfold x_coupling.
      by rewrite bool_decide_eq_true_2.
    - rewrite backward_resolve_spec by lia. f_equal.
      replace k with (nprocs - 2 - Z.of_nat (Z.to_nat (nprocs - 2 - k))) at 1 by lia.
      rewrite x_tilda_closed_rec, x_rec_coupling by (done || lia).
      f_equal. lia. }
  cbn [mbind option_bind].
  destruct (backward_combine_spec local_size (w_phi w) (w_psi w)
              (x_coupling nprocs local_size r k) (x_local (w_args w)))
    as (x & -> & Hlx & Hcomb); [lia|done..|].
  cbn [mbind option_bind]. eexists. split; [reflexivity|].
  unfold after_backward_combine. wsimpl. split; [done|]. intros i Hi.
  rewrite Hcomb, Haff by done. f_equal. nia.
Qed.
End phases.

(** ** The solver on the group *)

Section solver_group.
Context (uninit : fresh) (P : nat) (n : Z) (r : list Qc).
Context (HP : (1 ≤ P)%nat) (Hn : 1 ≤ n) (Hfit : n ≤ INT_MAX).
Context (Hr : Z.of_nat (length r) = Z.of_nat P * n).

Lemma sweep_LR_spec (group : list args) :
  length group = P →
  ranked (args_ok n r) group →
  ∃ ws, sweep_LR uninit n group = Some ws ∧ length ws = P ∧
        ranked (after_forward_combine n r) ws.
Proof.
  intros Hlen Hgroup. unfold sweep_LR.
  destruct (each_rank_spec (solver_phase1 uninit n) (after_forward_local n r) group)
    as (ws1 & -> & Hl1 & H1).
  { intros k a Hk. eapply solver_phase1_spec; (done || lia || by apply Hgroup). }
  cbn [mbind option_bind].
  rewrite (MPI_Allgather_spec (λ w, rd (w_phi w) (n - 1)) (λ w, sel (w_phi w) (n - 1)) ws1).
  2: { intros k w Hk. destruct (H1 k w Hk) as (_ & _ & ? & _). apply rd_Some. lia. }
  cbn [mbind option_bind].
  rewrite (MPI_Allgather_spec (λ w, rd (w_psi w) (n - 1)) (λ w, sel (w_psi w) (n - 1)) ws1).
  2: { intros k w Hk. destruct (H1 k w Hk) as (_ & _ & _ & ? & _). apply rd_Some. lia. }
  cbn [mbind option_bind].
  set (phi_lasts := (λ w, sel (w_phi w) (n - 1)) <$> ws1).
  set (psi_lasts := (λ w, sel (w_psi w) (n - 1)) <$> ws1).
  assert (∀ j : nat, Z.of_nat j < Z.of_nat P →
            (sel phi_lasts (Z.of_nat j)
             + u_coupling n r (Z.of_nat j) * sel psi_lasts (Z.of_nat j))%Qc
            = u_at r (Z.of_nat j * n + (n - 1))) as Hlasts.
  { intros j Hj. destruct (lookup_lt_is_Some_2 ws1 j) as [w Hw]; [lia|].
    subst phi_lasts psi_lasts. rewrite !(sel_fmap _ _ _ _ Hw).
    destruct (H1 j w Hw) as (_ & _ & _ & _ & Haff). apply Haff. lia. }
  destruct (each_rank_spec solver_phase2 (after_forward_anchor n r) ws1)
    as (ws2 & -> & Hl2 & H2).
  { intros k w Hk. eapply solver_phase2_spec; (done || lia || by apply H1). }
  cbn [mbind option_bind].
  assert (MPI_Bcast 0 (scalars_of ws2) = Some (u_at r 0)) as ->.
  { destruct (lookup_lt_is_Some_2 ws2 O) as [wu Hwu]; [lia|].
    unfold MPI_Bcast, scalars_of. rewrite rd_Some by (rewrite length_fmap; lia).
    f_equal. rewrite (sel_fmap _ _ O _ Hwu).
    destruct (H2 O wu Hwu) as [_ Hanchor]. by destruct (Hanchor eq_refl). }
  cbn [mbind option_bind].
  destruct (each_rank_spec (solver_phase3 n phi_lasts psi_lasts (u_at r 0))
              (after_forward_combine n r) (workers_of ws2))
    as (ws3 & Hrun3 & Hl3 & H3).
  { intros k w Hk. unfold workers_of in Hk. rewrite list_lookup_fmap in Hk.
    destruct (ws2 !! k) as [[w' uf]|] eqn:Hwu; [|done]. injection Hk as <-.
    pose proof (lookup_lt_Some _ _ _ Hwu). pose proof (H2 k _ Hwu) as [Hloc Hanchor].
    eapply (solver_phase3_spec (Z.of_nat P)); try done; try lia.
    - subst phi_lasts. rewrite length_fmap. lia.
    - subst psi_lasts. rewrite length_fmap. lia.
    - split; [done|]. intros Hk0. destruct (Hanchor Hk0) as [? _]. done. }
  unfold workers_of in Hl3. rewrite length_fmap in Hl3.
  exists ws3. split_and!; [done|lia|done].
Qed.

Lemma sweep_RL_spec (ws3 : list worker) :
  length ws3 = P →
  ranked (after_forward_combine n r) ws3 →
  ∃ ws, sweep_RL (Z.of_nat P) n ws3 = Some ws ∧ length ws = P ∧
        ranked (after_backward_combine n r) ws.
Proof.
  intros Hl3 H3. unfold sweep_RL.
  rewrite (MPI_Allgather_spec (λ w, rd (gam_local (w_args w)) 0) (λ w, sel (gam_local (w_args w)) 0) ws3).
  2: { intros k w Hk. destruct (H3 k w Hk) as ((_ & [? _] & _) & _).
       apply rd_Some. lia. }
  cbn [mbind option_bind].
  set (gam_firsts := (λ w, sel (gam_local (w_args w)) 0) <$> ws3).
  destruct (each_rank_spec (solver_phase4 (Z.of_nat P) n gam_firsts)
              (after_backward_local (Z.of_nat P) n r) ws3)
    as (ws4 & -> & Hl4 & H4).
  { intros k w Hk. pose proof (lookup_lt_Some _ _ _ Hk).
    eapply solver_phase4_spec; try done; try lia.
    - subst gam_firsts. rewrite length_fmap. lia.
    - intros j Hj. destruct (lookup_lt_is_Some_2 ws3 j) as [w' Hw']; [lia|].
      subst gam_firsts. rewrite (sel_fmap _ _ _ _ Hw').
      destruct (H3 j w' Hw') as ((_ & [_ Hgam] & _) & _).
      rewrite Hgam by lia. f_equal. lia.
    - by apply H3. }
  cbn [mbind option_bind].
  rewrite (MPI_Allgather_spec (λ w, rd (w_phi w) 0) (λ w, sel (w_phi w) 0) ws4).
  2: { intros k w Hk. destruct (H4 k w Hk) as (_ & _ & ? & _). apply rd_Some. lia. }
  cbn [mbind option_bind].
  rewrite (MPI_Allgather_spec (λ w, rd (w_psi w) 0) (λ w, sel (w_psi w) 0) ws4).
  2: { intros k w Hk. destruct (H4 k w Hk) as (_ & _ & _ & ? & _). apply rd_Some. lia. }
  cbn [mbind option_bind].
  set (phi_firsts := (λ w, sel (w_phi w) 0) <$> ws4).
  set (psi_firsts := (λ w, sel (w_psi w) 0) <$> ws4).
  assert (∀ j : nat, Z.of_nat j < Z.of_nat P →
            (sel phi_firsts (Z.of_nat j)
             + x_coupling (Z.of_nat P) n r (Z.of_nat j) * sel psi_firsts (Z.of_nat j))%Qc
            = x_at r (Z.of_nat j * n)) as Hfirsts.
  { intros j Hj. destruct (lookup_lt_is_Some_2 ws4 j) as [w Hw]; [lia|].
    subst phi_firsts psi_firsts. rewrite !(sel_fmap _ _ _ _ Hw).
    destruct (H4 j w Hw) as (_ & _ & _ & _ & Haff).
    rewrite Haff by lia. f_equal. lia. }
  destruct (each_rank_spec (solver_phase5 (Z.of_nat P) n)
              (after_backward_anchor (Z.of_nat P) n r) ws4)
    as (ws5 & -> & Hl5 & H5).
  { intros k w Hk. pose proof (lookup_lt_Some _ _ _ Hk).
    eapply solver_phase5_spec; try done; try lia. by apply H4. }
  cbn [mbind option_bind].
  assert (MPI_Bcast (Z.of_nat P - 1) (scalars_of ws5)
          = Some (x_at r (Z.of_nat P * n - 1))) as ->.
  { destruct (lookup_lt_is_Some_2 ws5 (P - 1)) as [wx Hwx]; [lia|].
    unfold MPI_Bcast, scalars_of. rewrite rd_Some by (rewrite length_fmap; lia).
    f_equal. replace (Z.of_nat P - 1) with (Z.of_nat (P - 1)) by lia.
    rewrite (sel_fmap _ _ _ _ Hwx).
    destruct (H5 _ wx Hwx) as [_ Hanchor].
    destruct Hanchor as [_ ->]; [lia|done]. }
  cbn [mbind option_bind].
  destruct (each_rank_spec
              (solver_phase6 (Z.of_nat P) n phi_firsts psi_firsts
                 (x_at r (Z.of_nat P * n - 1)))
              (after_backward_combine n r) (workers_of ws5))
    as (ws6 & Hrun6 & Hl6 & H6).
  { intros k w Hk. unfold workers_of in Hk. rewrite list_lookup_fmap in Hk.
    destruct (ws5 !! k) as [[w' xl]|] eqn:Hwx; [|done]. injection Hk as <-.
    pose proof (lookup_lt_Some _ _ _ Hwx). pose proof (H5 k _ Hwx) as [Hloc Hanchor].
    eapply (solver_phase6_spec (Z.of_nat P)); try done; try lia.
    - subst phi_firsts. rewrite length_fmap. lia.
    - subst psi_firsts. rewrite length_fmap. lia.
    - split; [done|]. intros Hk0. destruct (Hanchor Hk0) as [? _]. done. }
  unfold workers_of in Hl6. rewrite length_fmap in Hl6.
  exists ws6. split_and!; [done|lia|done].
Qed.

Lemma solver_group_spec (group : list args) :
  length group = P →
  ranked (args_ok n r) group →
  ∃ ws,
    nonperiodic_tridiagonal_solver uninit (Z.of_nat P * n) group
      = Some ((λ w, Solved (x_local (w_args w))) <$> ws) ∧
    length ws = P ∧
    ranked (after_backward_combine n r) ws.
Proof.
  intros Hlen Hgroup. unfold nonperiodic_tridiagonal_solver. rewrite Hlen.
  cbv zeta. rewrite (Z.mul_comm _ n), Z.rem_mul, Z.quot_mul by lia.
  rewrite to_int_fits by (unfold INT_MAX in *; lia).
  rewrite bool_decide_eq_false_2 by (intros Hne; by apply Hne).
  destruct (sweep_LR_spec group) as (ws3 & -> & Hl3 & H3); [done..|].
  cbn [mbind option_bind].
  destruct (sweep_RL_spec ws3) as (ws6 & -> & Hl6 & H6); [done..|].
  cbn [mbind option_bind]. by exists ws6.
Qed.
End solver_group.

(** * The pipeline followed by the solver *)

(** The concatenation of the blocks the ranks own is the global sequence. *)
Lemma join_owned (local_size : Z) (f : nat → Qc) (bs : list (list Qc)) (k0 : nat) :
  0 ≤ local_size →
  (∀ (k : nat) b, bs !! k = Some b → owns local_size (Z.of_nat (k0 + k)) f b) →
  mjoin bs
  = f <$> seq (k0 * Z.to_nat local_size) (length bs * Z.to_nat local_size).
Proof.
  intros Hn. revert k0. induction bs as [|b bs IH]; intros k0 Hbs; [done|].
  cbn [mjoin list_join length]. rewrite Nat.mul_succ_l.
  rewrite (Nat.add_comm _ (Z.to_nat local_size)), seq_app, fmap_app.
  f_equal.
  - destruct (Hbs O b eq_refl) as [Hlen Hsel]. rewrite Nat.add_0_r in Hsel.
    apply list_eq_same_length with (Z.to_nat local_size);
      [rewrite length_fmap, length_seq; lia|lia|].
    intros i x y Hi Hx Hy. apply sel_lookup in Hx.
    rewrite list_lookup_fmap, lookup_seq_lt in Hy by done. injection Hy as <-.
    rewrite <- Hx, Hsel by lia. f_equal. nia.
  - replace (k0 * Z.to_nat local_size + Z.to_nat local_size)%nat
      with (S k0 * Z.to_nat local_size)%nat by lia.
    apply IH. intros k b' Hk.
    replace (S k0 + k)%nat with (k0 + S k)%nat by lia. by apply Hbs.
Qed.

Lemma fmap_sel_seq (a : list Qc) :
  (λ g, sel a (Z.of_nat g)) <$> seq 0 (length a) = a.
Proof.
  apply list_eq_same_length with (length a);
    [done|by rewrite length_fmap, length_seq|].
  intros i x y Hi Hx Hy. rewrite list_lookup_fmap, lookup_seq_lt in Hx by done.
  injection Hx as <-. by apply sel_lookup.
Qed.

Lemma blocks_owns (nprocs : nat) (local_size : Z) (r : list Qc) (k : nat)
    (b : list Qc) :
  0 ≤ local_size →
  Z.of_nat (length r) = Z.of_nat nprocs * local_size →
  blocks nprocs local_size r !! k = Some b →
  owns local_size (Z.of_nat k) (λ g, sel r (Z.of_nat g)) b.
Proof.
  intros Hn Hr Hk. unfold blocks in Hk. rewrite list_lookup_fmap in Hk.
  destruct (seq 0 nprocs !! k) as [k'|] eqn:Hseq; [|done].
  apply lookup_seq in Hseq as [-> Hlt]. injection Hk as <-. split.
  - rewrite length_take, length_drop. nia.
  - intros i Hi. unfold sel at 1, rd. rewrite bool_decide_eq_true_2 by lia.
    rewrite lookup_take_lt, lookup_drop by lia.
    rewrite (lookup_sel r) by nia. simpl. f_equal. nia.
Qed.

Section pipeline_group.
Context (P : nat) (N : Z).
Context (HN : 0 < N) (Hdiv : N `rem` Z.of_nat P = 0).

Local Abbreviation n := (N `quot` Z.of_nat P).

Lemma group_shape : (1 ≤ P)%nat ∧ 1 ≤ n ∧ N = Z.of_nat P * n.
Proof.
  destruct P as [|p].
  - rewrite Z.rem_0_r_ext in Hdiv by done. lia.
  - pose proof (Z.quot_rem' N (Z.of_nat (S p))) as Hqr.
    rewrite Hdiv in Hqr. split; [lia|]. split; [nia|lia].
Qed.

Context (Hfit : N `quot` Z.of_nat P ≤ INT_MAX).

(** The pipeline fills the coefficient buffers of every rank and leaves no
    message in flight. *)
Lemma precompute_group_spec (bufs : list (list Qc * list Qc)) :
  length bufs = P →
  (∀ (k : nat) b g, bufs !! k = Some (b, g) →
     Z.of_nat (length b) = n ∧ Z.of_nat (length g) = n) →
  ∃ out,
    precompute_group N bufs = Some (out, []) ∧ length out = P ∧
    ∀ (k : nat) b g, out !! k = Some (b, g) →
      owns n (Z.of_nat k) beta_seq b ∧ owns n (Z.of_nat k) gam_seq g.
Proof.
  intros Hlen Hshape. destruct group_shape as (HP & Hn & HNn).
  unfold precompute_group. rewrite Hlen.
  pose proof (to_int_fits n ltac:(unfold INT_MAX in *; lia)) as Hint.
  pose proof (precompute_ranks_spec (Z.of_nat P) N bufs 0 []) as Hranks.
  cbv zeta in Hranks. rewrite Hint in Hranks.
  destruct Hranks as (out & Hrun & Hlout & Hout); [done|done|lia|done|done|].
  exists out. split_and!; [done|lia|]. intros k b g Hk.
  specialize (Hout k b g Hk). by rewrite Z.add_0_l in Hout.
Qed.

End pipeline_group.

Section refinement.
Context (uninit : fresh) (P : nat) (N : Z) (r : list Qc).
Context (HN : 0 < N) (Hdiv : N `rem` Z.of_nat P = 0).
Context (Hfit : N `quot` Z.of_nat P ≤ INT_MAX).
Context (Hr : Z.of_nat (length r) = N).

Local Abbreviation n := (N `quot` Z.of_nat P).

Lemma pipeline_then_solver_spec :
  ∃ ws,
    pipeline_then_solver uninit P N r
      = Some ((λ w, Solved (x_local (w_args w))) <$> ws) ∧
    length ws = P ∧
    ranked (after_backward_combine n r) ws.
Proof.
  destruct (group_shape P N HN Hdiv) as (HP & Hn & HNn).
  unfold pipeline_then_solver.
  destruct (precompute_group_spec P N HN Hdiv Hfit (caller_buffers uninit P n))
    as (coeffs & -> & Hlc & Hcoeffs).
  { unfold caller_buffers. by rewrite length_fmap, length_seq. }
  { intros k b g Hk. unfold caller_buffers in Hk.
    apply list_lookup_fmap_Some in Hk as (k' & [= -> ->] & _).
    split; apply length_malloc; lia. }
  cbn [mbind option_bind].
  set (n0 := N `quot` Z.of_nat P) in *. rewrite HNn.
  apply solver_group_spec; [done|done|done|lia| |].
  - rewrite length_zip_with, length_zip, Hlc. unfold blocks, caller_outputs.
    rewrite !length_fmap, !length_seq. lia.
  - intros k a Hk.
    apply lookup_zip_with_Some in Hk as ([b g] & [rl x] & -> & Hbg & Hrx).
    apply lookup_zip_with_Some in Hrx as (rl' & x' & [= <- <-] & Hrl & Hx).
    destruct (Hcoeffs k b g Hbg) as [Hb Hg].
    unfold caller_outputs in Hx.
    apply list_lookup_fmap_Some in Hx as (k' & -> & _).
    unfold args_ok. cbn [beta_local gam_local r_local x_local].
    split_and!; [done|done| |apply length_malloc; lia].
    apply (blocks_owns P); [lia|lia|done].
Qed.

(** The solution the group gathers is the sequential Thomas solution. *)
Lemma solve_distributed_spec :
  solve_distributed uninit P N r = Some (thomas_solution r).
Proof.
  destruct (group_shape P N HN Hdiv) as (HP & Hn & HNn).
  destruct pipeline_then_solver_spec as (ws & Hrun & Hlen & Hws).
  unfold solve_distributed. rewrite Hrun. cbn [mbind option_bind].
  unfold gathered.
  rewrite (list_fmap_compose (λ w, x_local (w_args w)) Solved).
  rewrite (mapM_fmap_Some solved_block Solved) by done.
  cbn [fmap option_fmap option_map]. f_equal.
  rewrite (join_owned n (λ g, x_at r (Z.of_nat g)) _ O) by first
    [ lia
    | intros k b [w [-> Hw]]%list_lookup_fmap_Some; apply (Hws k w Hw) ].
  rewrite length_fmap, Hlen. unfold x_at.
  replace (P * Z.to_nat n)%nat with (length (thomas_solution r)).
  - apply fmap_sel_seq.
  - pose proof (thomas_solution_length r). nia.
Qed.
End refinement.

(** * Statements about the code for arbitrary data *)

Lemma sel_fmap_seq (f : nat → Qc) (n : nat) (i : Z) :
  0 ≤ i < Z.of_nat n → sel (f <$> seq 0 n) i = f (Z.to_nat i).
Proof.
  intros Hi. replace i with (Z.of_nat (Z.to_nat i)) at 1 by lia.
  apply sel_lookup. rewrite list_lookup_fmap, lookup_seq_lt by lia. done.
Qed.


(** The pipeline, joined over the ranks. *)
Lemma precompute_group_joined (P : nat) (N : Z) (bufs : list (list Qc * list Qc)) :
  0 < N → N `rem` Z.of_nat P = 0 → N `quot` Z.of_nat P ≤ INT_MAX →
  length bufs = P →
  Forall (λ bg, Z.of_nat (length bg.1) = N `quot` Z.of_nat P ∧
                Z.of_nat (length bg.2) = N `quot` Z.of_nat P) bufs →
  ∃ out,
    precompute_group N bufs = Some (out, []) ∧
    mjoin (fst <$> out) = beta_seq <$> seq 0 (Z.to_nat N) ∧
    mjoin (snd <$> out) = gam_seq <$> seq 0 (Z.to_nat N).
Proof.
  intros HN Hdiv Hfit Hlen Hshape.
  destruct (group_shape P N HN Hdiv) as (HP & Hn & HNn).
  destruct (precompute_group_spec P N HN Hdiv Hfit bufs)
    as (out & Hrun & Hlout & Hout);
    [done| |].
  { intros k b g Hk. by apply (Forall_lookup_1 _ _ _ _ Hshape Hk). }
  exists out. split; [done|].
  replace (Z.to_nat N) with (length out * Z.to_nat (N `quot` Z.of_nat P))%nat by nia.
  split.
  - rewrite <- (length_fmap fst out).
    apply (join_owned _ _ _ O); [lia|].
    intros k b [[b' g] [-> Hk]]%list_lookup_fmap_Some. by apply Hout in Hk as [? _].
  - rewrite <- (length_fmap snd out).
    apply (join_owned _ _ _ O); [lia|].
    intros k g [[b g'] [-> Hk]]%list_lookup_fmap_Some. by apply Hout in Hk as [_ ?].
Qed.

(** On the empty system the pipeline runs to its end on the empty group
    only: a rank stores at cell 0 of a buffer without cells. *)
Lemma precompute_group_empty_system (bufs out : list (list Qc * list Qc))
    (net : list msg) :
  Forall (λ bg, Z.of_nat (length bg.1) = 0 ∧ Z.of_nat (length bg.2) = 0) bufs →
  precompute_group 0 bufs = Some (out, net) →
  bufs = [] ∧ out = [] ∧ net = [].
Proof.
  intros Hshape Hrun. destruct bufs as [|[b g] rest].
  - cbn in Hrun. by injection Hrun as <- <-.
  - apply Forall_cons_1 in Hshape as [[Hb _] _]. cbn [fst] in Hb.
    unfold precompute_group in Hrun. cbn [precompute_ranks] in Hrun.
    unfold precompute_beta_gam in Hrun.
    rewrite for_range_single with (r0 := 0) in Hrun.
    + assert (wr b 0 1%Qc = None) as Hw.
      { unfold wr. by rewrite bool_decide_eq_false_2 by lia. }
      rewrite !bool_decide_eq_true_2, Hw in Hrun by done. done.
    + cbn [length]. lia.
    + intros r0 [[b' g'] nt] Hr0. by rewrite bool_decide_eq_false_2.
Qed.

(** The pipeline on every system size: it runs to its end when there is at
    least one unknown, and whenever it runs to its end the joined buffers
    are the global recurrence and no message is left in flight. *)
Lemma precompute_group_total (P : nat) (N : Z) (bufs : list (list Qc * list Qc)) :
  0 ≤ N → N `rem` Z.of_nat P = 0 → N `quot` Z.of_nat P ≤ INT_MAX →
  length bufs = P →
  Forall (λ bg, Z.of_nat (length bg.1) = N `quot` Z.of_nat P ∧
                Z.of_nat (length bg.2) = N `quot` Z.of_nat P) bufs →
  (0 < N → ∃ out, precompute_group N bufs = Some (out, [])) ∧
  ∀ out net, precompute_group N bufs = Some (out, net) →
    net = [] ∧
    mjoin (fst <$> out) = beta_seq <$> seq 0 (Z.to_nat N) ∧
    mjoin (snd <$> out) = gam_seq <$> seq 0 (Z.to_nat N).
Proof.
  intros HN Hdiv Hfit Hlen Hshape. destruct (decide (N = 0)) as [->|HN0].
  - split; [lia|]. intros out net Hrun.
    replace (0 `quot` Z.of_nat P) with 0 in Hshape
      by (destruct P; [done|by rewrite Z.quot_0_l]).
    by destruct (precompute_group_empty_system bufs out net) as (_ & -> & ->).
  - destruct (precompute_group_joined P N bufs) as (out0 & Hrun0 & Hb & Hg);
      [lia|done..|].
    split; [by exists out0|]. intros out net Hrun.
    rewrite Hrun0 in Hrun. by injection Hrun as <- <-.
Qed.

(** The sweeps on buffers without cells: the first store is out of bounds. *)
Lemma forward_local_empty (rank : Z) (beta_local r_local phi0 psi0 : list Qc) :
  length beta_local = O → length phi0 = O →
  forward_local rank 0 beta_local r_local phi0 psi0 = None.
Proof.
  intros Hb Hphi. unfold forward_local, wr, rd. rewrite Hphi.
  destruct beta_local; [|done]. by case_bool_decide.
Qed.


(** The left-to-right sweep on a group with buffers of the right length,
    whatever they hold: what rank 0 ends with. *)
Lemma sweep_LR_rank0 (uninit : fresh) (n : Z) (group : list args) (a0 : args) :
  1 ≤ n →
  group !! O = Some a0 →
  Forall (λ a, Z.of_nat (length (beta_local a)) = n ∧
               Z.of_nat (length (r_local a)) = n) group →
  ∃ ws w0,
    sweep_LR uninit n group = Some ws ∧ ws !! O = Some w0 ∧
    w_u_tilda w0 = (sel (beta_local a0) 0 * sel (r_local a0) 0)%Qc ∧
    sel (w_phi w0) 0 = 0%Qc ∧ sel (w_psi w0) 0 = 1%Qc ∧
    combined n (w_phi w0) (w_psi w0)
      (sel (beta_local a0) 0 * sel (r_local a0) 0)%Qc (w_u w0).
Proof.
  intros Hn Ha0 Hshape. unfold sweep_LR.
  set (c0 := (sel (beta_local a0) 0 * sel (r_local a0) 0)%Qc).
  set (shape := λ w : worker,
         Z.of_nat (length (beta_local (w_args w))) = n ∧
         Z.of_nat (length (r_local (w_args w))) = n ∧
         Z.of_nat (length (w_u w)) = n ∧
         Z.of_nat (length (w_phi w)) = n ∧ Z.of_nat (length (w_psi w)) = n).
  destruct (each_rank_spec (solver_phase1 uninit n)
              (λ k w, shape w ∧
                      (k = 0 → w_args w = a0 ∧
                               sel (w_phi w) 0 = 0%Qc ∧ sel (w_psi w) 0 = 1%Qc))
              group) as (ws1 & -> & Hl1 & H1).
  { intros k a Hk. destruct (Forall_lookup_1 _ _ _ _ Hshape Hk) as [Hb Hr].
    unfold solver_phase1.
    destruct (initZeros_spec (malloc (uninit (Z.of_nat k) u_local_block) n) n)
      as (u & -> & Hu); [lia|by apply length_malloc; lia|].
    cbn [mbind option_bind].
    destruct (forward_local_spec (Z.of_nat k) n (beta_local a) (r_local a)
                (malloc (uninit (Z.of_nat k) phi_local_block) n)
                (malloc (uninit (Z.of_nat k) psi_local_block) n))
      as (phi & psi & -> & Hlphi & Hlpsi & Hz & _);
      [done..|by apply length_malloc; lia|by apply length_malloc; lia|].
    cbn [mbind option_bind]. eexists. split; [reflexivity|].
    split; [by split_and!|]. intros Hk0. wsimpl.
    destruct (Hz Hk0) as [-> ->]. split_and!; try done.
    destruct k; [|lia]. congruence. }
  cbn [mbind option_bind].
  rewrite (MPI_Allgather_spec (λ w, rd (w_phi w) (n - 1))
             (λ w, sel (w_phi w) (n - 1)) ws1).
  2: { intros k w Hk. destruct (H1 k w Hk) as [(_ & _ & _ & ? & _) _].
       apply rd_Some. lia. }
  cbn [mbind option_bind].
  rewrite (MPI_Allgather_spec (λ w, rd (w_psi w) (n - 1))
             (λ w, sel (w_psi w) (n - 1)) ws1).
  2: { intros k w Hk. destruct (H1 k w Hk) as [(_ & _ & _ & _ & ?) _].
       apply rd_Some. lia. }
  cbn [mbind option_bind].
  destruct (each_rank_spec solver_phase2
              (λ k wu, shape wu.1 ∧
                       (k = 0 → w_u_tilda wu.1 = c0 ∧ wu.2 = c0 ∧
                                sel (w_phi wu.1) 0 = 0%Qc ∧
                                sel (w_psi wu.1) 0 = 1%Qc))
              ws1) as (ws2 & -> & Hl2 & H2).
  { intros k w Hk. destruct (H1 k w Hk) as [(Hb & Hr & Hu & Hphi & Hpsi) H0].
    unfold solver_phase2, forward_anchor. case_bool_decide as Hk0.
    - destruct (H0 Hk0) as (Ea & Ephi & Epsi). access.
      eexists (_, _). split; [reflexivity|]. wsimpl.
      split; [unfold shape; wsimpl; rewrite length_upd; by split_and!|].
      intros _. rewrite sel_upd_eq by lia. subst c0. by rewrite Ea.
    - cbn [mbind option_bind]. eexists (_, _). split; [reflexivity|].
      split; [by unfold shape|done]. }
  cbn [mbind option_bind].
  assert (length group ≠ O) as Hne by (by destruct group).
  destruct (lookup_lt_is_Some_2 ws2 O) as [[w2 uf] Hw2]; [lia|].
  unfold MPI_Bcast, scalars_of at 1.
  rewrite rd_Some by (rewrite length_fmap; lia). cbn [mbind option_bind].
  set (u_first := sel (snd <$> ws2) 0).
  destruct (each_rank_spec
              (solver_phase3 n ((λ w, sel (w_phi w) (n - 1)) <$> ws1)
                 ((λ w, sel (w_psi w) (n - 1)) <$> ws1) u_first)
              (λ k w, k = 0 → w_u_tilda w = c0 ∧
                              sel (w_phi w) 0 = 0%Qc ∧ sel (w_psi w) 0 = 1%Qc ∧
                              combined n (w_phi w) (w_psi w) c0 (w_u w))
              (workers_of ws2)) as (ws3 & -> & Hl3 & H3).
  { intros k w Hk. unfold workers_of in Hk. rewrite list_lookup_fmap in Hk.
    destruct (ws2 !! k) as [[w' uf']|] eqn:Hwu; [|done]. injection Hk as <-.
    pose proof (lookup_lt_Some _ _ _ Hwu).
    destruct (H2 k _ Hwu) as [(Hb & Hr & Hu & Hphi & Hpsi) H0]. cbn [fst snd] in *.
    unfold solver_phase3.
    assert (∃ t, forward_resolve (Z.of_nat k)
                   ((λ w, sel (w_phi w) (n - 1)) <$> ws1)
                   ((λ w, sel (w_psi w) (n - 1)) <$> ws1) u_first (w_u_tilda w')
                 = Some t ∧ (Z.of_nat k = 0 → t = w_u_tilda w')) as (t & -> & Ht).
    { destruct (decide (Z.of_nat k = 0)) as [Hk0|Hk0].
      - exists (w_u_tilda w'). unfold forward_resolve.
        by rewrite bool_decide_eq_false_2 by (intros Hne'; by apply Hne').
      - eexists. split; [|intros; lia].
        apply forward_resolve_spec; rewrite ?length_fmap; lia. }
    cbn [mbind option_bind].
    destruct (forward_combine_spec n (w_phi w') (w_psi w') t (w_u w'))
      as (u & -> & Hcomb); [lia|done..|].
    cbn [mbind option_bind]. eexists. split; [reflexivity|].
    intros Hk0. wsimpl. destruct (H0 Hk0) as (Et & _ & Ephi & Epsi).
    rewrite (Ht Hk0), Et in Hcomb |- *. done. }
  destruct (lookup_lt_is_Some_2 ws3 O) as [w3 Hw3].
  { unfold workers_of in Hl3. rewrite length_fmap in Hl3. lia. }
  exists ws3, w3. split; [done|]. split; [done|]. by apply (H3 O w3 Hw3).
Qed.

(** ** Block sizes outside the range of [int] *)

Lemma for_range_none {S : Type} (lo hi : Z) (body : Z → S → option S) (s : S) :
  hi ≤ lo → for_range lo hi body s = Some s.
Proof.
  intros Hle. unfold for_range. by replace (Z.to_nat (hi - lo)) with O by lia.
Qed.

Lemma malloc_no_cell (junk : Z → Qc) (n : Z) : n ≤ 0 → malloc junk n = [].
Proof. intros Hn. unfold malloc. by replace (Z.to_nat n) with O by lia. Qed.

Lemma sel_replicate (M : nat) (v : Qc) (i : Z) :
  0 ≤ i < Z.of_nat M → sel (replicate M v) i = v.
Proof.
  intros Hi. unfold sel, rd. rewrite bool_decide_eq_true_2 by lia.
  by rewrite lookup_replicate_2 by lia.
Qed.

(** One rank whose [local_size] is at most 1, whatever the size of its
    buffers: it stores the two seeds, runs no iteration and sends nothing. *)
Lemma precompute_one_rank_short (N : Z) (b0 g0 : list Qc) :
  to_int (N `quot` 1) ≤ 1 →
  (1 ≤ length b0)%nat → (1 ≤ length g0)%nat →
  precompute_group N [(b0, g0)]
  = Some ([(<[O := 1%Qc]> b0, <[O := 0%Qc]> g0)], []).
Proof.
  intros Hls Hb Hg. unfold precompute_group. cbn [length precompute_ranks].
  change (Z.of_nat 1) with 1.
  assert (precompute_beta_gam 0 1 N  [] b0 g0
          = Some (<[O := 1%Qc]> b0, <[O := 0%Qc]> g0, [])) as ->; [|done].
  unfold precompute_beta_gam.
  rewrite for_range_single with (r0 := 0); [|lia|].
  2: { intros r [[b g] nt] Hr. by rewrite bool_decide_eq_false_2. }
  rewrite !bool_decide_eq_true_2 by done.
  rewrite wr_Some by lia. cbn [mbind option_bind].
  rewrite wr_Some by lia. cbn [mbind option_bind].
  rewrite for_range_none by lia. cbn [mbind option_bind].
  by rewrite bool_decide_eq_false_2 by lia.
Qed.

(** The solver when the [local_size] it computes is not positive: the
    work buffers have no cell and rank 0 stores [phi_local[0]]. *)
Lemma solver_without_cells (uninit : fresh) (N : Z) (group : list args) :
  group ≠ [] →
  N `rem` Z.of_nat (length group) = 0 →
  to_int (N `quot` Z.of_nat (length group)) ≤ 0 →
  nonperiodic_tridiagonal_solver uninit N group = None.
Proof.
  intros Hne Hdiv Hls. destruct group as [|a rest]; [done|].
  unfold nonperiodic_tridiagonal_solver. cbv zeta.
  rewrite bool_decide_eq_false_2 by (intros Hrem; by apply Hrem).
  set (ls := to_int _) in *.
  assert (sweep_LR uninit ls (a :: rest) = None) as ->; [|done].
  unfold sweep_LR, each_rank. cbn [each_rank_from].
  assert (solver_phase1 uninit ls 0 a = None) as ->; [|done].
  unfold solver_phase1. rewrite !malloc_no_cell by done.
  unfold initZeros. rewrite for_range_none by done. cbn [mbind option_bind].
  unfold forward_local. by rewrite bool_decide_eq_true_2 by done.
Qed.

(** The two entry points in sequence on one rank whose [local_size] is not
    positive although the system has unknowns. *)
Lemma solve_distributed_without_cells (uninit : fresh) (N : Z) (r : list Qc) :
  1 ≤ N →
  to_int (N `quot` 1) ≤ 0 →
  solve_distributed uninit 1 N r = None.
Proof.
  intros HN Hls. unfold solve_distributed, pipeline_then_solver. cbv zeta.
  change (Z.of_nat 1) with 1.
  unfold caller_buffers, caller_outputs, blocks. cbn [seq fmap list_fmap].
  rewrite (Z.quot_1_r N) in *.
  pose proof (length_malloc (uninit (Z.of_nat 0) beta_buffer) N ltac:(lia)) as Hb.
  pose proof (length_malloc (uninit (Z.of_nat 0) gam_buffer) N ltac:(lia)) as Hg.
  rewrite precompute_one_rank_short by (rewrite ?Z.quot_1_r; lia).
  cbn [mbind option_bind zip zip_with].
  rewrite solver_without_cells; [done|done|cbn [length]; apply Z.rem_1_r|].
  cbn [length]. change (Z.of_nat 1) with 1. by rewrite Z.quot_1_r.
Qed.

(** One rank whose [local_size] wraps to at most 1 on buffers of [M]
    cells: cell 1 of [beta_local] is not written. *)
Lemma one_rank_wrapped_leaves_cells (N : Z) (M : nat) :
  to_int (N `quot` 1) ≤ 1 →
  (2 ≤ M)%nat →
  ∃ out,
    precompute_group N [(replicate M 0%Qc, replicate M 0%Qc)] = Some (out, []) ∧
    sel (mjoin (fst <$> out)) 0 = 1%Qc ∧
    sel (mjoin (fst <$> out)) 1 = 0%Qc ∧
    sel (mjoin (fst <$> out)) 1
    ≠ (1 / (1 - third * sel (mjoin (fst <$> out)) 0 * third))%Qc.
Proof.
  intros Hls HM. eexists. split.
  { apply precompute_one_rank_short; [done|rewrite length_replicate; lia..]. }
  cbn [fmap list_fmap fst mjoin list_join]. rewrite app_nil_r.
  change O with (Z.to_nat 0).
  rewrite sel_upd_eq by (rewrite length_replicate; lia).
  rewrite sel_upd_ne, sel_replicate by lia.
  split_and!; [done..|].
  intros H%(f_equal this). vm_compute in H. discriminate H.
Qed.

(** * The solver on arbitrary coefficient arrays

    The invariants of the group, once more, for buffers that hold the
    blocks of arbitrary arrays [B], [G] and [R]: the sweeps are measured
    against the two sequential passes over these arrays instead of the
    Thomas elimination of one particular matrix. *)

Lemma fwd_at_succ (B R : list Qc) (g : Z) :
  0 ≤ g →
  fwd_at B R (g + 1)
  = (sel B (g + 1) * (sel R (g + 1) - third * fwd_at B R g))%Qc.
Proof.
  intros Hg. unfold fwd_at.
  replace (Z.to_nat (g + 1)) with (S (Z.to_nat g)) by lia. cbn [forward_pass].
  by replace (Z.of_nat (S (Z.to_nat g))) with (g + 1) by lia.
Qed.

Lemma length_two_sweeps (B G R : list Qc) :
  length (two_sweeps B G R) = length R.
Proof. unfold two_sweeps. by rewrite length_fmap, length_seq. Qed.

Lemma sol_at_last (B G R : list Qc) :
  1 ≤ Z.of_nat (length R) →
  sol_at B G R (Z.of_nat (length R) - 1) = fwd_at B R (Z.of_nat (length R) - 1).
Proof.
  intros HN. unfold sol_at, two_sweeps, fwd_at. rewrite sel_fmap_seq by lia.
  replace (length R - 1 - Z.to_nat (Z.of_nat (length R) - 1))%nat with O by lia.
  cbn [backward_pass]. f_equal. lia.
Qed.

Lemma sol_at_step (B G R : list Qc) (g : Z) :
  0 ≤ g < Z.of_nat (length R) - 1 →
  sol_at B G R g = (fwd_at B R g - sel G (g + 1) * sol_at B G R (g + 1))%Qc.
Proof.
  intros Hg. unfold sol_at, two_sweeps, fwd_at. rewrite !sel_fmap_seq by lia.
  replace (length R - 1 - Z.to_nat g)%nat
    with (S (length R - 1 - Z.to_nat (g + 1))) by lia.
  cbn [backward_pass].
  replace (length R - 1 - S (length R - 1 - Z.to_nat (g + 1)))%nat
    with (Z.to_nat g) by lia.
  replace (Z.of_nat (length R - 1 - (length R - 1 - Z.to_nat (g + 1))))
    with (g + 1) by lia.
  done.
Qed.

Lemma owns_sel (local_size k i : Z) (l a : list Qc) :
  0 ≤ k → 0 ≤ i < local_size →
  owns local_size k (λ g, sel l (Z.of_nat g)) a →
  sel a i = sel l (k * local_size + i).
Proof. intros Hk Hi [_ Ha]. rewrite Ha by done. f_equal. nia. Qed.

(** ** The sweeps against the two passes *)

Section sweeps_any.
Context (nprocs local_size : Z) (B G R : list Qc).
Context (Hn : 1 ≤ local_size) (HP : 1 ≤ nprocs).
Context (Hr : Z.of_nat (length R) = nprocs * local_size).

(** Every cell of the left-to-right sweep is affine in the coupling scalar,
    and evaluates to the forward pass there. *)
Lemma forward_affine_any (k : Z) (a : args) (phi psi : list Qc) :
  0 ≤ k →
  args_hold local_size B G R k a →
  forward_swept k local_size (beta_local a) (r_local a) phi psi →
  ∀ i, 0 ≤ i < local_size →
    (sel phi i + fwd_coupling local_size B R k * sel psi i)%Qc
    = fwd_at B R (k * local_size + i).
Proof.
  intros Hk (Hbeta & _ & Hrl & _) (_ & _ & Hz & Hnz & Hrec).
  assert (∀ i, 0 ≤ i → i < local_size →
            (sel phi i + fwd_coupling local_size B R k * sel psi i)%Qc
            = fwd_at B R (k * local_size + i)) as Hall; [|intros; apply Hall; lia].
  apply (Z_ind_from (λ i, i < local_size → _)).
  - intros _. unfold fwd_coupling. case_bool_decide as Hk0.
    + subst k. destruct (Hz eq_refl) as [-> ->].
      replace (0 * local_size + 0) with 0 by lia. ring.
    + destruct (Hnz Hk0) as [-> ->].
      replace (k * local_size + 0) with (k * local_size - 1 + 1) by lia.
      rewrite fwd_at_succ by nia.
      rewrite (owns_sel local_size k 0 R (r_local a)),
        (owns_sel local_size k 0 B (beta_local a)) by (done || lia).
      replace (k * local_size - 1 + 1) with (k * local_size + 0) by lia. ring.
  - intros i Hi IH Hlt. specialize (IH ltac:(lia)).
    destruct (Hrec (i + 1)) as [-> ->]; [lia|].
    replace (i + 1 - 1) with i by lia.
    replace (k * local_size + (i + 1)) with (k * local_size + i + 1) by lia.
    rewrite fwd_at_succ by nia. rewrite <- IH.
    rewrite (owns_sel local_size k (i + 1) R (r_local a)),
      (owns_sel local_size k (i + 1) B (beta_local a)) by (done || lia).
    replace (k * local_size + (i + 1)) with (k * local_size + i + 1) by lia. ring.
Qed.

(** Every cell of the right-to-left sweep is affine in the coupling scalar,
    and evaluates to the backward pass there. *)
Lemma backward_affine_any (k : Z) (u gam gam_firsts phi psi : list Qc) :
  0 ≤ k < nprocs →
  owns local_size k (λ g, fwd_at B R (Z.of_nat g)) u →
  owns local_size k (λ g, sel G (Z.of_nat g)) gam →
  (k ≠ nprocs - 1 →
     sel gam_firsts (k + 1) = sel G ((k + 1) * local_size)) →
  backward_swept k nprocs local_size u gam gam_firsts phi psi →
  ∀ i, 0 ≤ i < local_size →
    (sel phi i + sol_coupling nprocs local_size B G R k * sel psi i)%Qc
    = sol_at B G R (k * local_size + i).
Proof.
  intros Hk [_ Hu] Hgam Hgf (_ & _ & Hz & Hnz & Hrec).
  assert (∀ j, 0 ≤ j → j < local_size →
            (sel phi (local_size - 1 - j)
             + sol_coupling nprocs local_size B G R k * sel psi (local_size - 1 - j))%Qc
            = sol_at B G R (k * local_size + (local_size - 1 - j))) as Hall.
  { apply (Z_ind_from (λ j, j < local_size → _)).
    - intros _. replace (local_size - 1 - 0) with (local_size - 1) by lia.
      unfold sol_coupling. case_bool_decide as Hlast.
      + subst k. destruct (Hz eq_refl) as [-> ->].
        replace ((nprocs - 1) * local_size + (local_size - 1))
          with (nprocs * local_size - 1) by lia. ring.
      + destruct (Hnz Hlast) as [-> ->]. rewrite (Hgf Hlast), Hu by lia.
        rewrite (sol_at_step B G R (k * local_size + (local_size - 1))) by nia.
        replace (Z.of_nat (Z.to_nat (k * local_size + (local_size - 1))))
          with (k * local_size + (local_size - 1)) by nia.
        replace (k * local_size + (local_size - 1) + 1)
          with ((k + 1) * local_size) by lia. ring.
    - intros j Hj IH Hlt. specialize (IH ltac:(lia)).
      destruct (Hrec (local_size - 1 - (j + 1))) as [-> ->]; [lia|].
      replace (local_size - 1 - (j + 1) + 1) with (local_size - 1 - j) by lia.
      rewrite (sol_at_step B G R (k * local_size + (local_size - 1 - (j + 1)))) by nia.
      replace (k * local_size + (local_size - 1 - (j + 1)) + 1)
        with (k * local_size + (local_size - 1 - j)) by lia.
      rewrite <- IH, Hu by lia.
      rewrite (owns_sel local_size k (local_size - 1 - j) G gam) by (done || lia).
      replace (Z.of_nat (Z.to_nat (k * local_size + (local_size - 1 - (j + 1)))))
        with (k * local_size + (local_size - 1 - (j + 1))) by nia.
      ring. }
  intros i Hi. specialize (Hall (local_size - 1 - i) ltac:(lia) ltac:(lia)).
  by replace (local_size - 1 - (local_size - 1 - i)) with i in Hall by lia.
Qed.
End sweeps_any.

(** ** The phases of the solver on one rank *)

Section phases_any.
Context (nprocs local_size : Z) (B G R : list Qc).
Context (Hn : 1 ≤ local_size) (HP : 1 ≤ nprocs).
Context (Hr : Z.of_nat (length R) = nprocs * local_size).

Lemma solver_phase1_any (uninit : fresh) (k : Z) (a : args) :
  0 ≤ k →
  args_hold local_size B G R k a →
  ∃ w, solver_phase1 uninit local_size k a = Some w ∧
       lr_local local_size B G R k w.
Proof.
  intros Hk Ha. pose proof Ha as ([Hlb _] & _ & [Hlr _] & _).
  unfold solver_phase1.
  destruct (initZeros_spec (malloc (uninit k u_local_block) local_size) local_size)
    as (u & -> & Hu); [lia|by apply length_malloc; lia|].
  cbn [mbind option_bind].
  destruct (forward_local_spec k local_size (beta_local a) (r_local a)
              (malloc (uninit k phi_local_block) local_size)
              (malloc (uninit k psi_local_block) local_size))
    as (phi & psi & -> & Hswept); [done..|by apply length_malloc; lia
                                   |by apply length_malloc; lia|].
  cbn [mbind option_bind]. eexists. split; [reflexivity|].
  pose proof Hswept as (Hlphi & Hlpsi & _).
  unfold lr_local. wsimpl. split_and!; [done..|].
  by eapply forward_affine_any.
Qed.

Lemma solver_phase2_any (k : Z) (w : worker) :
  0 ≤ k →
  lr_local local_size B G R k w →
  ∃ wu, solver_phase2 k w = Some wu ∧ lr_anchor local_size B G R k wu.
Proof.
  intros Hk (Ha & Hu & Hphi & Hpsi & Haff).
  pose proof Ha as ([Hlb Hbeta] & _ & [Hlr Hrl] & _).
  unfold solver_phase2, forward_anchor. case_bool_decide as Hk0.
  - subst k. access. eexists (_, _). split; [reflexivity|].
    split.
    + unfold lr_local. wsimpl. rewrite length_upd.
      by split_and!.
    + intros _. wsimpl. rewrite sel_upd_eq by lia.
      rewrite Hbeta, Hrl by lia. done.
  - cbn [mbind option_bind]. eexists (_, _). split; [reflexivity|].
    split; [by split_and!|done].
Qed.

(** The reduced recurrence carries the coupling scalars from rank to rank. *)
Lemma u_rec_coupling_any (phi_lasts psi_lasts : list Qc) (k : nat) :
  (∀ j : nat, Z.of_nat j < nprocs →
     (sel phi_lasts (Z.of_nat j)
      + fwd_coupling local_size B R (Z.of_nat j) * sel psi_lasts (Z.of_nat j))%Qc
     = fwd_at B R (Z.of_nat j * local_size + (local_size - 1))) →
  Z.of_nat k < nprocs →
  u_rec phi_lasts psi_lasts (fwd_at B R 0) k = fwd_coupling local_size B R (Z.of_nat k).
Proof.
  intros Hlasts. induction k as [|k IH]; intros Hk.
  - done.
  - cbn [u_rec]. rewrite IH by lia.
    rewrite (Qcmult_comm (sel psi_lasts _)), Hlasts by lia.
    unfold fwd_coupling. rewrite bool_decide_eq_false_2 by lia. f_equal. lia.
Qed.

Lemma solver_phase3_any (phi_lasts psi_lasts : list Qc) (u_first : Qc)
    (k : Z) (w : worker) :
  0 ≤ k < nprocs →
  Z.of_nat (length phi_lasts) = nprocs →
  Z.of_nat (length psi_lasts) = nprocs →
  (∀ j : nat, Z.of_nat j < nprocs →
     (sel phi_lasts (Z.of_nat j)
      + fwd_coupling local_size B R (Z.of_nat j) * sel psi_lasts (Z.of_nat j))%Qc
     = fwd_at B R (Z.of_nat j * local_size + (local_size - 1))) →
  u_first = fwd_at B R 0 →
  lr_anchor local_size B G R k (w, u_first) →
  ∃ w', solver_phase3 local_size phi_lasts psi_lasts u_first k w = Some w' ∧
        lr_done local_size B G R k w'.
Proof.
  intros Hk Hlphi Hlpsi Hlasts -> [(Ha & Hu & Hphi & Hpsi & Haff) Hanchor].
  cbn [fst snd] in *. unfold solver_phase3.
  assert (forward_resolve k phi_lasts psi_lasts (fwd_at B R 0) (w_u_tilda w)
          = Some (fwd_coupling local_size B R k)) as ->.
  { destruct (decide (k = 0)) as [->|Hk0].
    - unfold forward_resolve. rewrite bool_decide_eq_false_2 by (intros Hne; by apply Hne).
      destruct (Hanchor eq_refl) as [-> _]. done.
    - rewrite forward_resolve_spec by lia. f_equal.
      replace k with (Z.of_nat (Z.to_nat k)) by lia.
      rewrite u_tilda_closed_rec. apply u_rec_coupling_any; [done|lia]. }
  cbn [mbind option_bind].
  destruct (forward_combine_spec local_size (w_phi w) (w_psi w)
              (fwd_coupling local_size B R k) (w_u w))
    as (u & -> & Hlu & Hcomb); [lia|done..|].
  cbn [mbind option_bind]. eexists. split; [reflexivity|].
  unfold lr_done. wsimpl. split_and!; try done.
  split; [done|]. intros i Hi.
  rewrite Hcomb, Haff by done. f_equal. nia.
Qed.

Lemma solver_phase4_any (gam_firsts : list Qc) (k : Z) (w : worker) :
  0 ≤ k < nprocs →
  Z.of_nat (length gam_firsts) = nprocs →
  (∀ j : nat, Z.of_nat j < nprocs →
     sel gam_firsts (Z.of_nat j) = sel G (Z.of_nat j * local_size)) →
  lr_done local_size B G R k w →
  ∃ w', solver_phase4 nprocs local_size gam_firsts k w = Some w' ∧
        rl_local nprocs local_size B G R k w'.
Proof.
  intros Hk Hlgf Hgf (Ha & Hu & Hphi & Hpsi & _).
  pose proof Ha as (_ & Hgam & _). unfold solver_phase4.
  destruct (backward_local_spec k nprocs local_size (w_u w)
              (gam_local (w_args w)) gam_firsts (w_phi w) (w_psi w))
    as (phi & psi & -> & Hswept);
    [done|by destruct Hu|by destruct Hgam|done|done|lia|].
  cbn [mbind option_bind]. eexists. split; [reflexivity|].
  pose proof Hswept as (Hlphi & Hlpsi & _).
  unfold rl_local. wsimpl. split_and!; [done..|].
  eapply backward_affine_any; try done.
  intros Hlast. replace (k + 1) with (Z.of_nat (Z.to_nat (k + 1))) by lia.
  apply Hgf. lia.
Qed.

Lemma solver_phase5_any (k : Z) (w : worker) :
  0 ≤ k < nprocs →
  rl_local nprocs local_size B G R k w →
  ∃ wx, solver_phase5 nprocs local_size k w = Some wx ∧
        rl_anchor nprocs local_size B G R k wx.
Proof.
  intros Hk (Ha & Hu & Hphi & Hpsi & Haff).
  pose proof Ha as (Hbeta & Hgam & Hrl & Hx). pose proof Hu as [Hlu Hsel].
  unfold solver_phase5, backward_anchor. case_bool_decide as Hlast.
  - access. eexists (_, _). split; [reflexivity|]. split.
    + unfold rl_local, args_hold. wsimpl. rewrite length_upd.
      by split_and!.
    + intros _. wsimpl. rewrite sel_upd_eq by lia. rewrite Hsel by lia.
      replace (Z.of_nat (Z.to_nat (k * local_size + (local_size - 1))))
        with (Z.of_nat (length R) - 1) by nia.
      rewrite <- (sol_at_last B G R) by nia. by rewrite Hr.
  - cbn [mbind option_bind]. eexists (_, _). split; [reflexivity|].
    split; [|done]. unfold rl_local, args_hold. wsimpl.
    by split_and!.
Qed.

(** The mirrored recurrence carries the coupling scalars from rank to rank,
    right to left. *)
Lemma x_rec_coupling_any (phi_firsts psi_firsts : list Qc) (m : nat) :
  (∀ j : nat, Z.of_nat j < nprocs →
     (sel phi_firsts (Z.of_nat j)
      + sol_coupling nprocs local_size B G R (Z.of_nat j) * sel psi_firsts (Z.of_nat j))%Qc
     = sol_at B G R (Z.of_nat j * local_size)) →
  Z.of_nat m < nprocs →
  x_rec nprocs phi_firsts psi_firsts (sol_at B G R (nprocs * local_size - 1)) m
  = sol_coupling nprocs local_size B G R (nprocs - 1 - Z.of_nat m).
Proof.
  intros Hfirsts. induction m as [|m IH]; intros Hm.
  - cbn [x_rec]. unfold sol_coupling. by rewrite bool_decide_eq_true_2 by lia.
  - cbn [x_rec]. rewrite IH by lia.
    rewrite (Qcmult_comm (sel psi_firsts _)).
    replace (nprocs - 1 - Z.of_nat m)
      with (Z.of_nat (Z.to_nat (nprocs - 1 - Z.of_nat m))) by lia.
    rewrite Hfirsts by lia.
    unfold sol_coupling. rewrite bool_decide_eq_false_2 by lia. f_equal. lia.
Qed.

Lemma solver_phase6_any (phi_firsts psi_firsts : list Qc) (x_last : Qc)
    (k : Z) (w : worker) :
  0 ≤ k < nprocs →
  Z.of_nat (length phi_firsts) = nprocs →
  Z.of_nat (length psi_firsts) = nprocs →
  (∀ j : nat, Z.of_nat j < nprocs →
     (sel phi_firsts (Z.of_nat j)
      + sol_coupling nprocs local_size B G R (Z.of_nat j) * sel psi_firsts (Z.of_nat j))%Qc
     = sol_at B G R (Z.of_nat j * local_size)) →
  x_last = sol_at B G R (nprocs * local_size - 1) →
  rl_anchor nprocs local_size B G R k (w, x_last) →
  ∃ w', solver_phase6 nprocs local_size phi_firsts psi_firsts x_last k w
          = Some w' ∧
        rl_done nprocs local_size B G R k w'.
Proof.
  intros Hk Hlphi Hlpsi Hfirsts -> [(Ha & Hu & Hphi & Hpsi & Haff) Hanchor].
  cbn [fst snd] in *. pose proof Ha as (_ & _ & _ & Hx). unfold solver_phase6.
  assert (backward_resolve k nprocs phi_firsts psi_firsts
            (sol_at B G R (nprocs * local_size - 1)) (w_x_tilda w)
          = Some (sol_coupling nprocs local_size B G R k)) as ->.
  { destruct (decide (k = nprocs - 1)) as [->|Hlast].
    - unfold backward_resolve.
      rewrite bool_decide_eq_false_2 by (intros Hne; by apply Hne).
      destruct (Hanchor eq_refl) as [-> _]. unfold sol_coupling.
      by rewrite bool_decide_eq_true_2.
    - rewrite backward_resolve_spec by lia. f_equal.
      replace k with (nprocs - 2 - Z.of_nat (Z.to_nat (nprocs - 2 - k))) at 1 by lia.
      rewrite x_tilda_closed_rec, x_rec_coupling_any by (done || lia).
      f_equal. lia. }
  cbn [mbind option_bind].
  destruct (backward_combine_spec local_size (w_phi w) (w_psi w)
              (sol_coupling nprocs local_size B G R k) (x_local (w_args w)))
    as (x & -> & Hlx & Hcomb); [lia|done..|].
  cbn [mbind option_bind]. eexists. split; [reflexivity|].
  unfold rl_done. wsimpl. split; [|done]. split; [done|]. intros i Hi.
  rewrite Hcomb, Haff by done. f_equal. nia.
Qed.
End phases_any.

(** ** The solver on the group *)

Section solver_group_any.
Context (uninit : fresh) (P : nat) (n : Z) (B G R : list Qc).
Context (HP : (1 ≤ P)%nat) (Hn : 1 ≤ n) (Hfit : n ≤ INT_MAX).
Context (Hr : Z.of_nat (length R) = Z.of_nat P * n).

Lemma sweep_LR_any (group : list args) :
  length group = P →
  ranked (args_hold n B G R) group →
  ∃ ws, sweep_LR uninit n group = Some ws ∧ length ws = P ∧
        ranked (lr_done n B G R) ws.
Proof.
  intros Hlen Hgroup. unfold sweep_LR.
  destruct (each_rank_spec (solver_phase1 uninit n) (lr_local n B G R) group)
    as (ws1 & -> & Hl1 & H1).
  { intros k a Hk. eapply solver_phase1_any; (done || lia || by apply Hgroup). }
  cbn [mbind option_bind].
  rewrite (MPI_Allgather_spec (λ w, rd (w_phi w) (n - 1)) (λ w, sel (w_phi w) (n - 1)) ws1).
  2: { intros k w Hk. destruct (H1 k w Hk) as (_ & _ & ? & _). apply rd_Some. lia. }
  cbn [mbind option_bind].
  rewrite (MPI_Allgather_spec (λ w, rd (w_psi w) (n - 1)) (λ w, sel (w_psi w) (n - 1)) ws1).
  2: { intros k w Hk. destruct (H1 k w Hk) as (_ & _ & _ & ? & _). apply rd_Some. lia. }
  cbn [mbind option_bind].
  set (phi_lasts := (λ w, sel (w_phi w) (n - 1)) <$> ws1).
  set (psi_lasts := (λ w, sel (w_psi w) (n - 1)) <$> ws1).
  assert (∀ j : nat, Z.of_nat j < Z.of_nat P →
            (sel phi_lasts (Z.of_nat j)
             + fwd_coupling n B R (Z.of_nat j) * sel psi_lasts (Z.of_nat j))%Qc
            = fwd_at B R (Z.of_nat j * n + (n - 1))) as Hlasts.
  { intros j Hj. destruct (lookup_lt_is_Some_2 ws1 j) as [w Hw]; [lia|].
    subst phi_lasts psi_lasts. rewrite !(sel_fmap _ _ _ _ Hw).
    destruct (H1 j w Hw) as (_ & _ & _ & _ & Haff). apply Haff. lia. }
  destruct (each_rank_spec solver_phase2 (lr_anchor n B G R) ws1)
    as (ws2 & -> & Hl2 & H2).
  { intros k w Hk. eapply solver_phase2_any; (done || lia || by apply H1). }
  cbn [mbind option_bind].
  assert (MPI_Bcast 0 (scalars_of ws2) = Some (fwd_at B R 0)) as ->.
  { destruct (lookup_lt_is_Some_2 ws2 O) as [wu Hwu]; [lia|].
    unfold MPI_Bcast, scalars_of. rewrite rd_Some by (rewrite length_fmap; lia).
    f_equal. rewrite (sel_fmap _ _ O _ Hwu).
    destruct (H2 O wu Hwu) as [_ Hanchor]. by destruct (Hanchor eq_refl). }
  cbn [mbind option_bind].
  destruct (each_rank_spec (solver_phase3 n phi_lasts psi_lasts (fwd_at B R 0))
              (lr_done n B G R) (workers_of ws2))
    as (ws3 & Hrun3 & Hl3 & H3).
  { intros k w Hk. unfold workers_of in Hk. rewrite list_lookup_fmap in Hk.
    destruct (ws2 !! k) as [[w' uf]|] eqn:Hwu; [|done]. injection Hk as <-.
    pose proof (lookup_lt_Some _ _ _ Hwu). pose proof (H2 k _ Hwu) as [Hloc Hanchor].
    eapply (solver_phase3_any (Z.of_nat P)); try done; try lia.
    - subst phi_lasts. rewrite length_fmap. lia.
    - subst psi_lasts. rewrite length_fmap. lia.
    - split; [done|]. intros Hk0. destruct (Hanchor Hk0) as [? _]. done. }
  unfold workers_of in Hl3. rewrite length_fmap in Hl3.
  exists ws3. split_and!; [done|lia|done].
Qed.

Lemma sweep_RL_any (ws3 : list worker) :
  length ws3 = P →
  ranked (lr_done n B G R) ws3 →
  ∃ ws, sweep_RL (Z.of_nat P) n ws3 = Some ws ∧ length ws = P ∧
        ranked (rl_done (Z.of_nat P) n B G R) ws.
Proof.
  intros Hl3 H3. unfold sweep_RL.
  rewrite (MPI_Allgather_spec (λ w, rd (gam_local (w_args w)) 0) (λ w, sel (gam_local (w_args w)) 0) ws3).
  2: { intros k w Hk. destruct (H3 k w Hk) as ((_ & [? _] & _) & _).
       apply rd_Some. lia. }
  cbn [mbind option_bind].
  set (gam_firsts := (λ w, sel (gam_local (w_args w)) 0) <$> ws3).
  destruct (each_rank_spec (solver_phase4 (Z.of_nat P) n gam_firsts)
              (rl_local (Z.of_nat P) n B G R) ws3)
    as (ws4 & -> & Hl4 & H4).
  { intros k w Hk. pose proof (lookup_lt_Some _ _ _ Hk).
    eapply solver_phase4_any; try done; try lia.
    - subst gam_firsts. rewrite length_fmap. lia.
    - intros j Hj. destruct (lookup_lt_is_Some_2 ws3 j) as [w' Hw']; [lia|].
      subst gam_firsts. rewrite (sel_fmap _ _ _ _ Hw').
      destruct (H3 j w' Hw') as ((_ & [_ Hgam] & _) & _).
      rewrite Hgam by lia. f_equal. lia.
    - by apply H3. }
  cbn [mbind option_bind].
  rewrite (MPI_Allgather_spec (λ w, rd (w_phi w) 0) (λ w, sel (w_phi w) 0) ws4).
  2: { intros k w Hk. destruct (H4 k w Hk) as (_ & _ & ? & _). apply rd_Some. lia. }
  cbn [mbind option_bind].
  rewrite (MPI_Allgather_spec (λ w, rd (w_psi w) 0) (λ w, sel (w_psi w) 0) ws4).
  2: { intros k w Hk. destruct (H4 k w Hk) as (_ & _ & _ & ? & _). apply rd_Some. lia. }
  cbn [mbind option_bind].
  set (phi_firsts := (λ w, sel (w_phi w) 0) <$> ws4).
  set (psi_firsts := (λ w, sel (w_psi w) 0) <$> ws4).
  assert (∀ j : nat, Z.of_nat j < Z.of_nat P →
            (sel phi_firsts (Z.of_nat j)
             + sol_coupling (Z.of_nat P) n B G R (Z.of_nat j) * sel psi_firsts (Z.of_nat j))%Qc
            = sol_at B G R (Z.of_nat j * n)) as Hfirsts.
  { intros j Hj. destruct (lookup_lt_is_Some_2 ws4 j) as [w Hw]; [lia|].
    subst phi_firsts psi_firsts. rewrite !(sel_fmap _ _ _ _ Hw).
    destruct (H4 j w Hw) as (_ & _ & _ & _ & Haff).
    rewrite Haff by lia. f_equal. lia. }
  destruct (each_rank_spec (solver_phase5 (Z.of_nat P) n)
              (rl_anchor (Z.of_nat P) n B G R) ws4)
    as (ws5 & -> & Hl5 & H5).
  { intros k w Hk. pose proof (lookup_lt_Some _ _ _ Hk).
    eapply solver_phase5_any; try done; try lia. by apply H4. }
  cbn [mbind option_bind].
  assert (MPI_Bcast (Z.of_nat P - 1) (scalars_of ws5)
          = Some (sol_at B G R (Z.of_nat P * n - 1))) as ->.
  { destruct (lookup_lt_is_Some_2 ws5 (P - 1)) as [wx Hwx]; [lia|].
    unfold MPI_Bcast, scalars_of. rewrite rd_Some by (rewrite length_fmap; lia).
    f_equal. replace (Z.of_nat P - 1) with (Z.of_nat (P - 1)) by lia.
    rewrite (sel_fmap _ _ _ _ Hwx).
    destruct (H5 _ wx Hwx) as [_ Hanchor].
    destruct Hanchor as [_ ->]; [lia|done]. }
  cbn [mbind option_bind].
  destruct (each_rank_spec
              (solver_phase6 (Z.of_nat P) n phi_firsts psi_firsts
                 (sol_at B G R (Z.of_nat P * n - 1)))
              (rl_done (Z.of_nat P) n B G R) (workers_of ws5))
    as (ws6 & Hrun6 & Hl6 & H6).
  { intros k w Hk. unfold workers_of in Hk. rewrite list_lookup_fmap in Hk.
    destruct (ws5 !! k) as [[w' xl]|] eqn:Hwx; [|done]. injection Hk as <-.
    pose proof (lookup_lt_Some _ _ _ Hwx). pose proof (H5 k _ Hwx) as [Hloc Hanchor].
    eapply (solver_phase6_any (Z.of_nat P)); try done; try lia.
    - subst phi_firsts. rewrite length_fmap. lia.
    - subst psi_firsts. rewrite length_fmap. lia.
    - split; [done|]. intros Hk0. destruct (Hanchor Hk0) as [? _]. done. }
  unfold workers_of in Hl6. rewrite length_fmap in Hl6.
  exists ws6. split_and!; [done|lia|done].
Qed.

Lemma solver_group_any (group : list args) :
  length group = P →
  ranked (args_hold n B G R) group →
  ∃ ws,
    nonperiodic_tridiagonal_solver uninit (Z.of_nat P * n) group
      = Some ((λ w, Solved (x_local (w_args w))) <$> ws) ∧
    length ws = P ∧
    ranked (rl_done (Z.of_nat P) n B G R) ws.
Proof.
  intros Hlen Hgroup. unfold nonperiodic_tridiagonal_solver. rewrite Hlen.
  cbv zeta. rewrite (Z.mul_comm _ n), Z.rem_mul, Z.quot_mul by lia.
  rewrite to_int_fits by (unfold INT_MAX in *; lia).
  rewrite bool_decide_eq_false_2 by (intros Hne; by apply Hne).
  destruct (sweep_LR_any group) as (ws3 & -> & Hl3 & H3); [done..|].
  cbn [mbind option_bind].
  destruct (sweep_RL_any ws3) as (ws6 & -> & Hl6 & H6); [done..|].
  cbn [mbind option_bind]. by exists ws6.
Qed.
End solver_group_any.

(** ** A group as the blocks of its concatenated buffers *)

Lemma sel_app_l (l1 l2 : list Qc) (i : Z) :
  0 ≤ i < Z.of_nat (length l1) → sel (l1 ++ l2) i = sel l1 i.
Proof.
  intros Hi. unfold sel, rd. rewrite bool_decide_eq_true_2 by lia.
  by rewrite lookup_app_l by lia.
Qed.

Lemma sel_app_r (l1 l2 : list Qc) (i : Z) :
  Z.of_nat (length l1) ≤ i → sel (l1 ++ l2) i = sel l2 (i - Z.of_nat (length l1)).
Proof.
  intros Hi. unfold sel, rd. rewrite !bool_decide_eq_true_2 by lia.
  rewrite lookup_app_r by lia. do 2 f_equal. lia.
Qed.

Lemma length_mjoin_blocks (n : Z) (bs : list (list Qc)) :
  Forall (λ b, Z.of_nat (length b) = n) bs →
  Z.of_nat (length (mjoin bs)) = Z.of_nat (length bs) * n.
Proof.
  induction 1 as [|b bs Hb _ IH]; [done|].
  change (mjoin (b :: bs)) with (b ++ mjoin bs).
  rewrite length_app. cbn [length]. nia.
Qed.

(** Every block of a concatenation of blocks of [n] cells is the block its
    position owns. *)
Lemma owns_mjoin (n : Z) (bs : list (list Qc)) (k : nat) (b : list Qc) :
  0 ≤ n →
  Forall (λ b, Z.of_nat (length b) = n) bs →
  bs !! k = Some b →
  owns n (Z.of_nat k) (λ g, sel (mjoin bs) (Z.of_nat g)) b.
Proof.
  intros Hn Hbs. revert k b.
  induction Hbs as [|b0 bs Hb0 Hbs IH]; intros k b Hk.
  - by rewrite lookup_nil in Hk.
  - change (mjoin (b0 :: bs)) with (b0 ++ mjoin bs).
    destruct k as [|k]; simpl in Hk.
    + injection Hk as <-. split; [done|]. intros i Hi.
      rewrite Z2Nat.id by lia. rewrite sel_app_l by lia. f_equal; lia.
    + destruct (IH k b Hk) as [Hlen Hsel]. split; [done|]. intros i Hi.
      rewrite Z2Nat.id by lia. rewrite sel_app_r by nia.
      rewrite Hsel by done. rewrite Z2Nat.id by nia. f_equal; nia.
Qed.

Lemma Forall_fmap_shape {A : Type} (f : A → list Qc) (Q : A → Prop) (n : Z)
    (l : list A) :
  (∀ a, Q a → Z.of_nat (length (f a)) = n) →
  Forall Q l → Forall (λ b, Z.of_nat (length b) = n) (f <$> l).
Proof.
  intros HQ Hl. apply Forall_fmap. induction Hl as [|a l Ha _ IH]; constructor.
  - by apply HQ.
  - done.
Qed.

(** The ranks of a group with buffers of [n] cells hold the blocks of the
    concatenated buffers. *)
Lemma group_args_hold (n : Z) (group : list args) :
  0 ≤ n →
  Forall (args_shape n) group →
  ranked (args_hold n (mjoin (beta_local <$> group)) (mjoin (gam_local <$> group))
            (mjoin (r_local <$> group))) group.
Proof.
  intros Hn Hshape k a Hk.
  pose proof (Forall_lookup_1 _ _ _ _ Hshape Hk) as (_ & _ & _ & Hx).
  split_and!; [..|done];
    (apply owns_mjoin;
     [ done
     | apply (Forall_fmap_shape _ (args_shape n)); [by intros ? (? & ? & ? & ?)|done]
     | by rewrite list_lookup_fmap, Hk ]).
Qed.

(** The blocks the ranks own, joined, are the global array. *)
Lemma join_owned_list (n : Z) (l : list Qc) (bs : list (list Qc)) :
  0 ≤ n →
  Z.of_nat (length l) = Z.of_nat (length bs) * n →
  (∀ (k : nat) b, bs !! k = Some b →
     owns n (Z.of_nat k) (λ g, sel l (Z.of_nat g)) b) →
  mjoin bs = l.
Proof.
  intros Hn Hlen Hbs.
  rewrite (join_owned n (λ g, sel l (Z.of_nat g)) bs O) by done.
  replace (length bs * Z.to_nat n)%nat with (length l) by nia.
  apply fmap_sel_seq.
Qed.

Section solver_any.
Context (uninit : fresh) (n : Z) (group : list args).
Context (Hn : 1 ≤ n) (Hgroup : group ≠ []).
Context (Hshape : Forall (args_shape n) group).

Local Abbreviation B := (mjoin (beta_local <$> group)).
Local Abbreviation G := (mjoin (gam_local <$> group)).
Local Abbreviation R := (mjoin (r_local <$> group)).
Local Abbreviation P := (length group).

Lemma group_rhs_length : Z.of_nat (length R) = Z.of_nat P * n.
Proof.
  rewrite (length_mjoin_blocks n), length_fmap; [done|].
  apply (Forall_fmap_shape _ (args_shape n)); [by intros ? (? & ? & ? & ?)|done].
Qed.

Lemma group_nonempty : (1 ≤ P)%nat.
Proof. destruct group; [done|simpl; lia]. Qed.

(** The left-to-right sweep on any group with buffers of [n] cells. *)
Lemma sweep_LR_group :
  ∃ ws, sweep_LR uninit n group = Some ws ∧ length ws = P ∧
        ranked (lr_done n B G R) ws.
Proof.
  apply (sweep_LR_any uninit P n B G R);
    [apply group_nonempty|done|apply group_rhs_length|done|].
  apply group_args_hold; [lia|done].
Qed.

(** The two sweeps in sequence. *)
Lemma sweeps_group :
  ∃ ws3 ws,
    sweep_LR uninit n group = Some ws3 ∧ length ws3 = P ∧
    ranked (lr_done n B G R) ws3 ∧
    sweep_RL (Z.of_nat P) n ws3 = Some ws ∧ length ws = P ∧
    ranked (rl_done (Z.of_nat P) n B G R) ws.
Proof.
  destruct sweep_LR_group as (ws3 & Hrun3 & Hl3 & H3).
  destruct (sweep_RL_any P n B G R group_nonempty Hn group_rhs_length ws3)
    as (ws & Hrun & Hl & Hws); [done..|].
  by exists ws3, ws.
Qed.

Context (Hfit : n ≤ INT_MAX).

(** The solver on any group with buffers of [n] cells: every rank ends
    with its block of the two sweeps over the concatenated buffers. *)
Lemma solver_group :
  ∃ xs,
    nonperiodic_tridiagonal_solver uninit (Z.of_nat P * n) group
      = Some (Solved <$> xs) ∧
    length xs = P ∧
    Forall (λ x, Z.of_nat (length x) = n) xs ∧
    mjoin xs = two_sweeps B G R.
Proof.
  destruct (solver_group_any uninit P n B G R group_nonempty Hn Hfit
              group_rhs_length group) as (ws & Hrun & Hl & Hws); [done| |].
  { apply group_args_hold; [lia|done]. }
  exists ((λ w, x_local (w_args w)) <$> ws). split_and!.
  - rewrite Hrun. by rewrite <- list_fmap_compose.
  - by rewrite length_fmap.
  - apply Forall_fmap, Forall_lookup_2. intros k w Hk.
    by destruct (Hws k w Hk) as [[? _] _].
  - apply (join_owned_list n); [lia| |].
    + rewrite length_two_sweeps, length_fmap, Hl. apply group_rhs_length.
    + intros k x [w [-> Hw]]%list_lookup_fmap_Some.
      by destruct (Hws k w Hw) as [? _].
Qed.
End solver_any.

(** Lists of blocks of [n] cells with the same concatenation are equal. *)
Lemma mjoin_blocks_inj (n : Z) (xs ys : list (list Qc)) :
  Forall (λ x, Z.of_nat (length x) = n) xs →
  Forall (λ y, Z.of_nat (length y) = n) ys →
  length xs = length ys →
  mjoin xs = mjoin ys → xs = ys.
Proof.
  intros Hxs. revert ys. induction Hxs as [|x xs Hx _ IH]; intros ys Hys Hlen Hjoin.
  - by destruct ys.
  - destruct Hys as [|y ys Hy Hys]; [done|].
    change (x ++ mjoin xs = y ++ mjoin ys) in Hjoin.
    apply app_inj_1 in Hjoin as [-> Hrest]; [|lia].
    f_equal. apply IH; [done|by injection Hlen|done].
Qed.

(** The pipeline on ranks with buffers of [local_size >= 1] cells, whether
    or not the size is a multiple of the number of ranks. *)
Lemma precompute_group_blocks (N : Z) (bufs : list (list Qc * list Qc)) :
  1 ≤ N `quot` Z.of_nat (length bufs) ≤ INT_MAX →
  Forall (λ bg, Z.of_nat (length bg.1) = N `quot` Z.of_nat (length bufs) ∧
                Z.of_nat (length bg.2) = N `quot` Z.of_nat (length bufs)) bufs →
  ∃ out,
    precompute_group N bufs = Some (out, []) ∧ length out = length bufs ∧
    ∀ (k : nat) b g, out !! k = Some (b, g) →
      owns (N `quot` Z.of_nat (length bufs)) (Z.of_nat k) beta_seq b ∧
      owns (N `quot` Z.of_nat (length bufs)) (Z.of_nat k) gam_seq g.
Proof.
  intros Hn Hshape. unfold precompute_group.
  pose proof (to_int_fits (N `quot` Z.of_nat (length bufs))
                ltac:(unfold INT_MAX in *; lia)) as Hint.
  pose proof (precompute_ranks_spec (Z.of_nat (length bufs)) N bufs 0 [])
    as Hranks.
  cbv zeta in Hranks. rewrite Hint in Hranks.
  destruct Hranks as (out & Hrun & Hlout & Hout); [lia|done|lia| |done|].
  { intros k b g Hk. by apply (Forall_lookup_1 _ _ _ _ Hshape Hk). }
  exists out. split_and!; [done..|]. intros k b g Hk.
  specialize (Hout k b g Hk). by rewrite Z.add_0_l in Hout.
Qed.

(** ** The two sweeps are linear in the right-hand side *)

Lemma sel_axpy (c : Qc) (a b : list Qc) (i : Z) :
  length a = length b →
  sel (axpy c a b) i = (c * sel a i + sel b i)%Qc.
Proof.
  intros Hlen. unfold sel, rd, axpy. case_bool_decide as Hi; [|simpl; ring].
  rewrite lookup_zip_with.
  destruct (a !! Z.to_nat i) as [x|] eqn:Ha.
  - destruct (lookup_lt_is_Some_2 b (Z.to_nat i)) as [y Hb].
    { rewrite <- Hlen. by eapply lookup_lt_Some. }
    rewrite Hb. done.
  - rewrite (lookup_ge_None_2 b) by (rewrite <- Hlen; by apply lookup_ge_None_1).
    simpl. ring.
Qed.

Lemma forward_pass_axpy (c : Qc) (B R1 R2 : list Qc) (g : nat) :
  length R1 = length R2 →
  forward_pass B (axpy c R1 R2) g
  = (c * forward_pass B R1 g + forward_pass B R2 g)%Qc.
Proof.
  intros Hlen. induction g as [|g IH]; cbn [forward_pass].
  - rewrite sel_axpy by done. ring.
  - rewrite sel_axpy, IH by done. ring.
Qed.

Lemma backward_pass_axpy (c : Qc) (G : list Qc) (u1 u2 u3 : nat → Qc)
    (last m : nat) :
  (∀ g, u3 g = (c * u1 g + u2 g)%Qc) →
  backward_pass G u3 last m
  = (c * backward_pass G u1 last m + backward_pass G u2 last m)%Qc.
Proof.
  intros Hu. induction m as [|m IH]; cbn [backward_pass].
  - apply Hu.
  - rewrite Hu, IH. ring.
Qed.

Lemma fmap_axpy (c : Qc) (f1 f2 f3 : nat → Qc) (l : list nat) :
  (∀ g, f3 g = (c * f1 g + f2 g)%Qc) →
  f3 <$> l = axpy c (f1 <$> l) (f2 <$> l).
Proof.
  intros Hf. induction l as [|g l IH]; [done|].
  unfold axpy in *. cbn [fmap list_fmap zip_with]. by rewrite Hf, <- IH.
Qed.

Lemma length_axpy (c : Qc) (a b : list Qc) :
  length a = length b → length (axpy c a b) = length a.
Proof. intros Hlen. unfold axpy. rewrite length_zip_with. lia. Qed.

Lemma two_sweeps_axpy (c : Qc) (B G R1 R2 : list Qc) :
  length R1 = length R2 →
  two_sweeps B G (axpy c R1 R2)
  = axpy c (two_sweeps B G R1) (two_sweeps B G R2).
Proof.
  intros Hlen. unfold two_sweeps. cbv zeta.
  rewrite length_axpy, <- Hlen by done.
  apply fmap_axpy. intros g.
  apply backward_pass_axpy. intros g'. by apply forward_pass_axpy.
Qed.

(** ** The pipeline's coefficients in the sweeps and in the elimination *)

(** With the coefficients of the pipeline the forward pass is the
    right-hand side after forward elimination. *)
Lemma forward_pass_pipeline (B R : list Qc) (g : nat) :
  B = beta_seq <$> seq 0 (length B) →
  (g < length B)%nat →
  forward_pass B R g = u_seq R g.
Proof.
  intros HB. induction g as [|g IH]; intros Hg; cbn [forward_pass u_seq].
  - rewrite HB, sel_fmap_seq by lia. done.
  - rewrite IH by lia. rewrite HB at 1. rewrite sel_fmap_seq by lia.
    by rewrite Nat2Z.id.
Qed.

(** Every coefficient [beta] of the global recurrence is the reciprocal of
    the pivot of its row. *)
Lemma pivots_beta_seq (l : list Qc) (k : nat) (cp : Qc) :
  (k = O → cp = 0%Qc) →
  (∀ j, k = S j → cp = (third * beta_seq j)%Qc) →
  Forall2 (λ b p, (b * p)%Qc = 1%Qc)
    (beta_seq <$> seq k (length l)) (pivots cp (system_rows l)).
Proof.
  revert k cp. induction l as [|d l IH]; intros k cp H0 HS; [constructor|].
  cbn [system_rows fmap list_fmap pivots length seq]. cbv zeta.
  assert ((beta_seq k * (1 - third * cp))%Qc = 1%Qc
          ∧ (third / (1 - third * cp))%Qc = (third * beta_seq k)%Qc) as [Eb Ec].
  { destruct k as [|j].
    - rewrite (H0 eq_refl). cbn [beta_seq]. split; [ring|field; done].
    - rewrite (HS j eq_refl). cbn [beta_seq].
      replace (1 - third * (third * beta_seq j))%Qc
        with (1 - third * beta_seq j * third)%Qc by ring.
      pose proof (beta_seq_bounds j) as (_ & _ & _ & Hpos & _).
      apply Qclt_not_eq in Hpos. split; [field; intros E; apply Hpos; by rewrite <- E|].
      unfold Qcdiv. ring. }
  constructor; [done|]. rewrite Ec. apply IH; [done|]. by intros j [= <-].
Qed.

(** A block of an array that holds a global sequence owns its part of the
    sequence. *)
Lemma owns_sequence (n k : Z) (f : nat → Qc) (M : nat) (l a : list Qc) :
  0 ≤ k → 0 ≤ n →
  l = f <$> seq 0 M →
  (k + 1) * n ≤ Z.of_nat M →
  owns n k (λ g, sel l (Z.of_nat g)) a →
  owns n k f a.
Proof.
  intros Hk Hn Hl HM [Hlen Hsel]. split; [done|]. intros i Hi.
  rewrite Hsel by done. rewrite Hl, sel_fmap_seq by nia. by rewrite Nat2Z.id.
Qed.

(** The solver on a group whose coefficient buffers hold the global
    recurrence of the pipeline: the outputs are the reference solution. *)
Lemma solver_group_pipeline (uninit : fresh) (N : Z) (group : list args) :
  0 < N →
  N `rem` Z.of_nat (length group) = 0 →
  N `quot` Z.of_nat (length group) ≤ INT_MAX →
  Forall (args_shape (N `quot` Z.of_nat (length group))) group →
  mjoin (beta_local <$> group) = beta_seq <$> seq 0 (Z.to_nat N) →
  mjoin (gam_local <$> group) = gam_seq <$> seq 0 (Z.to_nat N) →
  ∃ xs,
    nonperiodic_tridiagonal_solver uninit N group = Some (Solved <$> xs) ∧
    mjoin xs = thomas_solution (mjoin (r_local <$> group)).
Proof.
  intros HN Hdiv Hfit Hshape HB HG.
  destruct (group_shape (length group) N HN Hdiv) as (HP & Hn & HNn).
  set (n := N `quot` Z.of_nat (length group)) in *.
  pose proof (group_rhs_length n group Hshape) as HR.
  destruct (solver_group_spec uninit (length group) n (mjoin (r_local <$> group))
              HP Hn Hfit HR group) as (ws & Hrun & Hl & Hws); [done| |].
  { intros k a Hk. pose proof (lookup_lt_Some _ _ _ Hk) as Hlt.
    destruct (group_args_hold n group ltac:(lia) Hshape k a Hk)
      as (Hb & Hg & Hr & Hx).
    assert ((Z.of_nat k + 1) * n ≤ Z.of_nat (Z.to_nat N)) as HkN.
    { rewrite Z2Nat.id by lia. rewrite HNn at 1.
      apply Z.mul_le_mono_nonneg_r; lia. }
    split_and!; [| |done|done].
    - apply (owns_sequence n (Z.of_nat k) beta_seq (Z.to_nat N)
               (mjoin (beta_local <$> group))); (done || lia).
    - apply (owns_sequence n (Z.of_nat k) gam_seq (Z.to_nat N)
               (mjoin (gam_local <$> group))); (done || lia). }
  exists ((λ w, x_local (w_args w)) <$> ws). split.
  - rewrite HNn, Hrun. by rewrite <- list_fmap_compose.
  - apply (join_owned_list n); [lia| |].
    + pose proof (thomas_solution_length (mjoin (r_local <$> group))).
      rewrite length_fmap, Hl. lia.
    + intros k x [w [-> Hw]]%list_lookup_fmap_Some. apply (Hws k w Hw).
Qed.

(** ** One rank of the pipeline on a received value in [1, 2) *)

(** One step of the recurrence keeps a value in [1, 2) and divides by a
    positive number. *)
Lemma beta_step_range (b : Qc) :
  (1 ≤ b)%Qc → (b < 1 + 1)%Qc →
  (0 < 1 - third * b * third)%Qc ∧
  (1 ≤ 1 / (1 - third * b * third))%Qc ∧
  (1 / (1 - third * b * third) < 1 + 1)%Qc.
Proof.
  intros H1%Qc2R_le H2%Qc2R_lt. rewrite Qc2R_1 in H1.
  rewrite Qc2R_plus, Qc2R_1 in H2.
  assert (0 < 1 - 1 / 3 * Qc2R b * (1 / 3))%R as Hd by lra.
  assert (Qc2R (1 / (1 - third * b * third))
          = (9 / (9 - Qc2R b))%R) as E.
  { unfold Qcdiv.
    rewrite Qc2R_mult, Qc2R_1, Qc2R_inv;
      rewrite Qc2R_minus, !Qc2R_mult, Qc2R_1, Qc2R_third; [|lra].
    field. lra. }
  split_and!.
  - apply Qc2R_lt.
    rewrite Qc2R_0, Qc2R_minus, !Qc2R_mult, Qc2R_1, Qc2R_third. lra.
  - apply Qc2R_le. rewrite Qc2R_1, E.
    apply (Rmult_le_reg_r (9 - Qc2R b)); [lra|].
    replace (9 / (9 - Qc2R b) * (9 - Qc2R b))%R with 9%R by (field; lra). lra.
  - apply Qc2R_lt. rewrite Qc2R_plus, Qc2R_1, E.
    apply (Rmult_lt_reg_r (9 - Qc2R b)); [lra|].
    replace (9 / (9 - Qc2R b) * (9 - Qc2R b))%R with 9%R by (field; lra). lra.
Qed.

(** A rank that seeds from a value in [1, 2) fills its block with values
    in [1, 2): none of its divisions is by zero. *)
Lemma pipelined_range (k local_size : Z) (last_beta : Qc) (b g : list Qc) :
  (k ≠ 0 → (1 ≤ last_beta)%Qc ∧ (last_beta < 1 + 1)%Qc) →
  pipelined k last_beta local_size b g →
  ∀ i, 0 ≤ i < local_size → (1 ≤ sel b i)%Qc ∧ (sel b i < 1 + 1)%Qc.
Proof.
  intros Hlast (_ & _ & Hz & Hnz & Hrec).
  assert (∀ i, 0 ≤ i → i < local_size →
            (1 ≤ sel b i)%Qc ∧ (sel b i < 1 + 1)%Qc) as Hall;
    [|intros; apply Hall; lia].
  apply (Z_ind_from (λ i, i < local_size → _)).
  - intros _. destruct (decide (k = 0)) as [Hk|Hk].
    + destruct (Hz Hk) as [-> _]. split; [done|].
      apply Qc2R_lt. rewrite Qc2R_plus, Qc2R_1. lra.
    + destruct (Hnz Hk) as [-> _]. destruct (Hlast Hk) as [H1 H2].
      by destruct (beta_step_range last_beta H1 H2) as (_ & ? & ?).
  - intros i Hi IH Hlt. destruct IH as [H1 H2]; [lia|].
    destruct (Hrec (i + 1)) as [-> _]; [lia|].
    replace (i + 1 - 1) with i by lia.
    by destruct (beta_step_range (sel b i) H1 H2) as (_ & ? & ?).
Qed.

(** * The claims of the specification *)

Lemma Qc_list_eq (l1 l2 : list Qc) : this <$> l1 = this <$> l2 → l1 = l2.
Proof.
  revert l2. induction l1 as [|x l1 IH]; intros [|y l2] Heq; try done.
  injection Heq as Hx Hl. f_equal; [by apply Qc_decomp|by apply IH].
Qed.

Lemma example_thomas : thomas_solution example_rhs = example_solution.
Proof. apply Qc_list_eq. vm_compute. reflexivity. Qed.

Lemma example_matrix_tridiag (y0 y1 y2 y3 : Qc) :
  mat_vec example_matrix [y0; y1; y2; y3]
  = tridiag_apply (system_rows example_rhs) [y0; y1; y2; y3].
Proof.
  unfold mat_vec, example_matrix, tridiag_apply, system_rows, example_rhs.
  cbn [fmap list_fmap dot tridiag_from hd].
  repeat (f_equal; try ring).
Qed.

(** C1 (for the sizes the code can hold).  For every system size
    [N >= 1], every worker count [P] dividing [N] with a block size [N/P]
    that fits the [int] the code stores it in ([N/P <= INT_MAX]) and every
    right-hand side [r] of [N] entries, running [precompute_beta_gam] and
    then [nonperiodic_tridiagonal_solver] on all [P] workers succeeds, and
    the output blocks in rank order are, in exact arithmetic, the solution
    of the direct sequential Thomas elimination of the full system with
    unit diagonal and off-diagonal weight 1/3.  The result is therefore the
    same for every such worker count, and for every content of the memory
    the workers allocate.  That vector solves the system. *)
Theorem parallel_solver_refines_thomas (uninit : fresh) (P : nat) (N : Z)
    (r : list Qc) :
  0 < N →
  N `rem` Z.of_nat P = 0 →
  N `quot` Z.of_nat P ≤ INT_MAX →
  Z.of_nat (length r) = N →
  solve_distributed uninit P N r = Some (thomas_solution r) ∧
  (∀ (uninit' : fresh) (P' : nat),
     N `rem` Z.of_nat P' = 0 →
     N `quot` Z.of_nat P' ≤ INT_MAX →
     solve_distributed uninit' P' N r = solve_distributed uninit P N r) ∧
  tridiag_apply (system_rows r) (thomas_solution r) = r.
Proof.
  intros HN Hdiv Hfit Hr. split_and!.
  - by apply solve_distributed_spec.
  - intros uninit' P' Hdiv' Hfit'. by rewrite !solve_distributed_spec.
  - apply thomas_solution_solves.
Qed.

Lemma parallel_solver_refines_thomas_witness :
  solve_distributed numbered 2 4 example_rhs = Some (thomas_solution example_rhs) ∧
  (∀ (uninit' : fresh) (P' : nat),
     4 `rem` Z.of_nat P' = 0 →
     4 `quot` Z.of_nat P' ≤ INT_MAX →
     solve_distributed uninit' P' 4 example_rhs
     = solve_distributed numbered 2 4 example_rhs) ∧
  tridiag_apply (system_rows example_rhs) (thomas_solution example_rhs)
  = example_rhs.
Proof.
  apply (parallel_solver_refines_thomas numbered 2 4 example_rhs);
    [lia | reflexivity | (vm_compute; discriminate) | reflexivity].
Defined.

(** C1, as the specification states it for every system size, fails at
    both ends of the range.  On the empty system, [N = 0] with one worker,
    the size check passes ([0 % 1 = 0]), [local_size] is 0 and every buffer
    has no cell, yet rank 0 stores at cell 0 ([beta_local[0]] in the
    pipeline, [phi_local[0]] in the solver): no solution is produced, while
    direct elimination of the empty system yields the empty vector.  On the
    system of [N = 2^31] unknowns with one worker the block size does not
    fit [int]: [local_size] is [-2^31], the work buffers of the solver have
    no cell and rank 0 stores [phi_local[0]]; again no solution is
    produced. *)
Lemma system_outside_the_sizes_is_not_solved :
  (precompute_group 0 [([], [])] = None ∧
   solve_distributed zeroed 1 0 [] = None ∧
   thomas_solution [] = []) ∧
  (2147483648 `rem` Z.of_nat 1 = 0 ∧
   to_int (2147483648 `quot` Z.of_nat 1) = -2147483648 ∧
   solve_distributed zeroed 1 2147483648
     (replicate (Z.to_nat 2147483648) 1%Qc) = None).
Proof.
  split.
  - split_and!; reflexivity.
  - split; [reflexivity|]. split; [reflexivity|].
    apply (solve_distributed_without_cells zeroed 2147483648);
      [lia | (vm_compute; discriminate)].
Qed.

(** C2 (for the sizes the code can hold).  For every system size [N]
    divisible by the worker count [P] with a block size [N/P] that fits
    [int]: the pipeline runs to its end on all ranks when [N >= 1], and
    whenever [precompute_beta_gam] has completed on all ranks, no message
    is left in flight and the concatenation of the workers' [beta_local]
    and of their [gam_local] is the sequence of the global recurrence
    [beta[0] = 1], [gam[0] = 0], [beta[i] = 1/(1 - (1/3) beta[i-1] (1/3))],
    [gam[i] = beta[i-1] (1/3)] for [i] from 1 to [N-1]: the hand-off of
    [last_beta] from rank to rank reproduces the sequential recurrence. *)
Theorem pipeline_computes_global_recurrence (P : nat) (N : Z)
    (bufs : list (list Qc * list Qc)) :
  0 ≤ N →
  N `rem` Z.of_nat P = 0 →
  N `quot` Z.of_nat P ≤ INT_MAX →
  length bufs = P →
  Forall (λ bg, Z.of_nat (length bg.1) = N `quot` Z.of_nat P ∧
                Z.of_nat (length bg.2) = N `quot` Z.of_nat P) bufs →
  (0 < N → ∃ out, precompute_group N bufs = Some (out, [])) ∧
  ∀ out net, precompute_group N bufs = Some (out, net) →
    let beta := mjoin (fst <$> out) in
    let gam := mjoin (snd <$> out) in
    net = [] ∧
    beta = beta_seq <$> seq 0 (Z.to_nat N) ∧
    gam = gam_seq <$> seq 0 (Z.to_nat N) ∧
    (0 < N → sel beta 0 = 1%Qc ∧ sel gam 0 = 0%Qc) ∧
    ∀ i, 1 ≤ i < N →
      sel beta i = (1 / (1 - third * sel beta (i - 1) * third))%Qc ∧
      sel gam i = (sel beta (i - 1) * third)%Qc.
Proof.
  intros HN Hdiv Hfit Hlen Hshape.
  destruct (precompute_group_total P N bufs) as [Hruns Hpost]; [done..|].
  split; [done|]. intros out net Hrun. cbv zeta.
  destruct (Hpost out net Hrun) as (-> & -> & ->).
  split_and!; [done..| |].
  - intros HN0. by rewrite !sel_fmap_seq by lia.
  - intros i Hi. rewrite !sel_fmap_seq by lia.
    replace (Z.to_nat i) with (S (Z.to_nat (i - 1))) by lia. done.
Qed.

Lemma pipeline_computes_global_recurrence_witness :
  (0 < 4 →
   ∃ out,
     precompute_group 4 (replicate 2 ([0%Qc; 0%Qc], [0%Qc; 0%Qc]))
     = Some (out, [])) ∧
  ∀ out net,
    precompute_group 4 (replicate 2 ([0%Qc; 0%Qc], [0%Qc; 0%Qc]))
    = Some (out, net) →
    let beta := mjoin (fst <$> out) in
    let gam := mjoin (snd <$> out) in
    net = [] ∧
    beta = beta_seq <$> seq 0 (Z.to_nat 4) ∧
    gam = gam_seq <$> seq 0 (Z.to_nat 4) ∧
    (0 < 4 → sel beta 0 = 1%Qc ∧ sel gam 0 = 0%Qc) ∧
    ∀ i, 1 ≤ i < 4 →
      sel beta i = (1 / (1 - third * sel beta (i - 1) * third))%Qc ∧
      sel gam i = (sel beta (i - 1) * third)%Qc.
Proof.
  apply (pipeline_computes_global_recurrence 2 4);
    [lia | reflexivity | (vm_compute; discriminate) | reflexivity
    | repeat constructor].
Defined.

(** C2, as the specification states it for every system size, fails
    beyond the range of [int].  With [N = 2^32 + 1] unknowns on one worker
    whose two buffers have [N] cells, [N] is a multiple of 1 and
    [local_size] wraps to 1: the rank stores [beta_local[0] = 1] and
    [gam_local[0] = 0], runs no iteration of its loop, sends nothing and
    returns.  The pipeline has completed, yet cell 1 of [beta_local] holds
    what it held before the call, here 0, and not the value 9/8 of the
    recurrence. *)
Lemma oversized_block_is_not_filled :
  4294967297 `rem` Z.of_nat 1 = 0 ∧
  to_int (4294967297 `quot` Z.of_nat 1) = 1 ∧
  ∃ out,
    precompute_group 4294967297
      [(replicate (Z.to_nat 4294967297) 0%Qc,
        replicate (Z.to_nat 4294967297) 0%Qc)]
    = Some (out, []) ∧
    sel (mjoin (fst <$> out)) 0 = 1%Qc ∧
    sel (mjoin (fst <$> out)) 1 = 0%Qc ∧
    sel (mjoin (fst <$> out)) 1
    ≠ (1 / (1 - third * sel (mjoin (fst <$> out)) 0 * third))%Qc.
Proof.
  split; [reflexivity|]. split; [reflexivity|].
  apply (one_rank_wrapped_leaves_cells 4294967297 (Z.to_nat 4294967297));
    [(vm_compute; discriminate) | lia].
Qed.

(** C3.  When [system_size] is not an exact multiple of the worker count,
    every rank prints the diagnostic (with [system_size] and [nprocs]) and
    returns at once; its output buffer [x_local] is exactly the buffer it
    was passed, every entry unchanged. *)
Theorem solver_rejects_indivisible_size (uninit : fresh) (N : Z) (group : list args) :
  N `rem` Z.of_nat (length group) ≠ 0 →
  ∃ outs,
    nonperiodic_tridiagonal_solver uninit N group = Some outs ∧
    length outs = length group ∧
    ∀ (k : nat) (a : args), group !! k = Some a →
      outs !! k = Some (Rejected N (Z.of_nat (length group)) (x_local a)).
Proof.
  intros Hrem. unfold nonperiodic_tridiagonal_solver.
  rewrite bool_decide_eq_true_2 by done. eexists. split; [reflexivity|].
  split; [by rewrite length_fmap|].
  intros k a Hk. by rewrite list_lookup_fmap, Hk.
Qed.

Lemma solver_rejects_indivisible_size_witness :
  ∃ outs,
    nonperiodic_tridiagonal_solver zeroed 3 two_rank_group = Some outs ∧
    length outs = length two_rank_group ∧
    ∀ (k : nat) (a : args), two_rank_group !! k = Some a →
      outs !! k = Some (Rejected 3 (Z.of_nat (length two_rank_group)) (x_local a)).
Proof.
  apply (solver_rejects_indivisible_size zeroed 3 two_rank_group).
  vm_compute. discriminate.
Defined.

(** C4 (as the code has it).  On rank 0 the coupling scalar of the
    left-to-right sweep is computed, not implicit: the rank sets [u_tilda]
    to [beta_local[0] * r_local[0]], and FORWARD_COMBINE on rank 0 computes
    [u_local[i] = phi_local[i] + (beta_local[0] * r_local[0]) * psi_local[i]]
    for every local index [i]; in particular
    [u_local[0] = beta_local[0] * r_local[0]]. *)
Theorem rank0_forward_coupling (uninit : fresh) (local_size : Z) (group : list args)
    (a0 : args) :
  1 ≤ local_size →
  group !! O = Some a0 →
  Forall (λ a, Z.of_nat (length (beta_local a)) = local_size ∧
               Z.of_nat (length (r_local a)) = local_size) group →
  ∃ ws w0,
    sweep_LR uninit local_size group = Some ws ∧ ws !! O = Some w0 ∧
    w_u_tilda w0 = (sel (beta_local a0) 0 * sel (r_local a0) 0)%Qc ∧
    (∀ i, 0 ≤ i < local_size →
       sel (w_u w0) i
       = (sel (w_phi w0) i
          + sel (beta_local a0) 0 * sel (r_local a0) 0 * sel (w_psi w0) i)%Qc) ∧
    sel (w_u w0) 0 = (sel (beta_local a0) 0 * sel (r_local a0) 0)%Qc.
Proof.
  intros Hn Ha0 Hshape.
  destruct (sweep_LR_rank0 uninit local_size group a0)
    as (ws & w0 & Hrun & Hw0 & Ht & Hphi & Hpsi & _ & Hcomb); [done..|].
  exists ws, w0. split_and!; [done..| |].
  - intros i Hi. by apply Hcomb.
  - rewrite Hcomb, Hphi, Hpsi by lia. ring.
Qed.

Lemma rank0_forward_coupling_witness :
  ∃ ws w0,
    sweep_LR zeroed 2 single_rank_group = Some ws ∧ ws !! O = Some w0 ∧
    w_u_tilda w0 = (sel [1%Qc; Q2Qc (9 # 8)] 0 * sel [1%Qc; 1%Qc] 0)%Qc ∧
    (∀ i, 0 ≤ i < 2 →
       sel (w_u w0) i
       = (sel (w_phi w0) i
          + sel [1%Qc; Q2Qc (9 # 8)] 0 * sel [1%Qc; 1%Qc] 0 * sel (w_psi w0) i)%Qc) ∧
    sel (w_u w0) 0 = (sel [1%Qc; Q2Qc (9 # 8)] 0 * sel [1%Qc; 1%Qc] 0)%Qc.
Proof.
  apply (rank0_forward_coupling zeroed 2 single_rank_group
           (Args [1%Qc; Q2Qc (9 # 8)] [0%Qc; Q2Qc (1 # 3)] [1%Qc; 1%Qc]
              [0%Qc; 0%Qc]));
    [lia | reflexivity | repeat constructor].
Defined.

(** C4, as the specification states it, fails: on the one-rank group that
    solves the system of size 2 with right-hand side [1, 1], rank 0 ends the
    left-to-right sweep with [u_tilda = 1], not 0, and with
    [u_local = [1, 3/4]] while [phi_local = [0, 9/8]]. *)
Lemma rank0_coupling_is_not_zero :
  ∃ w0,
    sweep_LR zeroed 2 single_rank_group = Some [w0] ∧
    w_u_tilda w0 = 1%Qc ∧ w_u_tilda w0 ≠ 0%Qc ∧
    this <$> w_u w0 = [1; 3 # 4]%Q ∧
    this <$> w_phi w0 = [0; 9 # 8]%Q ∧
    sel (w_u w0) 0 ≠ sel (w_phi w0) 0 ∧
    sel (w_u w0) 1 ≠ sel (w_phi w0) 1.
Proof.
  eexists. split; [vm_compute; reflexivity|].
  split_and!.
  - by apply Qc_decomp.
  - intros H%(f_equal this). vm_compute in H. discriminate.
  - vm_compute. reflexivity.
  - vm_compute. reflexivity.
  - intros H%(f_equal this). vm_compute in H. discriminate.
  - intros H%(f_equal this). vm_compute in H. discriminate.
Qed.

(** C5.  In the forward local sweep, rank 0 seeds [phi_local[0] = 0] and
    [psi_local[0] = 1]; every other rank seeds
    [phi_local[0] = beta_local[0] * r_local[0]] and
    [psi_local[0] = -(1/3) * beta_local[0]]; and for every local index [i]
    from 1 to [local_size - 1] every rank computes
    [phi_local[i] = beta_local[i] * (r_local[i] - (1/3) * phi_local[i-1])] and
    [psi_local[i] = -(1/3) * beta_local[i] * psi_local[i-1]].  The sweep runs
    to its end on buffers of at least one cell. *)
Theorem forward_local_sweep (rank local_size : Z)
    (beta_local r_local phi0 psi0 : list Qc) :
  Z.of_nat (length beta_local) = local_size →
  Z.of_nat (length r_local) = local_size →
  Z.of_nat (length phi0) = local_size →
  Z.of_nat (length psi0) = local_size →
  (1 ≤ local_size →
   ∃ phi_local psi_local,
     forward_local rank local_size beta_local r_local phi0 psi0
     = Some (phi_local, psi_local)) ∧
  ∀ phi_local psi_local,
    forward_local rank local_size beta_local r_local phi0 psi0
      = Some (phi_local, psi_local) →
    Z.of_nat (length phi_local) = local_size ∧
    Z.of_nat (length psi_local) = local_size ∧
    (rank = 0 → sel phi_local 0 = 0%Qc ∧ sel psi_local 0 = 1%Qc) ∧
    (rank ≠ 0 →
       sel phi_local 0 = (sel beta_local 0 * sel r_local 0)%Qc ∧
       sel psi_local 0 = (- third * sel beta_local 0)%Qc) ∧
    ∀ i, 1 ≤ i < local_size →
      sel phi_local i
        = (sel beta_local i * (sel r_local i - third * sel phi_local (i - 1)))%Qc ∧
      sel psi_local i = (- third * sel beta_local i * sel psi_local (i - 1))%Qc.
Proof.
  intros Hb Hr Hphi Hpsi. destruct (decide (1 ≤ local_size)) as [Hn|Hn].
  - destruct (forward_local_spec rank local_size beta_local r_local phi0 psi0)
      as (phi & psi & Hrun & Hswept); [done..|].
    split; [by exists phi, psi|]. intros phi' psi' Hrun'.
    rewrite Hrun in Hrun'. by injection Hrun' as <- <-.
  - split; [done|]. intros phi psi Hrun.
    assert (local_size = 0) as -> by lia.
    rewrite forward_local_empty in Hrun by lia. done.
Qed.

Lemma forward_local_sweep_witness :
  (1 ≤ 2 →
   ∃ phi_local psi_local,
     forward_local 1 2 [1%Qc; Q2Qc (9 # 8)] [1%Qc; 1%Qc] [0%Qc; 0%Qc] [0%Qc; 0%Qc]
     = Some (phi_local, psi_local)) ∧
  ∀ phi_local psi_local,
    forward_local 1 2 [1%Qc; Q2Qc (9 # 8)] [1%Qc; 1%Qc] [0%Qc; 0%Qc] [0%Qc; 0%Qc]
      = Some (phi_local, psi_local) →
    Z.of_nat (length phi_local) = 2 ∧
    Z.of_nat (length psi_local) = 2 ∧
    (1 = 0 → sel phi_local 0 = 0%Qc ∧ sel psi_local 0 = 1%Qc) ∧
    (1 ≠ 0 →
       sel phi_local 0 = (sel [1%Qc; Q2Qc (9 # 8)] 0 * sel [1%Qc; 1%Qc] 0)%Qc ∧
       sel psi_local 0 = (- third * sel [1%Qc; Q2Qc (9 # 8)] 0)%Qc) ∧
    ∀ i, 1 ≤ i < 2 →
      sel phi_local i
        = (sel [1%Qc; Q2Qc (9 # 8)] i
           * (sel [1%Qc; 1%Qc] i - third * sel phi_local (i - 1)))%Qc ∧
      sel psi_local i
        = (- third * sel [1%Qc; Q2Qc (9 # 8)] i * sel psi_local (i - 1))%Qc.
Proof.
  apply (forward_local_sweep 1 2 [1%Qc; Q2Qc (9 # 8)] [1%Qc; 1%Qc]
           [0%Qc; 0%Qc] [0%Qc; 0%Qc]); reflexivity.
Defined.

(** C6.  For every rank [k > 0] and all gathered vectors [phi_lasts],
    [psi_lasts] (of at least [k] entries) and anchor [u_first], the value
    FORWARD_RESOLVE computes is the closed form -- the sum over [i < k] of
    [phi_lasts[i]] times the product of [psi_lasts[j]] for [j] in (i, k),
    plus [u_first] times the product of [psi_lasts[i]] for [i] in [0, k) --
    and it equals [u_k], the [k]-th term of the recurrence
    [u_j = phi_lasts[j-1] + psi_lasts[j-1] * u_(j-1)] from [u_0 = u_first]. *)
Theorem forward_resolve_unrolls_recurrence (k : Z) (phi_lasts psi_lasts : list Qc)
    (u_first u_tilda0 : Qc) :
  0 < k →
  k ≤ Z.of_nat (length phi_lasts) →
  k ≤ Z.of_nat (length psi_lasts) →
  forward_resolve k phi_lasts psi_lasts u_first u_tilda0
    = Some (u_tilda_closed k phi_lasts psi_lasts u_first) ∧
  u_tilda_closed k phi_lasts psi_lasts u_first
    = u_rec phi_lasts psi_lasts u_first (Z.to_nat k).
Proof.
  intros Hk Hphi Hpsi. split.
  - by apply forward_resolve_spec.
  - rewrite <- u_tilda_closed_rec. f_equal. lia.
Qed.

Lemma forward_resolve_unrolls_recurrence_witness :
  forward_resolve 2 [1%Qc; Q2Qc 2; Q2Qc 3] [Q2Qc 5; Q2Qc 7; Q2Qc 11] 1%Qc 0%Qc
    = Some (u_tilda_closed 2 [1%Qc; Q2Qc 2; Q2Qc 3] [Q2Qc 5; Q2Qc 7; Q2Qc 11] 1%Qc) ∧
  u_tilda_closed 2 [1%Qc; Q2Qc 2; Q2Qc 3] [Q2Qc 5; Q2Qc 7; Q2Qc 11] 1%Qc
    = u_rec [1%Qc; Q2Qc 2; Q2Qc 3] [Q2Qc 5; Q2Qc 7; Q2Qc 11] 1%Qc (Z.to_nat 2).
Proof.
  apply (forward_resolve_unrolls_recurrence 2 [1%Qc; Q2Qc 2; Q2Qc 3]
           [Q2Qc 5; Q2Qc 7; Q2Qc 11] 1%Qc 0%Qc); simpl; lia.
Defined.



(** C8.  For every rank [k < P-1] and all gathered vectors [phi_firsts],
    [psi_firsts] (of [P] entries) and anchor [x_last], BACKWARD_RESOLVE
    computes [x_tilda] as the sum, over ranks [i] from [k+2] to [P-1], of
    [phi_firsts[i]] times the product of [psi_firsts[j]] for [j] in
    [k+1, i), plus [phi_firsts[k+1]], plus [x_last] times the product of
    [psi_firsts[i]] for [i] in [k+1, P); and BACKWARD_COMBINE then sets
    [x_local[i] = phi_local[i] + x_tilda * psi_local[i]] for every local
    index [i]. *)
Theorem backward_resolve_and_combine (k nprocs local_size : Z)
    (phi_firsts psi_firsts : list Qc) (x_last : Qc) (w : worker) :
  0 ≤ k < nprocs - 1 →
  nprocs ≤ Z.of_nat (length phi_firsts) →
  nprocs ≤ Z.of_nat (length psi_firsts) →
  Z.of_nat (length (w_phi w)) = local_size →
  Z.of_nat (length (w_psi w)) = local_size →
  Z.of_nat (length (x_local (w_args w))) = local_size →
  ∃ w',
    solver_phase6 nprocs local_size phi_firsts psi_firsts x_last k w = Some w' ∧
    w_x_tilda w'
      = (sum_range (λ i, sel phi_firsts i * prod_range psi_firsts (k + 1) i)
           (k + 2) nprocs
         + sel phi_firsts (k + 1)
         + x_last * prod_range psi_firsts (k + 1) nprocs)%Qc ∧
    Z.of_nat (length (x_local (w_args w'))) = local_size ∧
    ∀ i, 0 ≤ i < local_size →
      sel (x_local (w_args w')) i
      = (sel (w_phi w) i + w_x_tilda w' * sel (w_psi w) i)%Qc.
Proof.
  intros Hk Hphi Hpsi Hlphi Hlpsi Hlx. unfold solver_phase6.
  rewrite backward_resolve_spec by lia. cbn [mbind option_bind].
  destruct (backward_combine_spec local_size (w_phi w) (w_psi w)
              (x_tilda_closed k nprocs phi_firsts psi_firsts x_last)
              (x_local (w_args w)))
    as (x & -> & Hlen & Hcomb); [lia|done..|].
  cbn [mbind option_bind]. eexists. split; [reflexivity|]. wsimpl.
  by split_and!.
Qed.

Lemma backward_resolve_and_combine_witness :
  ∃ w',
    solver_phase6 3 1 [1%Qc; Q2Qc 2; Q2Qc 3] [Q2Qc 5; Q2Qc 7; Q2Qc 11] 1%Qc 0
      (Worker (Args [1%Qc] [0%Qc] [1%Qc] [Q2Qc 7]) [1%Qc] [1%Qc] [Q2Qc 5]
         1%Qc 0%Qc)
    = Some w' ∧
    w_x_tilda w'
      = (sum_range
           (λ i, sel [1%Qc; Q2Qc 2; Q2Qc 3] i
                 * prod_range [Q2Qc 5; Q2Qc 7; Q2Qc 11] (0 + 1) i)
           (0 + 2) 3
         + sel [1%Qc; Q2Qc 2; Q2Qc 3] (0 + 1)
         + 1 * prod_range [Q2Qc 5; Q2Qc 7; Q2Qc 11] (0 + 1) 3)%Qc ∧
    Z.of_nat (length (x_local (w_args w'))) = 1 ∧
    ∀ i, 0 ≤ i < 1 →
      sel (x_local (w_args w')) i
      = (sel [1%Qc] i + w_x_tilda w' * sel [Q2Qc 5] i)%Qc.
Proof.
  apply (backward_resolve_and_combine 0 3 1 [1%Qc; Q2Qc 2; Q2Qc 3]
           [Q2Qc 5; Q2Qc 7; Q2Qc 11] 1%Qc
           (Worker (Args [1%Qc] [0%Qc] [1%Qc] [Q2Qc 7]) [1%Qc] [1%Qc] [Q2Qc 5]
              1%Qc 0%Qc));
    simpl; lia.
Defined.

(** C9.  For [N = 4], weight 1/3 and [r = [1,1,1,1]], with the matrix rows
    [1,w,0,0; w,1,w,0; 0,w,1,w; 0,0,w,1], the pipeline followed by the solver
    produces [x = [9/11, 6/11, 6/11, 9/11]] for the worker counts 1, 2 and 4
    alike; this [x] solves the 4x4 system, no other vector of 4 entries
    does, and it is what direct elimination computes. *)
Theorem example_4x4_system :
  (∀ uninit : fresh,
     solve_distributed uninit 1 4 example_rhs = Some example_solution ∧
     solve_distributed uninit 2 4 example_rhs = Some example_solution ∧
     solve_distributed uninit 4 4 example_rhs = Some example_solution) ∧
  mat_vec example_matrix example_solution = example_rhs ∧
  (∀ y : list Qc,
     length y = 4%nat → mat_vec example_matrix y = example_rhs →
     y = example_solution) ∧
  thomas_solution example_rhs = example_solution.
Proof.
  split_and!.
  - intros uninit. rewrite <- example_thomas.
    split_and!; apply solve_distributed_spec;
      first [done | (vm_compute; discriminate)].
  - apply Qc_list_eq. vm_compute. reflexivity.
  - intros y Hlen Hy. rewrite <- example_thomas.
    apply thomas_solution_unique; [done|].
    destruct y as [|y0 [|y1 [|y2 [|y3 [|]]]]]; try done.
    by rewrite <- example_matrix_tridiag.
  - apply example_thomas.
Qed.



(** * Further properties of the code *)

(** X1.  The solver on any group of [P >= 1] ranks whose buffers have
    [N/P] cells each, for a block size [1 <= N/P <= INT_MAX], whatever the
    buffers hold and whatever every cell of fresh memory holds: every rank
    runs to the end of the function, and the output blocks, in rank order,
    are the two recurrences of the sweeps run sequentially over the
    concatenated [beta], [gam] and [r] buffers. *)
Theorem solver_runs_two_sweeps (uninit : fresh) (N : Z) (group : list args) :
  0 < N →
  N `rem` Z.of_nat (length group) = 0 →
  N `quot` Z.of_nat (length group) ≤ INT_MAX →
  Forall (args_shape (N `quot` Z.of_nat (length group))) group →
  ∃ xs,
    nonperiodic_tridiagonal_solver uninit N group = Some (Solved <$> xs) ∧
    length xs = length group ∧
    Forall (λ x, Z.of_nat (length x) = N `quot` Z.of_nat (length group)) xs ∧
    mjoin xs
    = two_sweeps (mjoin (beta_local <$> group)) (mjoin (gam_local <$> group))
        (mjoin (r_local <$> group)).
Proof.
  intros HN Hdiv Hfit Hshape.
  destruct (group_shape (length group) N HN Hdiv) as (HP & Hn & HNn).
  assert (group ≠ []) as Hne by (destruct group; [simpl in HP; lia|done]).
  pose proof (solver_group uninit _ group Hn Hne Hshape Hfit) as Hrun.
  by rewrite <- HNn in Hrun.
Qed.

Lemma solver_runs_two_sweeps_witness :
  ∃ xs,
    nonperiodic_tridiagonal_solver numbered 2 two_rank_group
    = Some (Solved <$> xs) ∧
    length xs = length two_rank_group ∧
    Forall (λ x, Z.of_nat (length x) = 2 `quot` Z.of_nat (length two_rank_group))
      xs ∧
    mjoin xs
    = two_sweeps (mjoin (beta_local <$> two_rank_group))
        (mjoin (gam_local <$> two_rank_group))
        (mjoin (r_local <$> two_rank_group)).
Proof.
  apply (solver_runs_two_sweeps numbered 2 two_rank_group);
    [lia|reflexivity|(vm_compute; discriminate)|repeat constructor].
Defined.

(** X2.  For a block size [1 <= N/P <= INT_MAX] the result of the solver
    depends on the [beta], [gam] and [r] buffers only: neither what the
    cells of the freshly allocated blocks and the uninitialised scalars
    hold, cell by cell and rank by rank, nor what the output buffers held
    before the call has any influence on it. *)
Theorem solver_ignores_stale_memory (uninit uninit' : fresh) (N : Z)
    (group group' : list args) :
  0 < N →
  N `rem` Z.of_nat (length group) = 0 →
  N `quot` Z.of_nat (length group) ≤ INT_MAX →
  Forall (args_shape (N `quot` Z.of_nat (length group))) group →
  Forall (args_shape (N `quot` Z.of_nat (length group))) group' →
  beta_local <$> group' = beta_local <$> group →
  gam_local <$> group' = gam_local <$> group →
  r_local <$> group' = r_local <$> group →
  nonperiodic_tridiagonal_solver uninit' N group'
  = nonperiodic_tridiagonal_solver uninit N group.
Proof.
  intros HN Hdiv Hfit Hshape Hshape' Hb Hg Hr.
  destruct (group_shape (length group) N HN Hdiv) as (HP & Hn & HNn).
  assert (length group' = length group) as Hlen.
  { by rewrite <- (length_fmap beta_local group'), Hb, length_fmap. }
  assert (group ≠ []) as Hne by (destruct group; [simpl in HP; lia|done]).
  assert (group' ≠ []) as Hne' by (destruct group'; [simpl in Hlen; lia|done]).
  destruct (solver_group uninit _ group Hn Hne Hshape Hfit)
    as (xs & Hrun & Hl & Hxs & Hjoin).
  destruct (solver_group uninit' _ group' Hn Hne' Hshape' Hfit)
    as (xs' & Hrun' & Hl' & Hxs' & Hjoin').
  rewrite Hlen, <- HNn in Hrun'. rewrite <- HNn in Hrun.
  rewrite Hrun, Hrun'. do 2 f_equal.
  apply (mjoin_blocks_inj (N `quot` Z.of_nat (length group))); [done..|lia|].
  by rewrite Hjoin, Hjoin', Hb, Hg, Hr.
Qed.

Lemma solver_ignores_stale_memory_witness :
  nonperiodic_tridiagonal_solver numbered 2
    [ Args [1%Qc] [0%Qc] [1%Qc] [0%Qc];
      Args [Q2Qc (9 # 8)] [Q2Qc (1 # 3)] [1%Qc] [Q2Qc 5] ]
  = nonperiodic_tridiagonal_solver zeroed 2 two_rank_group.
Proof.
  apply (solver_ignores_stale_memory zeroed numbered 2 two_rank_group
           [ Args [1%Qc] [0%Qc] [1%Qc] [0%Qc];
             Args [Q2Qc (9 # 8)] [Q2Qc (1 # 3)] [1%Qc] [Q2Qc 5] ]);
    first [lia | reflexivity | (vm_compute; discriminate) | repeat constructor].
Defined.

(** X3.  After the left-to-right sweep (local sweep, all-gathers, anchor,
    broadcast, resolve and combine) the [u_local] buffers of the ranks, in
    rank order, hold the forward recurrence
    [u[0] = beta[0]*r[0]], [u[g] = beta[g]*(r[g] - (1/3)*u[g-1])]
    over the concatenated buffers, for any buffer contents. *)
Theorem left_sweep_is_forward_pass (uninit : fresh) (n : Z) (group : list args) :
  1 ≤ n →
  group ≠ [] →
  Forall (args_shape n) group →
  ∃ ws,
    sweep_LR uninit n group = Some ws ∧
    length ws = length group ∧
    mjoin (w_u <$> ws)
    = forward_pass (mjoin (beta_local <$> group)) (mjoin (r_local <$> group))
        <$> seq 0 (length (mjoin (r_local <$> group))).
Proof.
  intros Hn Hne Hshape.
  destruct (sweep_LR_group uninit n group Hn Hne Hshape) as (ws & Hrun & Hl & Hws).
  exists ws. split_and!; [done..|].
  pose proof (group_rhs_length n group Hshape) as HR.
  rewrite (join_owned n
             (λ g, fwd_at (mjoin (beta_local <$> group))
                     (mjoin (r_local <$> group)) (Z.of_nat g)) _ O); [|lia|].
  - rewrite length_fmap, Hl.
    replace (length group * Z.to_nat n)%nat
      with (length (mjoin (r_local <$> group))) by nia.
    apply list_fmap_ext. intros i g _. unfold fwd_at. by rewrite Nat2Z.id.
  - intros k u [w [-> Hw]]%list_lookup_fmap_Some.
    by destruct (Hws k w Hw) as (_ & ? & _).
Qed.

Lemma left_sweep_is_forward_pass_witness :
  ∃ ws,
    sweep_LR zeroed 1 two_rank_group = Some ws ∧
    length ws = length two_rank_group ∧
    mjoin (w_u <$> ws)
    = forward_pass (mjoin (beta_local <$> two_rank_group))
        (mjoin (r_local <$> two_rank_group))
        <$> seq 0 (length (mjoin (r_local <$> two_rank_group))).
Proof.
  apply (left_sweep_is_forward_pass zeroed 1 two_rank_group);
    [lia|discriminate|repeat constructor].
Defined.

(** X4.  Once both sweeps have run, the coupling scalars are the boundary
    values of the neighbours: [u_tilda] of a rank [k > 0] is the last cell
    of [u_local] on rank [k-1], and [x_tilda] of a rank [k < P-1] is the
    first cell of [x_local] on rank [k+1]; on rank 0 [u_tilda] is its own
    [u_local[0]], and on rank [P-1] [x_tilda] is its own last [x_local]
    cell. *)
Theorem coupling_scalars_are_neighbour_values (uninit : fresh) (n : Z)
    (group : list args) :
  1 ≤ n →
  group ≠ [] →
  Forall (args_shape n) group →
  ∃ ws3 ws,
    sweep_LR uninit n group = Some ws3 ∧
    sweep_RL (Z.of_nat (length group)) n ws3 = Some ws ∧
    length ws3 = length group ∧ length ws = length group ∧
    (∀ w, ws3 !! O = Some w → w_u_tilda w = sel (w_u w) 0) ∧
    (∀ (k : nat) w w', ws3 !! k = Some w → ws3 !! S k = Some w' →
       w_u_tilda w' = sel (w_u w) (n - 1)) ∧
    (∀ w, ws !! (length group - 1)%nat = Some w →
       w_x_tilda w = sel (x_local (w_args w)) (n - 1)) ∧
    (∀ (k : nat) w w', ws !! k = Some w → ws !! S k = Some w' →
       w_x_tilda w = sel (x_local (w_args w')) 0).
Proof.
  intros Hn Hne Hshape.
  destruct (sweeps_group uninit n group Hn Hne Hshape)
    as (ws3 & ws & Hrun3 & Hl3 & H3 & Hrun & Hl & Hws).
  assert (1 ≤ length group)%nat as HP by (destruct group; [done|simpl; lia]).
  exists ws3, ws. split_and!; [done..| | | |].
  - intros w Hw. destruct (H3 O w Hw) as (_ & [_ Hu] & _ & _ & ->).
    rewrite Hu by lia. unfold fwd_coupling. rewrite bool_decide_eq_true_2 by done.
    done.
  - intros k w w' Hw Hw'.
    destruct (H3 k w Hw) as (_ & [_ Hu] & _).
    destruct (H3 (S k) w' Hw') as (_ & _ & _ & _ & ->).
    rewrite Hu by lia. unfold fwd_coupling. rewrite bool_decide_eq_false_2 by lia.
    rewrite Z2Nat.id by nia. f_equal. lia.
  - intros w Hw. destruct (Hws _ w Hw) as [[_ Hx] ->].
    rewrite Hx by lia. unfold sol_coupling. rewrite bool_decide_eq_true_2 by lia.
    replace (Z.of_nat (length group - 1)) with (Z.of_nat (length group) - 1) by lia.
    rewrite Z2Nat.id by nia. f_equal. lia.
  - intros k w w' Hw Hw'. pose proof (lookup_lt_Some _ _ _ Hw').
    destruct (Hws k w Hw) as [_ ->].
    destruct (Hws (S k) w' Hw') as [[_ Hx] _].
    rewrite Hx by lia. unfold sol_coupling. rewrite bool_decide_eq_false_2 by lia.
    rewrite Z2Nat.id by nia. f_equal. lia.
Qed.

Lemma coupling_scalars_are_neighbour_values_witness :
  ∃ ws3 ws,
    sweep_LR zeroed 1 two_rank_group = Some ws3 ∧
    sweep_RL (Z.of_nat (length two_rank_group)) 1 ws3 = Some ws ∧
    length ws3 = length two_rank_group ∧ length ws = length two_rank_group ∧
    (∀ w, ws3 !! O = Some w → w_u_tilda w = sel (w_u w) 0) ∧
    (∀ (k : nat) w w', ws3 !! k = Some w → ws3 !! S k = Some w' →
       w_u_tilda w' = sel (w_u w) (1 - 1)) ∧
    (∀ w, ws !! (length two_rank_group - 1)%nat = Some w →
       w_x_tilda w = sel (x_local (w_args w)) (1 - 1)) ∧
    (∀ (k : nat) w w', ws !! k = Some w → ws !! S k = Some w' →
       w_x_tilda w = sel (x_local (w_args w')) 0).
Proof.
  apply (coupling_scalars_are_neighbour_values zeroed 1 two_rank_group);
    [lia|discriminate|repeat constructor].
Defined.

(** X5.  For every rank [k < P-1], the value BACKWARD_RESOLVE computes with
    its nested loops is the term of rank [k] of the reduced recurrence
    [x_j = phi_firsts[j+1] + psi_firsts[j+1] * x_(j+1)], unrolled from
    [x_(P-1) = x_last] over the [P-1-k] ranks to the right. *)
Theorem backward_resolve_unrolls_recurrence (k nprocs : Z)
    (phi_firsts psi_firsts : list Qc) (x_last x_tilda0 : Qc) :
  0 ≤ k < nprocs - 1 →
  nprocs ≤ Z.of_nat (length phi_firsts) →
  nprocs ≤ Z.of_nat (length psi_firsts) →
  backward_resolve k nprocs phi_firsts psi_firsts x_last x_tilda0
  = Some (x_rec nprocs phi_firsts psi_firsts x_last (Z.to_nat (nprocs - 1 - k))).
Proof.
  intros Hk Hphi Hpsi. rewrite backward_resolve_spec by lia. f_equal.
  replace k with (nprocs - 2 - Z.of_nat (Z.to_nat (nprocs - 2 - k))) at 1 by lia.
  rewrite x_tilda_closed_rec. f_equal. lia.
Qed.

Lemma backward_resolve_unrolls_recurrence_witness :
  backward_resolve 0 3 [1%Qc; Q2Qc 2; Q2Qc 3] [Q2Qc 5; Q2Qc 7; Q2Qc 11] 1%Qc 0%Qc
  = Some (x_rec 3 [1%Qc; Q2Qc 2; Q2Qc 3] [Q2Qc 5; Q2Qc 7; Q2Qc 11] 1%Qc
            (Z.to_nat (3 - 1 - 0))).
Proof.
  apply (backward_resolve_unrolls_recurrence 0 3 [1%Qc; Q2Qc 2; Q2Qc 3]
           [Q2Qc 5; Q2Qc 7; Q2Qc 11] 1%Qc 0%Qc); simpl; lia.
Defined.

(** X6.  [precompute_beta_gam] has no divisibility check: on [P] ranks with
    buffers of [N/P] cells, for a block size [1 <= N/P <= INT_MAX], it runs
    to its end whether [N] is a multiple of [P] or not, leaves no message
    in flight, and fills the first [P*(N/P) = N - N mod P] terms of the
    global recurrence; the last [N mod P] indices of the system get no
    coefficient. *)
Theorem pipeline_has_no_size_check (N : Z) (bufs : list (list Qc * list Qc)) :
  1 ≤ N `quot` Z.of_nat (length bufs) ≤ INT_MAX →
  Forall (λ bg, Z.of_nat (length bg.1) = N `quot` Z.of_nat (length bufs) ∧
                Z.of_nat (length bg.2) = N `quot` Z.of_nat (length bufs)) bufs →
  ∃ out,
    precompute_group N bufs = Some (out, []) ∧
    mjoin (fst <$> out)
    = beta_seq <$> seq 0 (Z.to_nat (N - N `rem` Z.of_nat (length bufs))) ∧
    mjoin (snd <$> out)
    = gam_seq <$> seq 0 (Z.to_nat (N - N `rem` Z.of_nat (length bufs))).
Proof.
  intros Hn Hshape.
  destruct (precompute_group_blocks N bufs Hn Hshape) as (out & Hrun & Hl & Hout).
  exists out. split; [done|].
  assert (Z.of_nat (length bufs) ≠ 0) as HP.
  { intros HP. rewrite HP, Z.quot_0_r_ext in Hn by done. lia. }
  pose proof (Z.quot_rem' N (Z.of_nat (length bufs))) as Hqr.
  destruct Hn as [Hn Hfit].
  replace (Z.to_nat (N - N `rem` Z.of_nat (length bufs)))
    with (length out * Z.to_nat (N `quot` Z.of_nat (length bufs)))%nat by nia.
  split.
  - rewrite <- (length_fmap fst out).
    apply (join_owned _ _ _ O); [lia|].
    intros k b [[b' g] [-> Hk]]%list_lookup_fmap_Some. by apply Hout in Hk as [? _].
  - rewrite <- (length_fmap snd out).
    apply (join_owned _ _ _ O); [lia|].
    intros k g [[b g'] [-> Hk]]%list_lookup_fmap_Some. by apply Hout in Hk as [_ ?].
Qed.

Lemma pipeline_has_no_size_check_witness :
  ∃ out,
    precompute_group 5 [([0%Qc; 0%Qc], [0%Qc; 0%Qc]); ([0%Qc; 0%Qc], [0%Qc; 0%Qc])]
    = Some (out, []) ∧
    mjoin (fst <$> out)
    = beta_seq <$> seq 0 (Z.to_nat (5 - 5 `rem` Z.of_nat (length
        [([0%Qc; 0%Qc], [0%Qc; 0%Qc]); ([0%Qc; 0%Qc], [0%Qc; 0%Qc])]))) ∧
    mjoin (snd <$> out)
    = gam_seq <$> seq 0 (Z.to_nat (5 - 5 `rem` Z.of_nat (length
        [([0%Qc; 0%Qc], [0%Qc; 0%Qc]); ([0%Qc; 0%Qc], [0%Qc; 0%Qc])]))).
Proof.
  apply (pipeline_has_no_size_check 5
           [([0%Qc; 0%Qc], [0%Qc; 0%Qc]); ([0%Qc; 0%Qc], [0%Qc; 0%Qc])]);
    [split; vm_compute; discriminate|repeat constructor].
Defined.

(** X7.  On a system with fewer unknowns than ranks ([N/P = 0]) and at
    least two ranks, [precompute_beta_gam] is undefined whatever the size
    of the buffers: rank 0 finds [local_size = 0], stores at cell 0, runs
    no iteration and then sends [beta_local[local_size-1]], the cell before
    its buffer. *)
Theorem pipeline_overruns_short_system (N : Z) (bufs : list (list Qc * list Qc)) :
  (2 ≤ length bufs)%nat →
  N `quot` Z.of_nat (length bufs) = 0 →
  precompute_group N bufs = None.
Proof.
  intros HP Hn. destruct bufs as [|[b g] rest]; [simpl in HP; lia|].
  unfold precompute_group. cbn [precompute_ranks].
  assert (precompute_beta_gam 0 (Z.of_nat (length ((b, g) :: rest))) N [] b g
          = None) as ->; [|done].
  unfold precompute_beta_gam. rewrite Hn. change (to_int 0) with 0.
  rewrite for_range_single with (r0 := 0).
  - rewrite !bool_decide_eq_true_2 by done.
    destruct (wr b 0 1%Qc) as [b1|]; [|done]. cbn [mbind option_bind].
    destruct (wr g 0 0%Qc) as [g1|]; [|done]. cbn [mbind option_bind].
    unfold for_range at 1. cbn [Z.to_nat Z.sub Z.add Z.opp Z.pos_sub for_loop].
    cbn [mbind option_bind].
    rewrite bool_decide_eq_true_2 by (cbn [length] in *; lia).
    unfold rd. by rewrite bool_decide_eq_false_2 by lia.
  - cbn [length] in *. lia.
  - intros r0 [[b' g'] nt] Hr0. by rewrite bool_decide_eq_false_2.
Qed.

Lemma pipeline_overruns_short_system_witness :
  precompute_group 1 [([0%Qc], [0%Qc]); ([0%Qc], [0%Qc])] = None.
Proof.
  apply (pipeline_overruns_short_system 1 [([0%Qc], [0%Qc]); ([0%Qc], [0%Qc])]);
    [simpl; lia|reflexivity].
Defined.

(** X8.  On the empty system ([system_size = 0]) the size check of the
    solver passes on every group and the call is undefined: [local_size]
    is 0, the three work buffers have no cell, and rank 0 stores
    [phi_local[0]]. *)
Theorem solver_overruns_empty_system (uninit : fresh) (group : list args) :
  group ≠ [] →
  nonperiodic_tridiagonal_solver uninit 0 group = None.
Proof.
  intros Hne.
  assert (Z.of_nat (length group) ≠ 0) as HP by (destruct group; [done|simpl; lia]).
  apply solver_without_cells; [done| |].
  - by apply Z.rem_0_l.
  - rewrite Z.quot_0_l by done. vm_compute. discriminate.
Qed.

Lemma solver_overruns_empty_system_witness :
  nonperiodic_tridiagonal_solver zeroed 0 [Args [] [] [] []] = None.
Proof. apply (solver_overruns_empty_system zeroed [Args [] [] [] []]). discriminate. Defined.

(** X9.  The message protocol of one rank of [precompute_beta_gam], on
    buffers of [local_size = N/P] cells with [1 <= N/P <= INT_MAX]: rank 0
    receives nothing; a rank [k > 0] takes the oldest message of rank [k-1]
    addressed to it out of the network and seeds its first cells from the
    value, a coefficient in [1, 2) as every rank sends; every rank but the
    last then sends exactly one message, to rank [k+1], carrying
    [beta_local[local_size-1]]; the last rank sends nothing.  All other
    messages in the network stay as they are, and every value the rank
    stores in [beta_local] lies in [1, 2) again, so that none of its
    divisions is by zero. *)
Theorem pipeline_rank_hands_over_last_beta (rank nprocs N : Z)
    (net net' : list msg) (last_beta : Qc) (beta0 gam0 : list Qc) :
  0 ≤ rank < nprocs →
  1 ≤ N `quot` nprocs ≤ INT_MAX →
  Z.of_nat (length beta0) = N `quot` nprocs →
  Z.of_nat (length gam0) = N `quot` nprocs →
  (rank = 0 → net' = net) →
  (rank ≠ 0 →
     MPI_Recv net (rank - 1) rank = Some (last_beta, net') ∧
     (1 ≤ last_beta)%Qc ∧ (last_beta < 1 + 1)%Qc) →
  ∃ b g,
    precompute_beta_gam rank nprocs N net beta0 gam0
    = Some (b, g,
            if bool_decide (rank ≠ nprocs - 1)
            then net' ++ [(rank, rank + 1, sel b (N `quot` nprocs - 1))]
            else net') ∧
    (rank = 0 → sel b 0 = 1%Qc ∧ sel g 0 = 0%Qc) ∧
    (rank ≠ 0 →
       sel b 0 = (1 / (1 - third * last_beta * third))%Qc ∧
       sel g 0 = (last_beta * third)%Qc) ∧
    (∀ i, 0 ≤ i < N `quot` nprocs →
       (1 ≤ sel b i)%Qc ∧ (sel b i < 1 + 1)%Qc).
Proof.
  intros Hrank Hn Hb Hg Hnet0 Hnet.
  pose proof (to_int_fits (N `quot` nprocs) ltac:(unfold INT_MAX in *; lia))
    as Hint.
  pose proof (precompute_beta_gam_spec rank nprocs N net net' last_beta
                beta0 gam0) as Hspec.
  cbv zeta in Hspec. rewrite Hint in Hspec.
  destruct Hspec as (b & g & Hrun & Hpipe); [done|lia|done|done|done| |].
  { intros Hk. by destruct (Hnet Hk). }
  pose proof Hpipe as (_ & _ & Hz & Hnz & _).
  exists b, g. split_and!; [done..|].
  apply (pipelined_range rank _ last_beta b g); [|done].
  intros Hk. by destruct (Hnet Hk) as (_ & ? & ?).
Qed.

Lemma pipeline_rank_hands_over_last_beta_witness :
  ∃ b g,
    precompute_beta_gam 1 3 3 [(0, 1, 1%Qc)] [0%Qc] [0%Qc]
    = Some (b, g,
            if bool_decide (1 ≠ 3 - 1)
            then [] ++ [(1, 1 + 1, sel b (3 `quot` 3 - 1))]
            else []) ∧
    (1 = 0 → sel b 0 = 1%Qc ∧ sel g 0 = 0%Qc) ∧
    (1 ≠ 0 →
       sel b 0 = (1 / (1 - third * 1 * third))%Qc ∧
       sel g 0 = (1 * third)%Qc) ∧
    (∀ i, 0 ≤ i < 3 `quot` 3 →
       (1 ≤ sel b i)%Qc ∧ (sel b i < 1 + 1)%Qc).
Proof.
  apply (pipeline_rank_hands_over_last_beta 1 3 3 [(0, 1, 1%Qc)] [] 1%Qc
           [0%Qc] [0%Qc]);
    first [ lia | reflexivity | (split; vm_compute; discriminate)
          | (intros _; split_and!; [reflexivity|done|done]) ].
Defined.

(** X10.  For a block size [1 <= N/P <= INT_MAX] the solver is linear in
    the right-hand side: on three groups with the same [beta] and [gam]
    buffers, when the [r] buffers of the third hold [c*r1 + r2] cell by
    cell, its result is [c*x1 + x2] cell by cell, whatever the coefficient
    buffers hold. *)
Theorem solver_is_linear_in_rhs (uninit : fresh) (N : Z) (c : Qc)
    (g1 g2 g3 : list args) :
  0 < N →
  N `rem` Z.of_nat (length g1) = 0 →
  N `quot` Z.of_nat (length g1) ≤ INT_MAX →
  Forall (args_shape (N `quot` Z.of_nat (length g1))) g1 →
  Forall (args_shape (N `quot` Z.of_nat (length g1))) g2 →
  Forall (args_shape (N `quot` Z.of_nat (length g1))) g3 →
  beta_local <$> g2 = beta_local <$> g1 →
  gam_local <$> g2 = gam_local <$> g1 →
  beta_local <$> g3 = beta_local <$> g1 →
  gam_local <$> g3 = gam_local <$> g1 →
  mjoin (r_local <$> g3) = axpy c (mjoin (r_local <$> g1)) (mjoin (r_local <$> g2)) →
  ∃ x1 x2 x3,
    nonperiodic_tridiagonal_solver uninit N g1 = Some (Solved <$> x1) ∧
    nonperiodic_tridiagonal_solver uninit N g2 = Some (Solved <$> x2) ∧
    nonperiodic_tridiagonal_solver uninit N g3 = Some (Solved <$> x3) ∧
    mjoin x3 = axpy c (mjoin x1) (mjoin x2).
Proof.
  intros HN Hdiv Hfit Hs1 Hs2 Hs3 Hb2 Hg2 Hb3 Hg3 Hr3.
  destruct (group_shape (length g1) N HN Hdiv) as (HP & Hn & HNn).
  assert (length g2 = length g1) as Hl2.
  { by rewrite <- (length_fmap beta_local g2), Hb2, length_fmap. }
  assert (length g3 = length g1) as Hl3.
  { by rewrite <- (length_fmap beta_local g3), Hb3, length_fmap. }
  assert (g1 ≠ []) as Hne1 by (destruct g1; [simpl in HP; lia|done]).
  assert (g2 ≠ []) as Hne2 by (destruct g2; [simpl in Hl2; lia|done]).
  assert (g3 ≠ []) as Hne3 by (destruct g3; [simpl in Hl3; lia|done]).
  destruct (solver_group uninit _ g1 Hn Hne1 Hs1 Hfit)
    as (x1 & Hrun1 & _ & _ & Hj1).
  destruct (solver_group uninit _ g2 Hn Hne2 Hs2 Hfit)
    as (x2 & Hrun2 & _ & _ & Hj2).
  destruct (solver_group uninit _ g3 Hn Hne3 Hs3 Hfit)
    as (x3 & Hrun3 & _ & _ & Hj3).
  rewrite Hl2, <- HNn in Hrun2. rewrite Hl3, <- HNn in Hrun3.
  rewrite <- HNn in Hrun1.
  exists x1, x2, x3. split_and!; [done..|].
  rewrite Hj1, Hj2, Hj3, Hb2, Hg2, Hb3, Hg3, Hr3.
  apply two_sweeps_axpy.
  pose proof (group_rhs_length _ g1 Hs1) as E1.
  pose proof (group_rhs_length _ g2 Hs2) as E2. lia.
Qed.

Lemma solver_is_linear_in_rhs_witness :
  ∃ x1 x2 x3,
    nonperiodic_tridiagonal_solver zeroed 2 two_rank_group = Some (Solved <$> x1) ∧
    nonperiodic_tridiagonal_solver zeroed 2
      [ Args [1%Qc] [0%Qc] [Q2Qc 2] [0%Qc];
        Args [Q2Qc (9 # 8)] [Q2Qc (1 # 3)] [0%Qc] [0%Qc] ]
    = Some (Solved <$> x2) ∧
    nonperiodic_tridiagonal_solver zeroed 2
      [ Args [1%Qc] [0%Qc] [Q2Qc 5] [0%Qc];
        Args [Q2Qc (9 # 8)] [Q2Qc (1 # 3)] [Q2Qc 3] [0%Qc] ]
    = Some (Solved <$> x3) ∧
    mjoin x3 = axpy (Q2Qc 3) (mjoin x1) (mjoin x2).
Proof.
  apply (solver_is_linear_in_rhs zeroed 2 (Q2Qc 3) two_rank_group
           [ Args [1%Qc] [0%Qc] [Q2Qc 2] [0%Qc];
             Args [Q2Qc (9 # 8)] [Q2Qc (1 # 3)] [0%Qc] [0%Qc] ]
           [ Args [1%Qc] [0%Qc] [Q2Qc 5] [0%Qc];
             Args [Q2Qc (9 # 8)] [Q2Qc (1 # 3)] [Q2Qc 3] [0%Qc] ]);
    first [ lia | reflexivity | (vm_compute; discriminate) | repeat constructor
          | (apply Qc_list_eq; reflexivity) ].
Defined.

(** X11.  When the [beta] buffers hold the coefficients of the pipeline,
    the left-to-right sweep is the forward elimination of the sequential
    Thomas algorithm: the [u_local] buffers, in rank order, hold the
    right-hand side of the eliminated (upper bidiagonal) system. *)
Theorem left_sweep_is_thomas_elimination (uninit : fresh) (n : Z)
    (group : list args) :
  1 ≤ n →
  group ≠ [] →
  Forall (args_shape n) group →
  mjoin (beta_local <$> group)
  = beta_seq <$> seq 0 (length (mjoin (beta_local <$> group))) →
  ∃ ws,
    sweep_LR uninit n group = Some ws ∧
    mjoin (w_u <$> ws)
    = snd <$> thomas_forward 0%Qc 0%Qc (system_rows (mjoin (r_local <$> group))).
Proof.
  intros Hn Hne Hshape HB.
  destruct (sweep_LR_group uninit n group Hn Hne Hshape) as (ws & Hrun & Hl & Hws).
  exists ws. split; [done|].
  pose proof (group_rhs_length n group Hshape) as HR.
  assert (Z.of_nat (length (mjoin (beta_local <$> group)))
          = Z.of_nat (length group) * n) as HlB.
  { rewrite (length_mjoin_blocks n), length_fmap; [done|].
    apply (Forall_fmap_shape _ (args_shape n)); [by intros ? (? & ? & ? & ?)|done]. }
  rewrite <- (drop_0 (mjoin (r_local <$> group))).
  rewrite (thomas_forward_system _ (length (mjoin (r_local <$> group))) O)
    by (done || lia).
  rewrite <- list_fmap_compose.
  rewrite (join_owned n
             (λ g, fwd_at (mjoin (beta_local <$> group))
                     (mjoin (r_local <$> group)) (Z.of_nat g)) _ O); [|lia|].
  - rewrite length_fmap, Hl.
    replace (length group * Z.to_nat n)%nat
      with (length (mjoin (r_local <$> group))) by nia.
    apply list_fmap_ext. intros i g Hg%lookup_seq. unfold fwd_at.
    rewrite Nat2Z.id. apply forward_pass_pipeline; [done|lia].
  - intros k u [w [-> Hw]]%list_lookup_fmap_Some.
    by destruct (Hws k w Hw) as (_ & ? & _).
Qed.

Lemma left_sweep_is_thomas_elimination_witness :
  ∃ ws,
    sweep_LR zeroed 1 two_rank_group = Some ws ∧
    mjoin (w_u <$> ws)
    = snd <$> thomas_forward 0%Qc 0%Qc
                (system_rows (mjoin (r_local <$> two_rank_group))).
Proof.
  apply (left_sweep_is_thomas_elimination zeroed 1 two_rank_group);
    first [lia | discriminate | repeat constructor
          | (apply Qc_list_eq; reflexivity)].
Defined.

(** X12.  For a block size [1 <= N/P <= INT_MAX] the coefficients
    [precompute_beta_gam] leaves in the [beta] buffers are the reciprocals
    of the pivots of Gaussian elimination without pivoting on the
    tridiagonal matrix with unit diagonal and 1/3 off the diagonal:
    [beta[i] * pivot[i] = 1] for every row [i]. *)
Theorem pipeline_betas_are_reciprocal_pivots (N : Z)
    (bufs : list (list Qc * list Qc)) (r : list Qc) :
  1 ≤ N `quot` Z.of_nat (length bufs) ≤ INT_MAX →
  N `rem` Z.of_nat (length bufs) = 0 →
  Forall (λ bg, Z.of_nat (length bg.1) = N `quot` Z.of_nat (length bufs) ∧
                Z.of_nat (length bg.2) = N `quot` Z.of_nat (length bufs)) bufs →
  Z.of_nat (length r) = N →
  ∃ out,
    precompute_group N bufs = Some (out, []) ∧
    Forall2 (λ b p, (b * p)%Qc = 1%Qc)
      (mjoin (fst <$> out)) (pivots 0%Qc (system_rows r)).
Proof.
  intros Hn Hdiv Hshape Hr.
  destruct (precompute_group_blocks N bufs Hn Hshape) as (out & Hrun & Hl & Hout).
  exists out. split; [done|].
  assert (Z.of_nat (length bufs) ≠ 0) as HP.
  { intros HP. rewrite HP, Z.quot_0_r_ext in Hn by done. lia. }
  pose proof (Z.quot_rem' N (Z.of_nat (length bufs))) as Hqr.
  destruct Hn as [Hn Hfit].
  rewrite (join_owned (N `quot` Z.of_nat (length bufs)) beta_seq _ O); [|lia|].
  - rewrite length_fmap.
    replace (length out * Z.to_nat (N `quot` Z.of_nat (length bufs)))%nat
      with (length r) by nia.
    by apply pivots_beta_seq.
  - intros k b [[b' g] [-> Hk]]%list_lookup_fmap_Some. by apply Hout in Hk as [? _].
Qed.

Lemma pipeline_betas_are_reciprocal_pivots_witness :
  ∃ out,
    precompute_group 2 [([0%Qc], [0%Qc]); ([0%Qc], [0%Qc])] = Some (out, []) ∧
    Forall2 (λ b p, (b * p)%Qc = 1%Qc)
      (mjoin (fst <$> out)) (pivots 0%Qc (system_rows [1%Qc; 1%Qc])).
Proof.
  apply (pipeline_betas_are_reciprocal_pivots 2
           [([0%Qc], [0%Qc]); ([0%Qc], [0%Qc])] [1%Qc; 1%Qc]);
    first [ reflexivity | (split; vm_compute; discriminate)
          | repeat constructor ].
Defined.

(** X13.  FORWARD_RESOLVE and FORWARD_COMBINE on a rank [k > 0]: the
    coupling scalar is the sum over [i < k] of [phi_lasts[i]] times the
    product of [psi_lasts[j]] for [j] in (i, k), plus [u_first] times the
    product of [psi_lasts[i]] for [i] in [0, k); the combine loop then sets
    [u_local[i] = phi_local[i] + u_tilda * psi_local[i]] for every local
    index [i] and changes neither [phi_local] and [psi_local] nor the
    buffers passed to the solver. *)
Theorem forward_resolve_and_combine (k local_size : Z)
    (phi_lasts psi_lasts : list Qc) (u_first : Qc) (w : worker) :
  0 < k →
  k ≤ Z.of_nat (length phi_lasts) →
  k ≤ Z.of_nat (length psi_lasts) →
  Z.of_nat (length (w_phi w)) = local_size →
  Z.of_nat (length (w_psi w)) = local_size →
  Z.of_nat (length (w_u w)) = local_size →
  ∃ w',
    solver_phase3 local_size phi_lasts psi_lasts u_first k w = Some w' ∧
    w_u_tilda w'
      = (sum_range (λ i, sel phi_lasts i * prod_range psi_lasts (i + 1) k) 0 k
         + u_first * prod_range psi_lasts 0 k)%Qc ∧
    Z.of_nat (length (w_u w')) = local_size ∧
    (∀ i, 0 ≤ i < local_size →
       sel (w_u w') i = (sel (w_phi w) i + w_u_tilda w' * sel (w_psi w) i)%Qc) ∧
    w_phi w' = w_phi w ∧ w_psi w' = w_psi w ∧ w_args w' = w_args w.
Proof.
  intros Hk Hphi Hpsi Hlphi Hlpsi Hlu. unfold solver_phase3.
  rewrite forward_resolve_spec by lia. cbn [mbind option_bind].
  destruct (forward_combine_spec local_size (w_phi w) (w_psi w)
              (u_tilda_closed k phi_lasts psi_lasts u_first) (w_u w))
    as (u & -> & Hlen & Hcomb); [lia|done..|].
  cbn [mbind option_bind]. eexists. split; [reflexivity|]. wsimpl.
  by split_and!.
Qed.

Lemma forward_resolve_and_combine_witness :
  ∃ w',
    solver_phase3 1 [1%Qc; Q2Qc 2; Q2Qc 3] [Q2Qc 5; Q2Qc 7; Q2Qc 11] 1%Qc 2
      (Worker (Args [1%Qc] [0%Qc] [1%Qc] [Q2Qc 7]) [0%Qc] [Q2Qc 3] [Q2Qc 11]
         0%Qc 0%Qc)
    = Some w' ∧
    w_u_tilda w'
      = (sum_range
           (λ i, sel [1%Qc; Q2Qc 2; Q2Qc 3] i
                 * prod_range [Q2Qc 5; Q2Qc 7; Q2Qc 11] (i + 1) 2)
           0 2
         + 1 * prod_range [Q2Qc 5; Q2Qc 7; Q2Qc 11] 0 2)%Qc ∧
    Z.of_nat (length (w_u w')) = 1 ∧
    (∀ i, 0 ≤ i < 1 →
       sel (w_u w') i = (sel [Q2Qc 3] i + w_u_tilda w' * sel [Q2Qc 11] i)%Qc) ∧
    w_phi w' = [Q2Qc 3] ∧ w_psi w' = [Q2Qc 11] ∧
    w_args w' = Args [1%Qc] [0%Qc] [1%Qc] [Q2Qc 7].
Proof.
  apply (forward_resolve_and_combine 2 1 [1%Qc; Q2Qc 2; Q2Qc 3]
           [Q2Qc 5; Q2Qc 7; Q2Qc 11] 1%Qc
           (Worker (Args [1%Qc] [0%Qc] [1%Qc] [Q2Qc 7]) [0%Qc] [Q2Qc 3]
              [Q2Qc 11] 0%Qc 0%Qc));
    simpl; lia.
Defined.

(** X14.  The solver alone, on any group whose [beta] and [gam] buffers
    hold the coefficients [precompute_beta_gam] leaves (C2) and whose
    buffers have [N/P] cells, for a block size [1 <= N/P <= INT_MAX]: the
    output blocks, in rank order, form a
    vector [x] with [A x = r] for the tridiagonal matrix [A] with unit
    diagonal and 1/3 off the diagonal and the concatenated right-hand side
    [r], and [x] is the only vector of that length with this property. *)
Theorem solver_solves_the_system (uninit : fresh) (N : Z) (group : list args) :
  0 < N →
  N `rem` Z.of_nat (length group) = 0 →
  N `quot` Z.of_nat (length group) ≤ INT_MAX →
  Forall (args_shape (N `quot` Z.of_nat (length group))) group →
  mjoin (beta_local <$> group) = beta_seq <$> seq 0 (Z.to_nat N) →
  mjoin (gam_local <$> group) = gam_seq <$> seq 0 (Z.to_nat N) →
  ∃ xs,
    nonperiodic_tridiagonal_solver uninit N group = Some (Solved <$> xs) ∧
    tridiag_apply (system_rows (mjoin (r_local <$> group))) (mjoin xs)
    = mjoin (r_local <$> group) ∧
    ∀ y, length y = length (mjoin (r_local <$> group)) →
         tridiag_apply (system_rows (mjoin (r_local <$> group))) y
         = mjoin (r_local <$> group) →
         y = mjoin xs.
Proof.
  intros HN Hdiv Hfit Hshape HB HG.
  destruct (solver_group_pipeline uninit N group HN Hdiv Hfit Hshape HB HG)
    as (xs & Hrun & Hjoin).
  exists xs. rewrite Hjoin. split_and!; [done| |].
  - apply thomas_solution_solves.
  - intros y Hlen Hy. by apply thomas_solution_unique.
Qed.

Lemma solver_solves_the_system_witness :
  ∃ xs,
    nonperiodic_tridiagonal_solver zeroed 2 two_rank_group = Some (Solved <$> xs) ∧
    tridiag_apply (system_rows (mjoin (r_local <$> two_rank_group))) (mjoin xs)
    = mjoin (r_local <$> two_rank_group) ∧
    ∀ y, length y = length (mjoin (r_local <$> two_rank_group)) →
         tridiag_apply (system_rows (mjoin (r_local <$> two_rank_group))) y
         = mjoin (r_local <$> two_rank_group) →
         y = mjoin xs.
Proof.
  apply (solver_solves_the_system zeroed 2 two_rank_group);
    first [ lia | reflexivity | (vm_compute; discriminate) | repeat constructor
          | (apply Qc_list_eq; reflexivity) ].
Defined.

(** X15.  One rank of [precompute_beta_gam] on buffers of at least
    [local_size] cells, for a block size [1 <= local_size <= INT_MAX] and
    a received value in [1, 2), as every rank sends (X9), writes cells [0]
    to [local_size-1] only: it runs to its end, the buffers keep their
    lengths, and every cell from index [local_size] on holds what it held
    before the call. *)
Theorem pipeline_rank_writes_its_block_only (rank nprocs N : Z)
    (net net' : list msg) (last_beta : Qc) (beta0 gam0 : list Qc) :
  0 ≤ rank < nprocs →
  1 ≤ N `quot` nprocs ≤ INT_MAX →
  N `quot` nprocs ≤ Z.of_nat (length beta0) →
  N `quot` nprocs ≤ Z.of_nat (length gam0) →
  (rank = 0 → net' = net) →
  (rank ≠ 0 →
     MPI_Recv net (rank - 1) rank = Some (last_beta, net') ∧
     (1 ≤ last_beta)%Qc ∧ (last_beta < 1 + 1)%Qc) →
  ∃ b g net'',
    precompute_beta_gam rank nprocs N net beta0 gam0 = Some (b, g, net'') ∧
    length b = length beta0 ∧ length g = length gam0 ∧
    ∀ j, N `quot` nprocs ≤ j → sel b j = sel beta0 j ∧ sel g j = sel gam0 j.
Proof.
  intros Hrank [Hn Hfit] Hb Hg Hnet0 Hnet. unfold precompute_beta_gam.
  rewrite to_int_fits by (unfold INT_MAX in *; lia).
  set (local_size := N `quot` nprocs) in *.
  rewrite for_range_single with (r0 := rank); [|done|].
  2: { intros r [[b g] nt] Hr. by rewrite bool_decide_eq_false_2. }
  rewrite bool_decide_eq_true_2 by done.
  set (seed := if bool_decide (rank = 0) then _ else _).
  assert (∃ b1 g1, seed = Some (b1, g1, net') ∧
            length b1 = length beta0 ∧ length g1 = length gam0 ∧
            ∀ j, 1 ≤ j → sel b1 j = sel beta0 j ∧ sel g1 j = sel gam0 j)
    as (b1 & g1 & -> & Hb1 & Hg1 & Hfr1).
  { subst seed. case_bool_decide as Hr0.
    - rewrite <- (Hnet0 Hr0). access. eexists _, _; (split; [reflexivity|]).
      rewrite !length_upd. split_and!; [done..|].
      intros j Hj. by rewrite !sel_upd_ne by lia.
    - destruct (Hnet Hr0) as (Hrecv & _ & _).
      rewrite Hrecv. cbn [mbind option_bind]. access.
      eexists _, _; (split; [reflexivity|]).
      rewrite !length_upd. split_and!; [done..|].
      intros j Hj. by rewrite !sel_upd_ne by lia. }
  cbn [mbind option_bind].
  loop_inv 1
    (λ (i : Z) '((b, g) : list Qc * list Qc),
       length b = length beta0 ∧ length g = length gam0 ∧
       ∀ j, i ≤ j → sel b j = sel beta0 j ∧ sel g j = sel gam0 j) Hloop.
  destruct Hloop as ([b g] & -> & Hlb & Hlg & Hfr).
  - done.
  - by split_and!.
  - intros i [b g] Hi (Hlb & Hlg & Hfr). access.
    eexists (_, _). split; [reflexivity|]. rewrite !length_upd.
    split_and!; [done..|].
    intros j Hj. rewrite !sel_upd_ne by lia. apply Hfr. lia.
  - cbn [mbind option_bind]. case_bool_decide.
    + access. by eexists _, _, _.
    + by eexists _, _, _.
Qed.

Lemma pipeline_rank_writes_its_block_only_witness :
  ∃ b g net'',
    precompute_beta_gam 1 3 3 [(0, 1, 1%Qc)] [0%Qc; Q2Qc 7] [0%Qc; Q2Qc 7; Q2Qc 7]
    = Some (b, g, net'') ∧
    length b = length [0%Qc; Q2Qc 7] ∧ length g = length [0%Qc; Q2Qc 7; Q2Qc 7] ∧
    ∀ j, 3 `quot` 3 ≤ j →
         sel b j = sel [0%Qc; Q2Qc 7] j ∧ sel g j = sel [0%Qc; Q2Qc 7; Q2Qc 7] j.
Proof.
  apply (pipeline_rank_writes_its_block_only 1 3 3 [(0, 1, 1%Qc)] [] 1%Qc
           [0%Qc; Q2Qc 7] [0%Qc; Q2Qc 7; Q2Qc 7]);
    first [ (simpl; change (3 `quot` 3) with 1; unfold INT_MAX; lia) | lia
          | reflexivity | discriminate | (intros _; reflexivity)
          | (intros _; split_and!; done) ].
Defined.
